(** * Reverse-annealing notebook: the statistics, schedules and cells

    A shallow embedding of the code cells of [01-reverse-annealing.ipynb].

    Conventions of the embedding.
    - A spin sample (one row of [answer.record.sample]) is a [list Z]; the
      2-D sample array is a list of rows of one common width.
    - A Python [dict] keyed by qubit index is a [gmap Z _]; a mutable dict
      lives in a store of objects, addressed by reference.
    - Python floats (energies, times, slopes) are the rationals [Q] with
      exact arithmetic, compared by [Qeq]/[Qlt]: the binary64 rounding of
      each operation is left out.  Where a property turns on that rounding,
      the expression is evaluated a second time on the kernel's binary64
      floats ([i5_binary64], [pause_schedule_binary64]), or written a
      second time with every operation rounded to binary64
      ([round2_binary64], [np_mean_binary64], [analyze_binary64]).
    - A raised exception is an explicit outcome of the cell that raises it. *)

From Stdlib Require Import ZArith QArith Qround Qabs Qpower Qreduction Lia Lqa.
From Stdlib Require Import Floats.PrimFloat Floats.SpecFloat Floats.FloatOps Uint63.
From stdpp Require Import gmap list strings pretty.

(** ** Hamming distances between consecutive samples *)

Module Hamming.

(** [np.sum] of a boolean array counts its [True] entries. *)
Definition np_sum (bs : list bool) : nat :=
  foldr (λ b acc, Nat.b2n b + acc) 0 bs.

(** [x1 != x2] on two 1-D arrays of one shape: the element-wise test. *)
Definition np_not_equal (x1 x2 : list Z) : list bool :=
  zip_with (λ a b, bool_decide (a ≠ b)) x1 x2.

(** [get_hamming_distance = lambda x1, x2: np.sum(x1 != x2)] *)
Definition get_hamming_distance (x1 x2 : list Z) : nat :=
  np_sum (np_not_equal x1 x2).

(** [def get_hamming_distances(sols)]: the comprehension over
    [zip(sols, sols[1:])]. *)
Definition get_hamming_distances (sols : list (list Z)) : list nat :=
  (λ p, get_hamming_distance p.1 p.2) <$> zip sols (drop 1 sols).

(** The reference notion the metric is named after: the number of variable
    positions [j] at which the two samples hold different values. *)
Definition differing_positions (x y : list Z) : nat :=
  length (filter (λ j, x !! j ≠ y !! j) (seq 0 (length x))).

(** All rows of a 2-D array have the array's width. *)
Definition rows_of_width (w : nat) (sols : list (list Z)) : Prop :=
  Forall (λ r, length r = w) sols.

(** Three reads of a three-qubit problem. *)
Definition three_reads : list (list Z) :=
  [[1; -1; 1]; [1; 1; -1]; [1; 1; -1]]%Z.

End Hamming.

(** ** Result sets and the statistics computed from them *)

Module Stats.

(** One row of [answer.record]: the spin assignment, its energy and the
    number of reads that produced it. *)
Record sample_record := SampleRecord {
  sample : list Z;
  energy : Q;
  num_occurrences : nat
}.

(** The response of a sampling request ([dimod.SampleSet]): the variable
    labels and the record array. *)
Record SampleSet := MkSampleSet {
  variables : list Z;
  record : list sample_record
}.

(** [answer.record.sample] and [answer.record.energy]: the columns. *)
Definition record_sample (answer : SampleSet) : list (list Z) :=
  sample <$> record answer.
Definition record_energy (answer : SampleSet) : list Q :=
  energy <$> record answer.

(** [len(answer)] *)
Definition len (answer : SampleSet) : nat := length (record answer).

(** [answer.first]: the SDK iterates the records in a stable ascending sort
    by energy and yields the first one, i.e. the earliest record of least
    energy; on an empty set it raises ([None]). *)
Fixpoint first_by_energy (rs : list sample_record) : option sample_record :=
  match rs with
  | [] => None
  | r :: rs' =>
      match first_by_energy rs' with
      | None => Some r
      | Some r' => if Qle_bool (energy r) (energy r') then Some r else Some r'
      end
  end.
Definition first (answer : SampleSet) : option sample_record :=
  first_by_energy (record answer).

(** [rint]: the nearest integer, a tie going to the even neighbour. *)
Definition rint (x : Q) : Z :=
  let f := Qfloor x in
  match ((x - inject_Z f) ?= 1 # 2)%Q with
  | Lt => f
  | Gt => (f + 1)%Z
  | Eq => if Z.even f then f else (f + 1)%Z
  end.

(** [round(x, 2)] on a float64 scalar, [rint(x * 100) / 100], in exact
    arithmetic.  [round2_binary64] below rounds the product and the
    quotient to binary64, as the interpreter does. *)
Definition round2 (x : Q) : Q := (inject_Z (rint (x * 100)) / 100)%Q.

(** [np.sum] and [arr.mean()] in exact arithmetic; the mean of an empty
    array is [nan], rendered [None].  [np_mean_binary64] below rounds each
    addition and the division. *)
Definition np_sum (xs : list Q) : Q := foldr Qplus 0%Q xs.
Definition np_mean (xs : list Q) : option Q :=
  match xs with
  | [] => None
  | _ => Some (np_sum xs / inject_Z (Z.of_nat (length xs)))%Q
  end.

(** [arr.var()]: the mean squared deviation from the mean (population
    variance, [ddof = 0]).  [arr.std()] is its non-negative square root,
    which need not be rational; the embedding carries the variance. *)
Definition np_var (xs : list Q) : option Q :=
  mu ← np_mean xs;
  np_mean ((λ x, (x - mu) * (x - mu))%Q <$> xs).

(** [list(xs).count(v)]: the number of elements that compare equal to
    [v]. *)
Fixpoint list_count (v : Q) (xs : list Q) : nat :=
  match xs with
  | [] => 0
  | x :: xs' => (if Qeq_bool x v then 1 else 0) + list_count v xs'
  end.

(** [reads = 1000] *)
Definition reads : Z := 1000.

(** The seven values [analyze] returns. *)
Record analysis := MkAnalysis {
  solutions : list (list Z);
  energies : list Q;
  hamming_distances : list nat;
  energy_best : Q;
  ratio : Q;
  energy_mean : Q;
  hamming_mean : option Q
}.

(** [def analyze(answer)], with the global [ground_energy] as a
    parameter.  [None] is the exception [answer.first] raises on an empty
    result set.  The numbers are exact here; [analyze_binary64] below is the
    same function with every float operation rounded. *)
Definition analyze (ground_energy : Q) (answer : SampleSet) : option analysis :=
  let solutions := record_sample answer in
  let energies := record_energy answer in
  best ← first answer;
  let energy_best := round2 (energy best) in
  let ratio :=
    (inject_Z (Z.of_nat (list_count ground_energy (record_energy answer)))
     / inject_Z reads)%Q in
  let hamming_distances := Hamming.get_hamming_distances solutions in
  mu ← np_mean energies;
  let energy_mean := round2 mu in
  let hamming_mean :=
    round2 <$> np_mean ((λ d, inject_Z (Z.of_nat d)) <$> hamming_distances) in
  Some (MkAnalysis solutions energies hamming_distances energy_best ratio
          energy_mean hamming_mean).

(** The lowest energy a cell prints after a request,
    [record.energy[0]]; it is printed as it is, without rounding. *)
Definition lowest_energy_found (answer : SampleSet) : option Q :=
  record_energy answer !! 0.

(** The exercise cell's ratio: the occurrence count of the first record
    when that record is at the ground energy, over [reads]. *)
Definition exercise_ratio (ground_energy : Q) (answer : SampleSet) : option Q :=
  r0 ← record answer !! 0;
  Some (if Qeq_bool (energy r0) ground_energy
        then (inject_Z (Z.of_nat (num_occurrences r0)) / inject_Z reads)%Q
        else 0%Q).

(** *** Reference notions *)

(** [m] is the least energy among the records. *)
Definition is_min_energy (m : Q) (rs : list sample_record) : Prop :=
  (∃ r, r ∈ rs ∧ (energy r == m)%Q) ∧ ∀ r, r ∈ rs → (m <= energy r)%Q.

#[global] Instance Qeq_decision (x y : Q) : Decision (x == y)%Q := Qeq_dec x y.

(** The records whose energy equals the ground-state energy. *)
Definition ground_records (ground_energy : Q) (rs : list sample_record)
  : list sample_record :=
  filter (λ r, (energy r == ground_energy)%Q) rs.


(** The records come in non-decreasing order of energy. *)
Definition sorted_by_energy (rs : list sample_record) : Prop :=
  ∀ i j ri rj, i ≤ j → rs !! i = Some ri → rs !! j = Some rj →
               (energy ri <= energy rj)%Q.

(** *** Result sets to evaluate on *)

(** A histogram-mode answer whose first record is not the lowest. *)
Definition histogram_answer : SampleSet :=
  MkSampleSet [0; 1]%Z
    [ SampleRecord [1; 1]%Z (-1) 3; SampleRecord [-1; 1]%Z (-17 # 8) 1 ].




(** Three reads in raw mode. *)
Definition raw_answer : SampleSet :=
  MkSampleSet [0; 1]%Z
    [ SampleRecord [-1; -1]%Z 0 1; SampleRecord [1; -1]%Z 4 1;
      SampleRecord [-1; -1]%Z 0 1 ].

(** Forty reads in raw mode, thirty-one of energy -3 and nine of energy 0:
    the energies sum to -93. *)
Definition forty_reads : SampleSet :=
  MkSampleSet [0; 1]%Z
    (replicate 31 (SampleRecord [-1; -1]%Z (-3) 1)
     ++ replicate 9 (SampleRecord [1; -1]%Z 0 1)).

(** Forty-one reads of one qubit in raw mode: the first twenty-four
    alternate, the others repeat the last of them, so that 23 of the 40
    consecutive pairs differ. *)
Definition forty_one_reads : SampleSet :=
  MkSampleSet [0]%Z
    (((λ i, SampleRecord [if Nat.even i then 1 else -1]%Z (-1) 1) <$> seq 0 24)
     ++ replicate 17 (SampleRecord [-1]%Z (-1) 1)).

(** *** Reference notion: the reads at the ground energy *)

(** The reads, counted with their occurrences, whose energy equals the
    ground-state energy. *)
Definition reads_at_ground (ground_energy : Q) (rs : list sample_record) : nat :=
  sum_list (num_occurrences <$> ground_records ground_energy rs).

(** What [analyze] returns on [raw_answer] with ground energy 0, and on
    [histogram_answer] with ground energy -1. *)
Definition raw_analysis : analysis :=
  default (MkAnalysis [] [] [] 0 0 0 None) (analyze 0 raw_answer).
Definition histogram_analysis : analysis :=
  default (MkAnalysis [] [] [] 0 0 0 None) (analyze (-1) histogram_answer).

End Stats.

(** ** Anneal schedules *)

Module Schedule.

(** A breakpoint is a pair [[time, s]]; a schedule is the list of them. *)
Definition breakpoint : Type := Q * Q.
Definition schedule : Type := list breakpoint.

(** Python's true division raises [ZeroDivisionError] on a zero divisor. *)
Definition py_div (a b : Q) : option Q :=
  if Qeq_bool b 0 then None else Some (a / b)%Q.

(** [max_slope = 1.0/sampler.properties["annealing_time_range"][0]] *)
Definition max_slope (annealing_time_min : Q) : option Q :=
  py_div 1 annealing_time_min.

(** Modelled from the spec: the input validation of the schedule builder,
    whose source is not among the sources.  The spec names validation as
    the builder's only failure without listing the checks; taken here are
    the ones the geometry needs: a target inside the anneal range [0, 1],
    a hold that does not run backwards, and ramps of positive slope. *)
Definition admissible (ramp_back_slope s_target hold_time ramp_up_slope : Q) : bool :=
  Qle_bool 0 s_target && Qle_bool s_target 1 && Qle_bool 0 hold_time
  && negb (Qle_bool ramp_back_slope 0) && negb (Qle_bool ramp_up_slope 0).

(** Modelled from the spec: [helpers/schedule.py], which defines
    [make_reverse_anneal_schedule], is not among the sources.  The spec
    describes the builder as a four-point geometry calculation without
    branching whose only failures are input validation, and the notebook
    describes its result as a list of [[time, s]] pairs that starts at
    [s = 1], reverses to [s_target], pauses there for [hold_time] and then
    anneals forward at [ramp_up_slope].  The slope of the reverse ramp is
    not passed by any call; it is the parameter [ramp_back_slope]. *)
Definition make_reverse_anneal_schedule
    (ramp_back_slope s_target hold_time ramp_up_slope : Q) : option schedule :=
  if admissible ramp_back_slope s_target hold_time ramp_up_slope then
    let ramp_time := ((1 - s_target) / ramp_back_slope)%Q in
    let ramp_up_time := ((1 - s_target) / ramp_up_slope)%Q in
    Some [ (0, 1);
           (ramp_time, s_target);
           (ramp_time + hold_time, s_target);
           (ramp_time + hold_time + ramp_up_time, 1) ]%Q
  else None.

(** [time_total = reverse_schedule[3][0]] *)
Definition time_total (reverse_schedule : schedule) : option Q :=
  fst <$> reverse_schedule !! 3.

(** [pause_schedule=[[0.0, 0.0], [50.0, 0.5],
                     [time_total-0.5/max_slope, 0.5], [time_total, 1.0]]] *)
Definition pause_schedule (time_total max_slope : Q) : option schedule :=
  d ← py_div 0.5 max_slope;
  Some [ (0.0, 0.0); (50.0, 0.5); (time_total - d, 0.5); (time_total, 1.0) ]%Q.

(** The cells in sequence: the solver's least annealing time gives
    [max_slope]; the reverse schedule for [s_target=0.45], [hold_time=80]
    gives [time_total]; both give the pause schedule. *)
Definition notebook_pause_schedule (ramp_back_slope annealing_time_min : Q)
  : option schedule :=
  ms ← max_slope annealing_time_min;
  rs ← make_reverse_anneal_schedule ramp_back_slope 0.45 80 ms;
  tt ← time_total rs;
  pause_schedule tt ms.

(** The parameter values the sweep and the exercise cells pass. *)
Definition s_target_vals : list Q :=
  [0.3; 0.45; 0.6; 0.75; 0.9; 0.95; 0.85; 0.65; 0.55; 0.35]%Q.
Definition hold_time_vals : list Q := [80; 10; 100; 40]%Q.

(** *** Reference notions *)

(** The breakpoint times strictly increase along the schedule. *)
Definition times_increasing (sch : schedule) : Prop :=
  ∀ i p q, sch !! i = Some p → sch !! S i = Some q → (p.1 < q.1)%Q.

(** The slope of the line segment between two breakpoints. *)
Definition segment_slope (p q : breakpoint) : option Q :=
  py_div (q.2 - p.2) (q.1 - p.1).

(** The slope of the last segment of a four-point schedule. *)
Definition final_ramp_slope (sch : schedule) : option Q :=
  p2 ← sch !! 2%nat; p3 ← sch !! 3%nat; segment_slope p2 p3.

(** *** The pause schedule in binary64 *)

(** The rational a finite binary64 value stands for. *)
Definition float_to_Q (f : float) : option Q :=
  match Prim2SF f with
  | S754_zero _ => Some 0%Q
  | S754_finite s m e =>
      let a := match e with
               | Z0 => inject_Z (Z.pos m)
               | Z.pos p => inject_Z (Z.shiftl (Z.pos m) (Z.pos p))
               | Z.neg p => (Z.pos m # (2 ^ p))%Q
               end in
      Some (if s then (- a)%Q else a)
  | S754_infinity _ | S754_nan => None
  end.

(** The pause schedule as the interpreter computes it: every operation
    rounds to binary64, and a zero divisor raises. *)
Definition pause_schedule_binary64 (time_total max_slope : float)
  : option (list (float * float)) :=
  if PrimFloat.eqb max_slope 0 then None
  else Some [ (0.0, 0.0); (50.0, 0.5);
              (PrimFloat.sub time_total (PrimFloat.div 0.5 max_slope), 0.5);
              (time_total, 1.0) ]%float.

(** The schedule the solver receives: the rational each coordinate stands
    for. *)
Definition schedule_of_binary64 (sch : list (float * float)) : option schedule :=
  mapM (λ p, t ← float_to_Q p.1; s ← float_to_Q p.2; Some (t, s)) sch.

(** The binary64 value nearest to 83.3. *)
Definition time_83_3 : float := 0x1.4d33333333333p+6%float.

(** No segment of the schedule rises faster than [ms]. *)
Definition slopes_within (ms : Q) (sch : schedule) : Prop :=
  ∀ i p q, sch !! i = Some p → sch !! S i = Some q →
           (q.2 - p.2 <= ms * (q.1 - p.1))%Q.

End Schedule.

(** ** The initial state of a reverse anneal *)

Module Initial.
Import Stats.

(** [int(x)] on a float truncates toward zero. *)
Definition py_int (x : Q) : Z := Z.quot (Qnum x) (Z.pos (Qden x)).

(** [i5 = int(5.0/95*len(forward_answer))] *)
Definition i5 (forward_answer : SampleSet) : Z :=
  py_int (5 / 95 * inject_Z (Z.of_nat (len forward_answer)))%Q.

(** Indexing a sequence by an integer: a negative index counts from the
    end, and an index outside the sequence raises [IndexError]. *)
Definition py_index {A} (l : list A) (i : Z) : option A :=
  if (0 <=? i)%Z then l !! Z.to_nat i
  else if (- Z.of_nat (length l) <=? i)%Z then l !! Z.to_nat (Z.of_nat (length l) + i)
  else None.

(** [dict(pairs)]: a later pair with the same key replaces an earlier one. *)
Definition py_dict (pairs : list (Z * Z)) : gmap Z Z :=
  list_to_map (reverse pairs).

(** [initial = dict(zip(forward_answer.variables,
                        forward_answer.record[i5].sample))] *)
Definition initial (forward_answer : SampleSet) : option (gmap Z Z) :=
  r ← py_index (record forward_answer) (i5 forward_answer);
  Some (py_dict (zip (variables forward_answer) (sample r))).

(** [int(f)] on a binary64 value: the integer part, toward zero; an
    infinity or a NaN raises. *)
Definition float_to_Z (f : float) : option Z :=
  match Prim2SF f with
  | S754_zero _ => Some 0%Z
  | S754_finite s m e =>
      let a := match e with
               | Z0 => Z.pos m
               | Z.pos p => Z.shiftl (Z.pos m) (Z.pos p)
               | Z.neg p => Z.shiftr (Z.pos m) (Z.pos p)
               end in
      Some (if s then (- a)%Z else a)
  | S754_infinity _ | S754_nan => None
  end.

(** The same expression, [int(5.0/95*n)], in binary64 arithmetic. *)
Definition i5_binary64 (n : nat) : option Z :=
  float_to_Z (PrimFloat.mul (PrimFloat.div 5%float 95%float)
                (PrimFloat.of_uint63 (Uint63.of_Z (Z.of_nat n)))).

(** A histogram-mode answer of twenty records. *)
Definition forward_answer_20 : SampleSet :=
  MkSampleSet [0; 1]%Z
    (replicate 19 (SampleRecord [-1; -1]%Z (-2) 50)
     ++ [SampleRecord [1; -1]%Z 0 50]).

(** [forward_answer.record.energy[i5]], the energy printed for the initial
    state. *)
Definition initial_energy (forward_answer : SampleSet) : option Q :=
  py_index (record_energy forward_answer) (i5 forward_answer).

(** The initial state [forward_answer_20] gives. *)
Definition initial_20 : gmap Z Z := default ∅ (initial forward_answer_20).

End Initial.

(** ** Flipping bits of a sample held in the object store *)

Module Flip.

(** A Python variable holds a reference into the store of objects; the
    objects of interest are dicts from qubit index to spin. *)
Abbreviation ref := positive.
Abbreviation store := (gmap ref (gmap Z Z)).

(** [{bit: -sample[bit] for bit in spin_bits}]: the bits are visited in
    iteration order; reading a bit the sample lacks raises [KeyError]. *)
Fixpoint negated_entries (sample : gmap Z Z) (spin_bits : list Z)
    (acc : gmap Z Z) : option (gmap Z Z) :=
  match spin_bits with
  | [] => Some acc
  | bit :: rest =>
      v ← sample !! bit;
      negated_entries sample rest (<[bit := (- v)%Z]> acc)
  end.

(** [d.update(other)]: the entries of [other] replace or extend those of
    [d]. *)
Definition dict_update (d other : gmap Z Z) : gmap Z Z := other ∪ d.

(** [def flip_bits(sample, spin_bits)]: the comprehension is evaluated on
    the dict as it is, then the dict behind [sample] is updated and the
    reference itself is returned. *)
Definition flip_bits (sample : ref) (spin_bits : list Z) (σ : store)
  : option (ref * store) :=
  d ← σ !! sample;
  other ← negated_entries d spin_bits ∅;
  Some (sample, <[sample := dict_update d other]> σ).

(** [dict(d)]: a new object with the entries of [d]. *)
Definition dict_copy (src : ref) (σ : store) : option (ref * store) :=
  d ← σ !! src;
  let l := fresh (dom σ) in
  Some (l, <[l := d]> σ).

(** [ground_state = {s_i:-1 for s_i in range(16)}] *)
Definition ground_state : gmap Z Z :=
  list_to_map ((λ s_i, (Z.of_nat s_i, (-1)%Z)) <$> seq 0 16).

(** [initial = flip_bits(dict(ground_state), spin_bits)], with
    [ground_state] stored at [gs]. *)
Definition initial (gs : ref) (spin_bits : list Z) (σ : store)
  : option (ref * store) :=
  '(l, σ1) ← dict_copy gs σ;
  flip_bits l spin_bits σ1.

(** *** Reference notions *)

(** The number of variables on which two assignments differ. *)
Definition dict_hamming (d1 d2 : gmap Z Z) : nat :=
  size (filter (λ k, d1 !! k ≠ d2 !! k) (dom d1 ∪ dom d2)).

(** *** Stores to evaluate on *)

Definition ground_store : store := {[ 1%positive := ground_state ]}.
Definition six_bits : gset Z := {[ 1; 4; 7; 10; 12; 15 ]}%Z.
Definition one_spin_store : store := {[ 1%positive := {[ 0%Z := (-1)%Z ]} ]}.
Definition zero_entry_store : store := {[ 1%positive := {[ 0%Z := 0%Z ]} ]}.

(** Two objects: the ground state and an unrelated dict. *)
Definition two_dicts_store : store :=
  {[ 1%positive := ground_state; 2%positive := {[ 0%Z := 1%Z ]} ]}.

End Flip.

(** ** The cells that talk to the solver *)

Module Notebook.
Import Stats Schedule.

(** The exceptions a cell can end with.  The first three are raised inside
    the SDK; the others by the interpreter or by [answer.first]. *)
Inductive exn :=
  | SolverFailureError (msg : string)
  | InvalidScheduleError (msg : string)
  | EmbeddingError (msg : string)
  | NameError (name : string)
  | IndexError
  | ValueError (msg : string)
  | KeyError
  | ZeroDivisionError.

(** What evaluating an expression or a cell comes to. *)
Inductive result (A : Type) :=
  | Ok (a : A)
  | Raise (e : exn).
Arguments Ok {A} a.
Arguments Raise {A} e.

Inductive answer_mode := histogram | raw.

(** The keyword arguments of [sample_ising]. *)
Record sample_kwargs := SampleKwargs {
  num_reads : Z;
  annealing_time : option Q;
  anneal_schedule : option schedule;
  initial_state : option (gmap Z Z);
  reinitialize_state : option bool;
  mode : answer_mode
}.

Definition embedding : Type := gmap Z (list Z).

(** The SDK as the notebook uses it.  Every constructor and every call may
    raise; what it returns or raises is up to the SDK and the remote
    solver. *)
Class SDK := {
  Sampler : Type;
  Tiling : Type;
  Composite : Type;
  DWaveSampler : result Sampler;
  solver_name : Sampler → string;
  TilingComposite : Sampler → Z → Z → Z → result Tiling;
  num_tiles : Tiling → nat;
  embeddings : Tiling → list embedding;
  FixedEmbeddingComposite : Sampler → embedding → result Composite;
  sample_ising :
    Composite → gmap Z Q → gmap (Z * Z) Q → sample_kwargs → result SampleSet
}.

Section Cells.
Context `{SDK}.

(** The kernel between cells: what has been printed, and the global names
    the cells below bind ([None]: not defined). *)
Record kernel := Kernel {
  out : list string;
  sampler : option Sampler;
  tiled_sampler : option Tiling;
  sampler_embedded : option Composite;
  answer : option SampleSet;
  data : option (list analysis)
}.

(** The values earlier cells leave behind for the sampling cell. *)
Record globals := Globals {
  h : gmap Z Q;
  J : gmap (Z * Z) Q;
  time_total : Q;
  pause_schedule : schedule;
  reverse_schedule : schedule;
  initial : gmap Z Z;
  ground_energy : Q
}.

(** A cell runs against the kernel and ends normally or with an exception;
    the bindings made before the exception stay. *)
Definition NB (A : Type) : Type := kernel → result A * kernel.

Definition ret {A} (a : A) : NB A := λ k, (Ok a, k).
Definition raise {A} (e : exn) : NB A := λ k, (Raise e, k).
Definition bind {A B} (c : NB A) (f : A → NB B) : NB B :=
  λ k, match c k with
       | (Ok a, k') => f a k'
       | (Raise e, k') => (Raise e, k')
       end.
Definition call {A} (r : result A) : NB A := λ k, (r, k).

Notation "'let*' x ':=' c 'in' f" := (bind c (λ x, f))
  (at level 10, x name, c at level 100, f at level 200).
Notation "c ';;' f" := (bind c (λ _, f))
  (at level 100, f at level 200, right associativity).

(** [print(line)] *)
Definition print (line : string) : NB unit :=
  λ k, (Ok tt, Kernel (out k ++ [line]) (sampler k) (tiled_sampler k)
                 (sampler_embedded k) (answer k) (data k)).

(** Reading a global name: [NameError] when it is not defined. *)
Definition lookup_name {A} (name : string) (field : kernel → option A) : NB A :=
  λ k, match field k with
       | Some v => (Ok v, k)
       | None => (Raise (NameError name), k)
       end.

(** Assignments to global names. *)
Definition set_sampler (s : Sampler) : NB unit :=
  λ k, (Ok tt, Kernel (out k) (Some s) (tiled_sampler k)
                 (sampler_embedded k) (answer k) (data k)).
Definition set_tiled_sampler (t : Tiling) : NB unit :=
  λ k, (Ok tt, Kernel (out k) (sampler k) (Some t)
                 (sampler_embedded k) (answer k) (data k)).
Definition set_sampler_embedded (c : Composite) : NB unit :=
  λ k, (Ok tt, Kernel (out k) (sampler k) (tiled_sampler k)
                 (Some c) (answer k) (data k)).
Definition set_answer (a : SampleSet) : NB unit :=
  λ k, (Ok tt, Kernel (out k) (sampler k) (tiled_sampler k)
                 (sampler_embedded k) (Some a) (data k)).
Definition set_data (d : list analysis) : NB unit :=
  λ k, (Ok tt, Kernel (out k) (sampler k) (tiled_sampler k)
                 (sampler_embedded k) (answer k) (Some d)).

(** The keyword arguments of the three requests of the sampling cell. *)
Definition forward_kwargs (g : globals) : sample_kwargs :=
  SampleKwargs reads (Some (time_total g)) None None None raw.
Definition pause_kwargs (g : globals) : sample_kwargs :=
  SampleKwargs reads None (Some (pause_schedule g)) None None raw.
Definition reverse_kwargs (g : globals) : sample_kwargs :=
  SampleKwargs reads None (Some (reverse_schedule g)) (Some (initial g))
    (Some true) raw.

(** [seq[i]] for a non-negative literal index. *)
Definition index {A} (l : list A) (i : nat) : NB A :=
  match l !! i with
  | Some v => ret v
  | None => raise IndexError
  end.

(** [data.append(analyze(answer))]; [analyze] raises where [answer.first]
    does. *)
Definition append_analysis (g : globals) : NB unit :=
  let* a := lookup_name "answer" answer in
  let* d := lookup_name "data" data in
  match analyze (ground_energy g) a with
  | Some row => set_data (d ++ [row])
  | None => raise (ValueError "SampleSet is empty")
  end.

(** The connection cell. *)
Definition cell_connect : NB unit :=
  let* s := call DWaveSampler in
  set_sampler s;;
  print ("Connected to sampler " +:+ solver_name s).

(** The tiling cell. *)
Definition cell_tiling : NB unit :=
  let* s := lookup_name "sampler" sampler in
  let* t := call (TilingComposite s 1 2 4) in
  set_tiled_sampler t;;
  if decide (num_tiles t ≠ 0) then
    let* e := index (embeddings t) 0 in
    let* c := call (FixedEmbeddingComposite s e) in
    set_sampler_embedded c
  else
    print ("Unable to find two complete unit cells in QPU " +:+ solver_name s).

(** The sampling cell: the three requests, each analysed and stored. *)
Definition cell_sampling (g : globals) : NB unit :=
  set_data [];;
  (* standard forward annealing *)
  let* se := lookup_name "sampler_embedded" sampler_embedded in
  let* a := call (sample_ising se (h g) (J g) (forward_kwargs g)) in
  set_answer a;;
  print ("Obtained " +:+ pretty (len a) +:+ " samples from standard forward annealing");;
  append_analysis g;;
  (* forward annealing with a pause *)
  let* se := lookup_name "sampler_embedded" sampler_embedded in
  let* a := call (sample_ising se (h g) (J g) (pause_kwargs g)) in
  set_answer a;;
  print ("Obtained " +:+ pretty (len a) +:+ " samples from forward annealing with a pause");;
  append_analysis g;;
  (* reverse annealing *)
  let* se := lookup_name "sampler_embedded" sampler_embedded in
  let* a := call (sample_ising se (h g) (J g) (reverse_kwargs g)) in
  set_answer a;;
  print ("Obtained " +:+ pretty (len a) +:+ " samples from reverse annealing");;
  append_analysis g.

(** The kernel before any cell has run. *)
Definition fresh_kernel : kernel := Kernel [] None None None None None.

End Cells.

(** *** SDKs to evaluate on *)

(** An SDK whose solver is out of reach. *)
Definition unreachable_sdk : SDK := {|
  Sampler := unit; Tiling := unit; Composite := unit;
  DWaveSampler := Raise (SolverFailureError "connection refused");
  solver_name := λ _, "none";
  TilingComposite := λ _ _ _ _, Raise (SolverFailureError "connection refused");
  num_tiles := λ _, 0;
  embeddings := λ _, [];
  FixedEmbeddingComposite := λ _ _, Raise (EmbeddingError "no embedding found");
  sample_ising := λ _ _ _ _, Raise (SolverFailureError "connection refused")
|}.

(** An SDK whose QPU has no two complete unit cells side by side. *)
Definition no_tiles_sdk : SDK := {|
  Sampler := unit; Tiling := unit; Composite := unit;
  DWaveSampler := Ok tt;
  solver_name := λ _, "qpu";
  TilingComposite := λ _ _ _ _, Ok tt;
  num_tiles := λ _, 0;
  embeddings := λ _, [];
  FixedEmbeddingComposite := λ _ _, Raise (EmbeddingError "no embedding found");
  sample_ising := λ _ _ _ _, Raise (InvalidScheduleError "invalid anneal schedule")
|}.

(** The kernel after the connection cell has run against [no_tiles_sdk]. *)
Definition connected_kernel : kernel (H := no_tiles_sdk) :=
  (cell_connect (H := no_tiles_sdk) fresh_kernel).2.

(** Placeholder values for the globals of the sampling cell. *)
Definition empty_globals : globals := Globals ∅ ∅ 0 [] [] ∅ 0.

(** An SDK that answers every request with [raw_answer]. *)
Definition answering_sdk : SDK := {|
  Sampler := unit; Tiling := unit; Composite := unit;
  DWaveSampler := Ok tt;
  solver_name := λ _, "qpu";
  TilingComposite := λ _ _ _ _, Ok tt;
  num_tiles := λ _, 1;
  embeddings := λ _, [∅];
  FixedEmbeddingComposite := λ _ _, Ok tt;
  sample_ising := λ _ _ _ _, Ok raw_answer
|}.

(** The kernel once the connection and tiling cells have run against it. *)
Definition embedded_kernel : kernel (H := answering_sdk) :=
  (cell_tiling (H := answering_sdk)
     (cell_connect (H := answering_sdk) fresh_kernel).2).2.

(** A kernel with a composite already bound, for [unreachable_sdk]. *)
Definition stale_kernel : kernel (H := unreachable_sdk) :=
  Kernel (H := unreachable_sdk) [] None None (Some tt) None None.

End Notebook.

(** ** The parameter sweep cell *)

Module Sweep.
Import Stats Schedule Notebook.

(** [itertools.product(xs, ys)]: every pair, the second component running
    fastest. *)
Definition itertools_product {A B} (xs : list A) (ys : list B) : list (A * B) :=
  x ← xs; (λ y, (x, y)) <$> ys.

(** One row of [data_rows]: the dict with keys [s_target], [hold_time],
    [energy_stdev] (held as its square, the variance), [energy_mean] and
    [distance_mean]; [None] is [nan]. *)
Record sweep_row := SweepRow {
  row_s_target : Q;
  row_hold_time : Q;
  row_energy_variance : option Q;
  row_energy_mean : option Q;
  row_distance_mean : option Q
}.

(** What the sweep cell uses and this file does not define: the schedule
    builder of [helpers/schedule.py], which may reject its arguments, the
    [info['timing']['qpu_access_time']] entry of an answer, and the text
    [format] puts for a number. *)
Class Helpers := {
  build_schedule : Q → Q → Q → result schedule;
  qpu_access_time : SampleSet → Q;
  str : Q → string
}.

Section SweepCell.
Context `{SDK} `{Helpers}.

Notation "'let*' x ':=' c 'in' f" := (bind c (λ x, f))
  (at level 10, x name, c at level 100, f at level 200).
Notation "c ';;' f" := (bind c (λ _, f))
  (at level 100, f at level 200, right associativity).

(** A [for] loop over a list, the loop variables threaded through. *)
Fixpoint for_each {A S} (xs : list A) (body : A → S → NB S) (st : S) : NB S :=
  match xs with
  | [] => ret st
  | x :: xs' => let* st' := body x st in for_each xs' body st'
  end.

(** The keyword arguments of a request of the sweep. *)
Definition sweep_kwargs (schedule : schedule) (initial : gmap Z Z) : sample_kwargs :=
  SampleKwargs 1000 None (Some schedule) (Some initial) (Some true) raw.

(** The row built from an answer. *)
Definition row_of (p : Q * Q) (modulating_answer : SampleSet) : sweep_row :=
  let modulating_solutions := record_sample modulating_answer in
  let modulating_energies := record_energy modulating_answer in
  let modulating_distances := Hamming.get_hamming_distances modulating_solutions in
  SweepRow p.1 p.2
    (np_var modulating_energies)
    (np_mean modulating_energies)
    (np_mean ((λ d, inject_Z (Z.of_nat d)) <$> modulating_distances)).

(** The body of the loop, on the loop variables [(data_rows, QPU_time)]. *)
Definition sweep_body (g : globals) (max_slope : Q) (p : Q * Q)
    (st : list sweep_row * Q) : NB (list sweep_row * Q) :=
  print ("Running reverse anneals with s_target=" +:+ str p.1
         +:+ " and hold_time=" +:+ str p.2 +:+ " us");;
  let* schedule := call (build_schedule p.1 p.2 max_slope) in
  let* se := lookup_name "sampler_embedded" sampler_embedded in
  let* modulating_answer :=
    call (sample_ising se (h g) (J g) (sweep_kwargs schedule (initial g))) in
  ret (st.1 ++ [row_of p modulating_answer],
       (st.2 + qpu_access_time modulating_answer)%Q).

(** The sweep cell: the loop over [itertools.product(s_target_vals,
    hold_time_vals)] from [data_rows = list()], [QPU_time = 0.0], then the
    closing line.  The cell leaves [data_rows] and [QPU_time] as globals;
    here they are the value of the computation. *)
Definition cell_sweep (g : globals) (max_slope : Q)
    (s_target_vals hold_time_vals : list Q) : NB (list sweep_row * Q) :=
  let* st := for_each (itertools_product s_target_vals hold_time_vals)
               (sweep_body g max_slope) ([], 0%Q) in
  print ("QPU calls complete using " +:+ str (st.2 / 1000000)%Q
         +:+ " seconds of QPU time.");;
  ret st.

End SweepCell.

(** Helpers that accept every schedule request. *)
Definition plain_helpers : Helpers := {|
  build_schedule := λ s_target hold_time _, Ok [(0, 1); (hold_time, s_target)]%Q;
  qpu_access_time := λ _, 20000%Q;
  str := λ _, "_"
|}.

End Sweep.

(** ** Binary64 arithmetic *)

Module Binary64.
Import Schedule.

(** A finite binary64 value is the rational it stands for, and an
    operation of the interpreter on such values is the exact operation
    followed by rounding to the nearest binary64 value, a tie going to the
    even significand.  Results of magnitude [2 ^ 1024] and above, where the
    interpreter gives [inf], and the sign of zero are outside the model. *)

Local Open Scope Q_scope.

(** [floor(log2 |x|)] for [x] other than 0: the difference of the bit
    lengths of numerator and denominator, or one less. *)
Definition ilog2 (x : Q) : Z :=
  let k := (Z.log2 (Z.abs (Qnum x)) - Z.log2 (Z.pos (Qden x)))%Z in
  if Qle_bool (2 ^ k) (Qabs x) then k else (k - 1)%Z.

(** The exponent of the last place of [x]: 52 below the leading bit, and
    never below -1074, where the subnormal values lie. *)
Definition exponent (x : Q) : Z := Z.max (ilog2 x - 52) (-1074).

(** Rounding to binary64: the nearest multiple of [2 ^ exponent x], in
    lowest terms. *)
Definition binary64 (x : Q) : Q :=
  let e := exponent x in Qred (inject_Z (Stats.rint (x / 2 ^ e)) * 2 ^ e).

(** [sqrt] of a non-negative value, correctly rounded: the exponent of the
    root is half that of [v]; the significand is the integer square root
    of [v / 4 ^ e], moved up when [v / 4 ^ e] lies beyond the midpoint. *)
Definition sqrt_binary64 (v : Q) : Q :=
  let e := Z.max (ilog2 v / 2 - 52) (-1074) in
  let t := v / 2 ^ (2 * e) in
  let f := Z.sqrt (Qfloor t) in
  let h := inject_Z f + (1 # 2) in
  let m := match t ?= h * h with
           | Lt => f
           | Gt => (f + 1)%Z
           | Eq => if Z.even f then f else (f + 1)%Z
           end in
  Qred (inject_Z m * 2 ^ e).

Local Close Scope Q_scope.

(** *** Summation

    [np.add.reduce] over a one-dimensional array, as [sum], [mean] and
    [std] use it (numpy's pairwise summation): fewer than 8 elements are
    added to 0 in order; up to 128 elements are added into eight running
    sums, a block of eight at a time, the eight sums are added pairwise and
    the elements left over are added in order; a longer array is split in
    two, the first part a multiple of 8 long, and the two sums are added.
    The routine is written over any addition, and used with the binary64
    one. *)

Section Pairwise.
Context {A : Type} (add : A → A → A) (zero : A).

(** The elements added to [res] in order. *)
Definition seq_sum (res : A) (xs : list A) : A := foldl add res xs.

(** The unrolled loop: each block of eight elements is added, place by
    place, to the eight running sums [r]; what is left of [xs] when fewer
    than eight elements remain is returned with the sums. *)
Fixpoint add_blocks (r xs : list A) {struct xs} : list A * list A :=
  match xs with
  | x0 :: x1 :: x2 :: x3 :: x4 :: x5 :: x6 :: x7 :: rest =>
      add_blocks (zip_with add r [x0; x1; x2; x3; x4; x5; x6; x7]) rest
  | _ => (r, xs)
  end.

(** The sum of 8 to 128 elements: the running sums start as the first
    eight elements. *)
Definition unrolled_sum (xs : list A) : A :=
  match add_blocks (take 8 xs) (drop 8 xs) with
  | ([r0; r1; r2; r3; r4; r5; r6; r7], rest) =>
      seq_sum (add (add (add r0 r1) (add r2 r3)) (add (add r4 r5) (add r6 r7))) rest
  | _ => zero
  end.

(** The routine itself; [fuel] bounds the depth of the splitting, and the
    length of the array is enough. *)
Fixpoint pairwise_sum (fuel : nat) (xs : list A) : A :=
  let n := length xs in
  if decide (n < 8) then seq_sum zero xs
  else if decide (n ≤ 128) then unrolled_sum xs
  else match fuel with
       | O => zero
       | S fuel' =>
           let n2 := n / 2 - (n / 2) mod 8 in
           add (pairwise_sum fuel' (take n2 xs)) (pairwise_sum fuel' (drop n2 xs))
       end.
End Pairwise.

(** [np.add.reduce] of a float64 array. *)
Definition np_add_reduce (xs : list Q) : Q :=
  pairwise_sum (λ a b, binary64 (a + b)%Q) 0%Q (length xs) xs.

(** *** The kernel's binary64

    The rounding above against the floats of the kernel: on operands [a]
    and [b] the float operation and the rounded exact operation give the
    same number. *)
Definition agrees_with_kernel (a b : float) : bool :=
  match float_to_Q a, float_to_Q b,
        float_to_Q (PrimFloat.add a b), float_to_Q (PrimFloat.sub a b),
        float_to_Q (PrimFloat.mul a b), float_to_Q (PrimFloat.div a b),
        float_to_Q (PrimFloat.sqrt a) with
  | Some x, Some y, Some s, Some d, Some p, Some q, Some r =>
      Qeq_bool (binary64 (x + y)%Q) s && Qeq_bool (binary64 (x - y)%Q) d
      && Qeq_bool (binary64 (x * y)%Q) p && Qeq_bool (binary64 (x / y)%Q) q
      && Qeq_bool (sqrt_binary64 x) r
  | _, _, _, _, _, _, _ => false
  end.

Definition kernel_operands : list (float * float) :=
  [ (0x1.5666666666666p+1, 100); (93, 40); (23, 40); (1, 3); (2, 3);
    (0x1.999999999999ap-4, 0x1.999999999999ap-3);
    (0x1.4d33333333333p+6, 200); (5, 95); (3, 7); (1000, 19);
    (0x1p-1070, 0x1.8p-3); (0x1p-1074, 3); (0x1.fffffffffffffp+52, 0x1p-1);
    (0x1.fffffffffffffp+500, 0x1.fffffffffffffp+400);
    (0x1.0000000000001p+0, 0x1.0000000000001p+0);
    (0x1.8p+1, 0x1p-53); (0x1p+53, 1); (0x1.23456789abcdep-7, 0x1.edcba98765432p+9) ]%float.

End Binary64.

(** ** The statistics as the interpreter computes them *)

Module FloatStats.
Import Stats Schedule Binary64.

Local Open Scope Q_scope.

(** [round(x, 2)] on a float64 scalar: numpy multiplies by 100, takes
    [rint] and divides by 100, each in binary64. *)
Definition round2_binary64 (x : Q) : Q :=
  binary64 (inject_Z (rint (binary64 (x * 100))) / 100).

(** [arr.mean()]: the rounded sum divided by the length; [nan], rendered
    [None], on an empty array. *)
Definition np_mean_binary64 (xs : list Q) : option Q :=
  match xs with
  | [] => None
  | _ => Some (binary64 (np_add_reduce xs / inject_Z (Z.of_nat (length xs))))
  end.

(** [arr.var()]: the mean of the squared deviations from the mean
    ([ddof = 0]), every subtraction and product rounded; [arr.std()] is
    its square root. *)
Definition np_var_binary64 (xs : list Q) : option Q :=
  arrmean ← np_mean_binary64 xs;
  np_mean_binary64
    ((λ x, binary64 (binary64 (x - arrmean) * binary64 (x - arrmean))) <$> xs).
Definition np_std_binary64 (xs : list Q) : option Q :=
  sqrt_binary64 <$> np_var_binary64 xs.

(** The number ['{:.2f}'.format(x)] writes: the value of [x] rounded to
    two decimals, a tie going to the even digit. *)
Definition format_2f (x : Q) : Q := inject_Z (rint (x * 100)) / 100.

(** [def analyze(answer)] with every float operation rounded. *)
Definition analyze_binary64 (ground_energy : Q) (answer : SampleSet) : option analysis :=
  let solutions := record_sample answer in
  let energies := record_energy answer in
  best ← first answer;
  let energy_best := round2_binary64 (energy best) in
  let ratio :=
    binary64 (inject_Z (Z.of_nat (list_count ground_energy (record_energy answer)))
              / inject_Z reads) in
  let hamming_distances := Hamming.get_hamming_distances solutions in
  mu ← np_mean_binary64 energies;
  let energy_mean := round2_binary64 mu in
  let hamming_mean :=
    round2_binary64
      <$> np_mean_binary64 ((λ d, inject_Z (Z.of_nat d)) <$> hamming_distances) in
  Some (MkAnalysis solutions energies hamming_distances energy_best ratio
          energy_mean hamming_mean).

(** The statistics the cells of section 2 print after a request:
    ['{:.2f}'.format(energies.mean())] and
    ['{:.2f}'.format(energies.std())]. *)
Definition average_energy (answer : SampleSet) : option Q :=
  format_2f <$> np_mean_binary64 (record_energy answer).
Definition energy_stdev (answer : SampleSet) : option Q :=
  format_2f <$> np_std_binary64 (record_energy answer).

(** *** Reference notions *)

(** The value is a whole number. *)
Definition integral (x : Q) : Prop := ∃ z : Z, x == inject_Z z.

(** *** [round(x, 2)] on the kernel's floats *)

(** The float of a whole number below [2 ^ 63] in magnitude. *)
Definition float_of_Z (z : Z) : float :=
  if (z <? 0)%Z then PrimFloat.opp (PrimFloat.of_uint63 (Uint63.of_Z (- z)))
  else PrimFloat.of_uint63 (Uint63.of_Z z).

(** [round(x, 2)] with the product and the quotient taken by the kernel. *)
Definition round2_kernel (x : float) : option Q :=
  y ← float_to_Q (PrimFloat.mul x 100);
  float_to_Q (PrimFloat.div (float_of_Z (rint y)) 100).

(** Whether the two readings of [round(x, 2)] agree on [x]. *)
Definition round2_agrees (x : float) : bool :=
  match float_to_Q x, round2_kernel x with
  | Some q, Some r => Qeq_bool (round2_binary64 q) r
  | _, _ => false
  end.

(** Energies to round: 2.675, -2.125, -93/40, 23/40, 0.29, -34, and a
    large and a small one. *)
Definition round2_operands : list float :=
  [ 0x1.5666666666666p+1; -0x1.1p+1; -0x1.299999999999ap+1;
    0x1.2666666666666p-1; 0x1.28f5c28f5c28fp-2; -0x1.1p+5;
    0x1.2a05f2001p+33; 0x1.47ae147ae147bp-7 ]%float.

End FloatStats.

(** ** The other cells that call the SDK *)

Module Requests.
Import Stats Schedule Notebook Sweep FloatStats.

(** What the cells above do not use of the SDK: the entries
    ["max_anneal_schedule_points"] and ["annealing_time_range"] of
    [sampler.properties], [sampler.nodelist] and [sampler.edgelist], a
    request sent to the sampler itself rather than to the embedded
    composite, and [dimod.ising_energy].  Each may raise. *)
Class Direct `{SDK} := {
  max_anneal_schedule_points : Sampler → result Z;
  annealing_time_range : Sampler → result (list Q);
  nodelist : Sampler → result (list Z);
  edgelist : Sampler → result (list (Z * Z));
  sampler_sample_ising :
    Sampler → gmap Z Q → gmap (Z * Z) Q → sample_kwargs → result SampleSet;
  ising_energy : gmap Z Z → gmap Z Q → gmap (Z * Z) Q → result Q
}.

(** The texts [print] and [format] put for the values that are not plain
    numbers: a number with two decimals (['{:.2f}'], [None] being [nan]),
    a list of numbers, a row of spins, and a schedule. *)
Class Formats := {
  str_2f : option Q → string;
  str_range : list Q → string;
  str_sample : list Z → string;
  str_schedule : schedule → string
}.

Section RequestCells.
Context {sdk : SDK} {direct : Direct} {helpers : Helpers} {formats : Formats}.

Notation "'let*' x ':=' c 'in' f" := (bind c (λ x, f))
  (at level 10, x name, c at level 100, f at level 200).
Notation "c ';;' f" := (bind c (λ _, f))
  (at level 100, f at level 200, right associativity).

(** An optional value, [None] raising [e]. *)
Definition or_raise {A} (e : exn) (o : option A) : NB A :=
  match o with
  | Some v => ret v
  | None => raise e
  end.

(** The properties cell.  It binds [max_slope], the value of the
    computation. *)
Definition cell_properties : NB Q :=
  let* s := lookup_name "sampler" sampler in
  let* points := call (max_anneal_schedule_points s) in
  print ("Maximum anneal-schedule points: " +:+ pretty points);;
  let* range := call (annealing_time_range s) in
  print ("Annealing time range: " +:+ str_range range);;
  let* range := call (annealing_time_range s) in
  let* annealing_time_min := index range 0 in
  let* max_slope := or_raise ZeroDivisionError (max_slope annealing_time_min) in
  print ("Maximum slope allowed on this solver is "
         +:+ str_2f (Some (format_2f max_slope)) +:+ ".");;
  ret max_slope.

(** The cell that sets the problem on the whole QPU: bias 0 on every
    qubit, and on the [i]-th coupler the strength [choice i], the value
    [np.random.choice([-1, 1])] returns for it.  It binds [h] and [J]. *)
Definition cell_problem (choice : nat → Q) : NB (gmap Z Q * gmap (Z * Z) Q) :=
  let* s := lookup_name "sampler" sampler in
  let* nodes := call (nodelist s) in
  let h : gmap Z Q := list_to_map (reverse ((λ v, (v, 0%Q)) <$> nodes)) in
  let* edges := call (edgelist s) in
  let J : gmap (Z * Z) Q := list_to_map (reverse (imap (λ i c, (c, choice i)) edges)) in
  print ("Bias 0 assigned to " +:+ pretty (size h) +:+ " qubits.");;
  print ("Strengths -1/+1 assigned randomly to " +:+ pretty (size J) +:+ " couplers.");;
  ret (h, J).

(** The schedule cell: the reverse schedule from the helper, and its total
    time.  The cell binds [reverse_schedule] and [time_total]; here they
    are the value of the computation. *)
Definition cell_schedule (max_slope : Q) : NB (schedule * Q) :=
  let* reverse_schedule := call (build_schedule 0.45 80 max_slope) in
  let* p := index reverse_schedule 3 in
  let time_total := p.1 in
  print (str_schedule reverse_schedule);;
  print ("Total anneal-schedule time is " +:+ str time_total +:+ " us");;
  ret (reverse_schedule, time_total).

(** The keyword arguments of the forward and the reverse request of
    section 2, both sent to [sampler] in histogram mode. *)
Definition forward_request (g : globals) : sample_kwargs :=
  SampleKwargs 1000 (Some (time_total g)) None None None histogram.
Definition reverse_request (g : globals) : sample_kwargs :=
  SampleKwargs 1000 None (Some (reverse_schedule g)) (Some (initial g))
    (Some false) histogram.

(** The forward-anneal cell.  It binds [forward_answer], [i5] and
    [initial], the value of the computation. *)
Definition cell_forward (g : globals) : NB (SampleSet * Z * gmap Z Z) :=
  let* s := lookup_name "sampler" sampler in
  let* forward_answer :=
    call (sampler_sample_ising s (h g) (J g) (forward_request g)) in
  let forward_energies := record_energy forward_answer in
  let i5 := Initial.i5 forward_answer in
  let* initial := or_raise IndexError (Initial.initial forward_answer) in
  let* e0 := index forward_energies 0 in
  print ("Lowest energy found: " +:+ str e0);;
  print ("Average energy is " +:+ str_2f (average_energy forward_answer)
         +:+ " with standard deviation " +:+ str_2f (energy_stdev forward_answer));;
  let* ei := or_raise IndexError (Initial.initial_energy forward_answer) in
  print "";;
  print ("Setting the initial state to a sample with energy: " +:+ str ei);;
  ret (forward_answer, i5, initial).

(** The reverse-anneal cell. *)
Definition cell_reverse (g : globals) : NB SampleSet :=
  let* s := lookup_name "sampler" sampler in
  let* reverse_answer :=
    call (sampler_sample_ising s (h g) (J g) (reverse_request g)) in
  let* e0 := index (record_energy reverse_answer) 0 in
  print ("Lowest energy found: " +:+ str e0);;
  print ("Average energy is " +:+ str_2f (average_energy reverse_answer)
         +:+ " with standard deviation " +:+ str_2f (energy_stdev reverse_answer));;
  ret reverse_answer.

(** The ground-state cell; [random_sample] is the sample the cell draws
    with [random.randint].  It binds [ground_energy]. *)
Definition cell_ground_state (g : globals) (random_sample : gmap Z Z) : NB Q :=
  let* ground_energy := call (ising_energy Flip.ground_state (h g) (J g)) in
  print ("Energy of the global minimum: " +:+ str ground_energy);;
  let* e := call (ising_energy random_sample (h g) (J g)) in
  print ("Energy of a random sample: " +:+ str e);;
  ret ground_energy.

(** [flip_bits(dict(ground_state), spin_bits)] as a value: the dict the
    returned reference points to. *)
Definition flipped_ground_state (spin_bits : gset Z) : option (gmap Z Z) :=
  '(l, σ) ← Flip.initial 1 (elements spin_bits) Flip.ground_store;
  σ !! l.

(** The cell that defines [flip_bits] and the initial state six bits away
    from the ground state. *)
Definition cell_initial (g : globals) : NB (gmap Z Z) :=
  let* initial := or_raise KeyError (flipped_ground_state Flip.six_bits) in
  let* e := call (ising_energy initial (h g) (J g)) in
  print ("Energy of initial state: " +:+ str e);;
  ret initial.

(** The exercise cell, with [x, y = 5, 0]; its plotting statements draw a
    figure and are left out. *)
Definition exercise_request (schedule : schedule) (initial : gmap Z Z) : sample_kwargs :=
  SampleKwargs 1000 None (Some schedule) (Some initial) (Some true) histogram.

Definition nine_bits : gset Z := {[ 1; 2; 5; 6; 9; 10; 13; 14; 15 ]}%Z.

Definition cell_exercise (g : globals) (max_slope : Q) : NB (SampleSet * Q) :=
  let* initial := or_raise KeyError (flipped_ground_state nine_bits) in
  let s_target_vals := [0.95; 0.85; 0.75; 0.65; 0.55; 0.45; 0.35]%Q in
  let hold_time_vals := [40; 100]%Q in
  let* s_target := index s_target_vals 5 in
  let* hold_time := index hold_time_vals 0 in
  let* schedule := call (build_schedule s_target hold_time max_slope) in
  print (str_schedule schedule);;
  let* se := lookup_name "sampler_embedded" sampler_embedded in
  let* reverse_answer :=
    call (sample_ising se (h g) (J g) (exercise_request schedule initial)) in
  print ("s_target = " +:+ str s_target +:+ " and hold_time = " +:+ str hold_time
         +:+ " us");;
  let* s0 := index (record_sample reverse_answer) 0 in
  let* e0 := index (record_energy reverse_answer) 0 in
  print ("Solution = " +:+ str_sample s0 +:+ " and Energy = " +:+ str e0);;
  let* ratio := or_raise IndexError (exercise_ratio (ground_energy g) reverse_answer) in
  print ("Ratio of global minimum to other samples is " +:+ str ratio);;
  ret (reverse_answer, ratio).

End RequestCells.

(** *** SDKs and texts to evaluate on *)

(** The direct calls of [unreachable_sdk] and of [no_tiles_sdk], and
    texts to print. *)
Definition unreachable_direct : Direct (H := unreachable_sdk) := {|
  max_anneal_schedule_points := λ _, Raise (SolverFailureError "connection refused");
  annealing_time_range := λ _, Raise (SolverFailureError "connection refused");
  nodelist := λ _, Raise (SolverFailureError "connection refused");
  edgelist := λ _, Raise (SolverFailureError "connection refused");
  sampler_sample_ising := λ _ _ _ _, Raise (SolverFailureError "connection refused");
  ising_energy := λ _ _ _, Raise (ValueError "missing variable")
|}.
Definition no_tiles_direct : Direct (H := no_tiles_sdk) := {|
  max_anneal_schedule_points := λ _, Ok 12%Z;
  annealing_time_range := λ _, Ok [0.5; 2000]%Q;
  nodelist := λ _, Ok [0; 1]%Z;
  edgelist := λ _, Ok [(0, 1)]%Z;
  sampler_sample_ising := λ _ _ _ _, Raise (InvalidScheduleError "invalid anneal schedule");
  ising_energy := λ _ _ _, Ok 0%Q
|}.
Definition plain_formats : Formats := {|
  str_2f := λ _, "_"; str_range := λ _, "_"; str_sample := λ _, "_";
  str_schedule := λ _, "_"
|}.
(** A kernel with [sampler] bound, for [unreachable_sdk]. *)
Definition lost_kernel : kernel (H := unreachable_sdk) :=
  Kernel (H := unreachable_sdk) [] (Some tt) None None None None.

End Requests.

(** * Properties of the embedded code *)

(** ** Hamming distances *)

Module HammingFacts.
Import Hamming.

Lemma differing_positions_cons a b x y :
  differing_positions (a :: x) (b :: y) =
  Nat.b2n (bool_decide (a ≠ b)) + differing_positions x y.
Proof.
  unfold differing_positions. cbn [length seq].
  rewrite filter_cons. cbn [lookup list_lookup].
  rewrite <- fmap_S_seq.
  assert (Htl : length (filter (λ j, (a :: x) !! j ≠ (b :: y) !! j) (S <$> seq 0 (length x)))
                = length (filter (λ j, x !! j ≠ y !! j) (seq 0 (length x)))).
  { generalize (seq 0 (length x)) as js.
    induction js as [|j js IH]; [done|].
    rewrite fmap_cons, !filter_cons. cbn [lookup list_lookup].
    destruct (decide (x !! j ≠ y !! j)); cbn; rewrite IH; done. }
  destruct (decide (Some a ≠ Some b)) as [Hne|Heq].
  - rewrite bool_decide_true by congruence. cbn. by rewrite Htl.
  - rewrite bool_decide_false by (intros Hab; apply Heq; congruence).
    cbn. by rewrite Htl.
Qed.

Lemma get_hamming_distance_counts x y :
  length x = length y →
  get_hamming_distance x y = differing_positions x y.
Proof.
  revert y. induction x as [|a x IH]; intros [|b y] Hlen; try done.
  rewrite differing_positions_cons.
  unfold get_hamming_distance, np_not_equal in *. cbn.
  f_equal. apply IH. by inversion Hlen.
Qed.

Lemma length_get_hamming_distances sols :
  length (get_hamming_distances sols) = length sols - 1.
Proof.
  unfold get_hamming_distances.
  rewrite length_fmap, length_zip, length_drop. lia.
Qed.

Lemma lookup_get_hamming_distances sols i x y :
  sols !! i = Some x → sols !! S i = Some y →
  get_hamming_distances sols !! i = Some (get_hamming_distance x y).
Proof.
  intros Hx Hy. unfold get_hamming_distances.
  rewrite list_lookup_fmap.
  assert (Hz : zip sols (drop 1 sols) !! i = Some (x, y)).
  { apply lookup_zip_with_Some. exists x, y. split_and!; [done|done|].
    rewrite lookup_drop. by replace (1 + i) with (S i) by lia. }
  by rewrite Hz.
Qed.

(** C1: for a sample array of [n >= 1] rows, [get_hamming_distances]
    returns [n - 1] values, and the value at index [i] is the number of
    variable positions at which rows [i] and [i + 1] differ. *)
Theorem get_hamming_distances_consecutive (sols : list (list Z)) (w : nat) :
  sols ≠ [] → rows_of_width w sols →
  length (get_hamming_distances sols) = length sols - 1 ∧
  ∀ i x y, sols !! i = Some x → sols !! S i = Some y →
           get_hamming_distances sols !! i = Some (differing_positions x y).
Proof.
  intros _ Hw. split; [apply length_get_hamming_distances|].
  intros i x y Hx Hy.
  rewrite (lookup_get_hamming_distances _ _ _ _ Hx Hy). f_equal.
  apply get_hamming_distance_counts.
  unfold rows_of_width in Hw. rewrite Forall_lookup in Hw.
  by rewrite (Hw _ _ Hx), (Hw _ _ Hy).
Qed.

Lemma get_hamming_distances_consecutive_witness :
  three_reads ≠ [] ∧ rows_of_width 3 three_reads ∧
  get_hamming_distances three_reads = [2; 0] ∧
  (length (get_hamming_distances three_reads) = length three_reads - 1 ∧
   ∀ i x y, three_reads !! i = Some x → three_reads !! S i = Some y →
            get_hamming_distances three_reads !! i
            = Some (differing_positions x y)).
Proof.
  assert (Hne : three_reads ≠ []) by discriminate.
  assert (Hw : rows_of_width 3 three_reads) by (repeat constructor).
  split; [exact Hne|]. split; [exact Hw|]. split; [reflexivity|].
  exact (get_hamming_distances_consecutive three_reads 3 Hne Hw).
Defined.


(** *** The distance as a metric *)

Lemma get_hamming_distance_cons a b x y :
  get_hamming_distance (a :: x) (b :: y)
  = Nat.b2n (bool_decide (a ≠ b)) + get_hamming_distance x y.
Proof. reflexivity. Qed.

Lemma get_hamming_distance_sym x y :
  get_hamming_distance x y = get_hamming_distance y x.
Proof.
  revert y. induction x as [|a x IH]; intros [|b y]; try done.
  rewrite !get_hamming_distance_cons, IH. f_equal.
  destruct (decide (a = b)) as [->|Hne]; [done|].
  rewrite !bool_decide_true by congruence. done.
Qed.

Lemma get_hamming_distance_le x y :
  get_hamming_distance x y ≤ length x.
Proof.
  revert y. induction x as [|a x IH]; intros [|b y]; cbn [length]; try (cbn; lia).
  rewrite get_hamming_distance_cons. specialize (IH y).
  destruct (bool_decide (a ≠ b)); cbn; lia.
Qed.

Lemma get_hamming_distance_zero x y :
  length x = length y → get_hamming_distance x y = 0 ↔ x = y.
Proof.
  revert y. induction x as [|a x IH]; intros [|b y] Hlen; try done.
  rewrite get_hamming_distance_cons. injection Hlen as Hlen.
  specialize (IH y Hlen). split.
  - intros Hz. destruct (decide (a = b)) as [->|Hne].
    + f_equal. apply IH. rewrite bool_decide_false in Hz by tauto. exact Hz.
    + rewrite bool_decide_true in Hz by done. cbn in Hz. lia.
  - intros [= -> ->]. rewrite bool_decide_false by tauto. cbn. by apply IH.
Qed.

Lemma get_hamming_distance_triangle x y z :
  length x = length y → length y = length z →
  get_hamming_distance x z ≤ get_hamming_distance x y + get_hamming_distance y z.
Proof.
  revert y z. induction x as [|a x IH]; intros [|b y] [|c z] Hxy Hyz; try done.
  rewrite !get_hamming_distance_cons.
  injection Hxy as Hxy. injection Hyz as Hyz. specialize (IH y z Hxy Hyz).
  destruct (decide (a = c)) as [->|Hac].
  - rewrite (bool_decide_false (c ≠ c)) by tauto. cbn. lia.
  - rewrite (bool_decide_true (a ≠ c)) by done.
    destruct (decide (a = b)) as [->|Hab].
    + rewrite (bool_decide_true (b ≠ c)) by done. cbn. lia.
    + rewrite (bool_decide_true (a ≠ b)) by done. cbn. lia.
Qed.

(** X1: on rows of one width [get_hamming_distance] is a metric: zero
    exactly on equal rows, symmetric, subject to the triangle inequality;
    and it never exceeds the width. *)
Theorem get_hamming_distance_metric (x y z : list Z) :
  length x = length y → length y = length z →
  (get_hamming_distance x y = 0 ↔ x = y) ∧
  get_hamming_distance x y = get_hamming_distance y x ∧
  get_hamming_distance x z ≤ get_hamming_distance x y + get_hamming_distance y z ∧
  get_hamming_distance x y ≤ length x.
Proof.
  intros Hxy Hyz. split_and!.
  - by apply get_hamming_distance_zero.
  - apply get_hamming_distance_sym.
  - by apply get_hamming_distance_triangle.
  - apply get_hamming_distance_le.
Qed.

Lemma get_hamming_distances_cons2 x y sols :
  get_hamming_distances (x :: y :: sols)
  = get_hamming_distance x y :: get_hamming_distances (y :: sols).
Proof. reflexivity. Qed.

Lemma get_hamming_distances_bounded (sols : list (list Z)) (w : nat) :
  rows_of_width w sols → Forall (λ d, d ≤ w) (get_hamming_distances sols).
Proof.
  intros Hw. induction sols as [|a [|b sols] IH]; [constructor..|].
  rewrite get_hamming_distances_cons2.
  apply Forall_cons in Hw as [Ha Hw']. constructor; [|by apply IH].
  rewrite <- Ha. apply get_hamming_distance_le.
Qed.

(** X2: the distances of an array of width [w] are at most [w], and they
    add up to at least the distance between the first and the last row. *)
Theorem get_hamming_distances_path (sols : list (list Z)) (w : nat) (x y : list Z) :
  rows_of_width w sols → head sols = Some x → last sols = Some y →
  Forall (λ d, d ≤ w) (get_hamming_distances sols) ∧
  get_hamming_distance x y ≤ sum_list (get_hamming_distances sols).
Proof.
  intros Hw Hx Hy. split; [by apply get_hamming_distances_bounded|].
  revert x Hx. induction sols as [|a [|b sols] IH]; intros x Hx; [done|..].
  + cbn in Hx, Hy. simplify_eq.
    assert (get_hamming_distance y y = 0) as ->; [|cbn; lia].
    by apply get_hamming_distance_zero.
  + cbn in Hx. simplify_eq. rewrite get_hamming_distances_cons2. cbn [sum_list].
    apply Forall_cons in Hw as [Hx Hw'].
    specialize (IH Hw' Hy b eq_refl).
    pose proof Hw' as Hw2. apply Forall_cons in Hw2 as [Hb _].
    assert (Hly : length y = w).
    { unfold rows_of_width in Hw'. rewrite Forall_forall in Hw'.
      apply Hw'. apply (last_Some_elem_of (b :: sols)). exact Hy. }
    pose proof (get_hamming_distance_triangle x b y) as Ht.
    cbn beta in Hx, Hb. specialize (Ht ltac:(congruence) ltac:(congruence)).
    etrans; [exact Ht|]. apply Nat.add_le_mono_l. exact IH.
Qed.

Lemma get_hamming_distance_metric_witness :
  length [1; -1; 1]%Z = length [1; 1; -1]%Z ∧
  length [1; 1; -1]%Z = length [-1; 1; -1]%Z ∧
  (get_hamming_distance [1; -1; 1]%Z [1; 1; -1]%Z = 0 ↔ [1; -1; 1]%Z = [1; 1; -1]%Z) ∧
  get_hamming_distance [1; -1; 1]%Z [1; 1; -1]%Z
  = get_hamming_distance [1; 1; -1]%Z [1; -1; 1]%Z ∧
  get_hamming_distance [1; -1; 1]%Z [-1; 1; -1]%Z
  ≤ get_hamming_distance [1; -1; 1]%Z [1; 1; -1]%Z
    + get_hamming_distance [1; 1; -1]%Z [-1; 1; -1]%Z ∧
  get_hamming_distance [1; -1; 1]%Z [1; 1; -1]%Z ≤ length [1; -1; 1]%Z.
Proof.
  split; [reflexivity|]. split; [reflexivity|].
  exact (get_hamming_distance_metric [1; -1; 1]%Z [1; 1; -1]%Z [-1; 1; -1]%Z
           eq_refl eq_refl).
Defined.

Lemma get_hamming_distances_path_witness :
  rows_of_width 3 three_reads ∧
  head three_reads = Some [1; -1; 1]%Z ∧ last three_reads = Some [1; 1; -1]%Z ∧
  Forall (λ d, d ≤ 3) (get_hamming_distances three_reads) ∧
  get_hamming_distance [1; -1; 1]%Z [1; 1; -1]%Z
  ≤ sum_list (get_hamming_distances three_reads).
Proof.
  assert (Hw : rows_of_width 3 three_reads) by (repeat constructor).
  split; [exact Hw|]. split; [reflexivity|]. split; [reflexivity|].
  exact (get_hamming_distances_path three_reads 3 _ _ Hw eq_refl eq_refl).
Defined.

End HammingFacts.

(** ** Statistics of a result set *)

Module StatsFacts.
Import Stats.

Lemma list_count_ground g rs :
  list_count g (energy <$> rs) = length (ground_records g rs).
Proof.
  unfold ground_records.
  induction rs as [|r rs IH]; [done|].
  rewrite fmap_cons, filter_cons. cbn [list_count].
  destruct (decide (energy r == g)%Q) as [Heq|Hne].
  - apply Qeq_bool_iff in Heq. rewrite Heq. cbn. by rewrite IH.
  - destruct (Qeq_bool (energy r) g) eqn:Hb.
    + apply Qeq_bool_iff in Hb. contradiction.
    + by rewrite IH.
Qed.

Lemma first_by_energy_is_Some rs : rs ≠ [] → is_Some (first_by_energy rs).
Proof.
  destruct rs as [|r rs]; [done|]. intros _. cbn.
  destruct (first_by_energy rs) as [r'|]; [|by eexists].
  destruct (Qle_bool (energy r) (energy r')); by eexists.
Qed.

Lemma first_by_energy_min rs r :
  first_by_energy rs = Some r → is_min_energy (energy r) rs.
Proof.
  revert r. induction rs as [|r0 rs IH]; intros r Hf; [done|].
  cbn in Hf. destruct (first_by_energy rs) as [r'|] eqn:Hrs.
  - destruct (IH r' eq_refl) as [[x [Hx Hxe]] Hmin].
    destruct (Qle_bool (energy r0) (energy r')) eqn:Hle; simplify_eq.
    + apply Qle_bool_iff in Hle. split.
      * exists r. split; [left|reflexivity].
      * intros y Hy. apply elem_of_cons in Hy as [->|Hy]; [apply Qle_refl|].
        eapply Qle_trans; [exact Hle|by apply Hmin].
    + assert (energy r < energy r0)%Q as Hlt.
      { apply Qnot_le_lt. intros Hc. apply Qle_bool_iff in Hc. congruence. }
      split.
      * exists x. split; [by right|done].
      * intros y Hy. apply elem_of_cons in Hy as [->|Hy].
        -- by apply Qlt_le_weak.
        -- by apply Hmin.
  - simplify_eq. destruct rs as [|r1 rs].
    + split.
      * exists r. split; [left|reflexivity].
      * intros y Hy. apply list_elem_of_singleton in Hy as ->. apply Qle_refl.
    + exfalso. destruct (first_by_energy_is_Some (r1 :: rs)) as [? Hs]; [done|].
      congruence.
Qed.

Lemma np_mean_is_Some xs : xs ≠ [] → is_Some (np_mean xs).
Proof. destruct xs; [done|]. by eexists. Qed.

Lemma analyze_is_Some g answer :
  record answer ≠ [] → is_Some (analyze g answer).
Proof.
  intros Hne. unfold analyze, first.
  destruct (first_by_energy_is_Some _ Hne) as [r ->]. cbn.
  destruct (np_mean_is_Some (record_energy answer)) as [mu ->]; [|by eexists].
  unfold record_energy. by destruct (record answer).
Qed.

Lemma analyze_Some g answer a :
  analyze g answer = Some a →
  ∃ best mu, first answer = Some best ∧ np_mean (record_energy answer) = Some mu ∧
    energy_best a = round2 (energy best) ∧
    energy_mean a = round2 mu ∧
    ratio a = (inject_Z (Z.of_nat (list_count g (record_energy answer)))
               / inject_Z reads)%Q ∧
    hamming_distances a = Hamming.get_hamming_distances (record_sample answer).
Proof.
  unfold analyze. intros Ha.
  destruct (first answer) as [best|]; [|done]. cbn in Ha.
  destruct (np_mean (record_energy answer)) as [mu|]; [|done]. cbn in Ha.
  simplify_eq. exists best, mu. done.
Qed.

(** C2: on a non-empty result set [analyze] returns, and the ratio it
    returns is the number of records whose energy equals the ground-state
    energy, divided by the 1000 reads; it is a function of the energy
    column alone, whatever the occurrence counts. *)
Theorem analyze_ratio_counts_records (g : Q) (answer : SampleSet) :
  (record answer ≠ [] → is_Some (analyze g answer)) ∧
  (∀ a, analyze g answer = Some a →
        (ratio a == inject_Z (Z.of_nat (length (ground_records g (record answer))))
                    / 1000)%Q) ∧
  (∀ answer' a a', record_energy answer' = record_energy answer →
        analyze g answer = Some a → analyze g answer' = Some a' →
        ratio a' = ratio a).
Proof.
  split_and!.
  - apply analyze_is_Some.
  - intros a Ha. apply analyze_Some in Ha as (? & ? & _ & _ & _ & _ & -> & _).
    unfold record_energy. rewrite list_count_ground. reflexivity.
  - intros answer' a a' Heq Ha Ha'.
    apply analyze_Some in Ha as (? & ? & _ & _ & _ & _ & -> & _).
    apply analyze_Some in Ha' as (? & ? & _ & _ & _ & _ & -> & _).
    by rewrite Heq.
Qed.

Lemma rint_comp x y : (x == y)%Q → rint x = rint y.
Proof.
  intros Hxy. unfold rint.
  rewrite (Qfloor_comp _ _ Hxy).
  assert (Hc : ((x - inject_Z (Qfloor y)) ?= 1 # 2)%Q = ((y - inject_Z (Qfloor y)) ?= 1 # 2)%Q).
  { apply Qcompare_comp; [|reflexivity]. by rewrite Hxy. }
  by rewrite Hc.
Qed.

Lemma rint_inject_Z z : rint (inject_Z z) = z.
Proof.
  unfold rint. rewrite Qfloor_Z.
  assert (Hc : ((inject_Z z - inject_Z z) ?= 1 # 2)%Q = Lt).
  { change (inject_Z z - inject_Z z < 1 # 2)%Q. lra. }
  by rewrite Hc.
Qed.

Lemma rint_near x : (Qabs (inject_Z (rint x) - x) <= 1 # 2)%Q.
Proof.
  pose proof (Qfloor_le x) as Hlo. pose proof (Qlt_floor x) as Hhi.
  rewrite inject_Z_plus in Hhi. change (inject_Z 1) with 1%Q in Hhi.
  apply Qabs_Qle_condition. unfold rint.
  destruct ((x - inject_Z (Qfloor x)) ?= 1 # 2)%Q eqn:Hc.
  - apply <- Qeq_alt in Hc.
    destruct (Z.even (Qfloor x)); [|rewrite inject_Z_plus; change (inject_Z 1) with 1%Q]; lra.
  - change (x - inject_Z (Qfloor x) < 1 # 2)%Q in Hc. lra.
  - apply <- Qgt_alt in Hc. rewrite inject_Z_plus. change (inject_Z 1) with 1%Q. lra.
Qed.

Lemma round2_near x : (Qabs (round2 x - x) <= 1 # 200)%Q.
Proof.
  pose proof (rint_near (x * 100)) as Hn.
  apply Qabs_Qle_condition in Hn. apply Qabs_Qle_condition.
  unfold round2, Qdiv. change (/ 100)%Q with (1 # 100)%Q.
  set (r := inject_Z (rint (x * 100))) in *.
  split; lra.
Qed.

Lemma round2_two_decimals x z : (x == inject_Z z / 100)%Q → (round2 x == x)%Q.
Proof.
  intros Hx. unfold round2.
  assert (Hr : rint (x * 100) = z).
  { rewrite <- (rint_inject_Z z). apply rint_comp. rewrite Hx. field. }
  rewrite Hr, Hx. reflexivity.
Qed.





Lemma np_mean_times_length xs mu :
  np_mean xs = Some mu →
  (mu * inject_Z (Z.of_nat (length xs)) == np_sum xs)%Q.
Proof.
  destruct xs as [|x xs]; [done|]. intros Hm.
  assert (Hmu : mu = (np_sum (x :: xs) / inject_Z (Z.of_nat (length (x :: xs))))%Q)
    by (injection Hm as Hm; symmetry; exact Hm).
  assert (Hn : ¬ (inject_Z (Z.of_nat (length (x :: xs))) == 0)%Q).
  { change 0%Q with (inject_Z 0). rewrite inject_Z_injective. cbn [length]. lia. }
  rewrite Hmu. revert Hn.
  generalize (np_sum (x :: xs)) (inject_Z (Z.of_nat (length (x :: xs)))).
  intros s n Hn. field. exact Hn.
Qed.

(** On a histogram-mode answer the exercise cell's ratio weighs by
    occurrences where [analyze]'s does not. *)
Example ratios_differ_on_histogram :
  ratio <$> analyze (-1) histogram_answer = Some (1 # 1000)%Q ∧
  exercise_ratio (-1) histogram_answer = Some (3 # 1000)%Q.
Proof. split; reflexivity. Qed.


(** *** Bounds on what [analyze] and the exercise cell report *)

Local Open Scope Q_scope.

Lemma per_reads_le (m n : nat) :
  (m ≤ n)%nat →
  inject_Z (Z.of_nat m) / inject_Z reads <= inject_Z (Z.of_nat n) / inject_Z reads.
Proof.
  intros Hmn. unfold Qdiv. apply Qmult_le_compat_r; [|done].
  rewrite <- Zle_Qle. lia.
Qed.

Lemma per_reads_nonneg (m : nat) : 0 <= inject_Z (Z.of_nat m) / inject_Z reads.
Proof.
  unfold Qdiv. apply Qmult_le_0_compat; [|done].
  change 0 with (inject_Z 0). rewrite <- Zle_Qle. lia.
Qed.

Lemma length_ground_records_le g rs :
  (length (ground_records g rs) ≤ length rs)%nat.
Proof. apply length_filter. Qed.

Lemma reads_at_ground_cons g r rs :
  reads_at_ground g (r :: rs)
  = ((if decide (energy r == g) then num_occurrences r else 0)
     + reads_at_ground g rs)%nat.
Proof.
  unfold reads_at_ground, ground_records. rewrite filter_cons.
  destruct (decide (energy r == g)); reflexivity.
Qed.

Lemma length_ground_records_cons g r rs :
  length (ground_records g (r :: rs))
  = ((if decide (energy r == g) then 1 else 0)
     + length (ground_records g rs))%nat.
Proof.
  unfold ground_records. rewrite filter_cons.
  destruct (decide (energy r == g)); reflexivity.
Qed.

Lemma ground_records_raw g rs :
  Forall (λ r, num_occurrences r = 1%nat) rs →
  reads_at_ground g rs = length (ground_records g rs).
Proof.
  induction 1 as [|r rs Hr _ IH]; [done|].
  rewrite reads_at_ground_cons, length_ground_records_cons, IH, Hr. done.
Qed.

Lemma ground_records_histogram g rs :
  Forall (λ r, (1 ≤ num_occurrences r)%nat) rs →
  (length (ground_records g rs) ≤ reads_at_ground g rs)%nat.
Proof.
  induction 1 as [|r rs Hr _ IH]; [done|].
  rewrite reads_at_ground_cons, length_ground_records_cons.
  destruct (decide (energy r == g)); lia.
Qed.

Lemma analyze_ratio_Some g answer a :
  analyze g answer = Some a →
  ratio a = inject_Z (Z.of_nat (length (ground_records g (record answer))))
            / inject_Z reads.
Proof.
  intros Ha. apply analyze_Some in Ha as (? & ? & _ & _ & _ & _ & -> & _).
  unfold record_energy. by rewrite list_count_ground.
Qed.

(** X8: the ratio [analyze] returns lies between 0 and the number of
    records over 1000, so it is at most 1 for up to 1000 records. *)
Theorem analyze_ratio_bounds (g : Q) (answer : SampleSet) (a : analysis) :
  analyze g answer = Some a →
  0 <= ratio a ∧ ratio a <= inject_Z (Z.of_nat (len answer)) / 1000 ∧
  ((len answer ≤ 1000)%nat → ratio a <= 1).
Proof.
  intros Ha. rewrite (analyze_ratio_Some _ _ _ Ha).
  split; [apply per_reads_nonneg|].
  assert (Hle := per_reads_le _ _ (length_ground_records_le g (record answer))).
  split; [exact Hle|].
  intros Hn. apply (Qle_trans _ _ _ Hle). unfold len in Hn.
  assert (H1 := per_reads_le _ 1000 Hn). apply (Qle_trans _ _ _ H1). done.
Qed.

(** X9: when every record stands for one read (raw mode) the ratio is the
    share of reads at the ground energy; when records stand for one or more
    reads (histogram mode) it is at most that share. *)
Theorem analyze_ratio_of_reads (g : Q) (answer : SampleSet) (a : analysis) :
  analyze g answer = Some a →
  (Forall (λ r, num_occurrences r = 1%nat) (record answer) →
   ratio a == inject_Z (Z.of_nat (reads_at_ground g (record answer))) / 1000) ∧
  (Forall (λ r, (1 ≤ num_occurrences r)%nat) (record answer) →
   ratio a <= inject_Z (Z.of_nat (reads_at_ground g (record answer))) / 1000).
Proof.
  intros Ha. rewrite (analyze_ratio_Some _ _ _ Ha). split.
  - intros Hraw. by rewrite (ground_records_raw _ _ Hraw).
  - intros Hh. apply per_reads_le. by apply ground_records_histogram.
Qed.

Lemma reads_at_ground_none g rs :
  (∀ i ri, rs !! i = Some ri → ¬ energy ri == g) → reads_at_ground g rs = 0%nat.
Proof.
  induction rs as [|r rs IH]; intros Hn; [done|].
  rewrite reads_at_ground_cons, decide_False by (apply (Hn 0%nat); done).
  rewrite IH; [done|]. intros i ri Hi. apply (Hn (S i)). exact Hi.
Qed.

(** X10: the exercise cell's ratio exists unless the answer is empty, is
    never above the share of reads at the ground energy, and equals it
    when no record after the first is at the ground energy. *)
Theorem exercise_ratio_first_record (g : Q) (answer : SampleSet) :
  (exercise_ratio g answer = None ↔ record answer = []) ∧
  ∀ r, exercise_ratio g answer = Some r →
    0 <= r ∧
    r <= inject_Z (Z.of_nat (reads_at_ground g (record answer))) / 1000 ∧
    ((∀ i ri, i ≠ 0%nat → record answer !! i = Some ri → ¬ energy ri == g) →
     r == inject_Z (Z.of_nat (reads_at_ground g (record answer))) / 1000).
Proof.
  assert (Hex : exercise_ratio g answer
                = match record answer with
                  | [] => None
                  | r0 :: _ =>
                      Some (if Qeq_bool (energy r0) g
                            then inject_Z (Z.of_nat (num_occurrences r0)) / inject_Z reads
                            else 0)
                  end).
  { unfold exercise_ratio. by destruct (record answer). }
  rewrite Hex. clear Hex. destruct (record answer) as [|r0 rs].
  { split; [done|]. intros r [=]. }
  split; [split; discriminate|].
  intros r [= <-]. rewrite reads_at_ground_cons.
  destruct (Qeq_bool (energy r0) g) eqn:Hb.
  - apply Qeq_bool_iff in Hb. rewrite decide_True by done.
    split; [apply per_reads_nonneg|]. split.
    + apply per_reads_le. lia.
    + intros Hothers. rewrite reads_at_ground_none, Nat.add_0_r; [done|].
      intros i ri Hi. apply (Hothers (S i)); [lia|exact Hi].
  - assert (Hne : ¬ energy r0 == g).
    { intros Heq. apply Qeq_bool_iff in Heq. congruence. }
    rewrite decide_False by done.
    split; [done|]. split; [apply per_reads_nonneg|].
    intros Hothers. rewrite reads_at_ground_none; [done|].
    intros i ri Hi. apply (Hothers (S i)); [lia|exact Hi].
Qed.

Lemma rint_mono x y : x <= y → (rint x ≤ rint y)%Z.
Proof.
  intros Hxy.
  pose proof (Qfloor_resp_le _ _ Hxy) as Hf.
  pose proof (Qfloor_le x) as Hxl. pose proof (Qlt_floor x) as Hxh.
  pose proof (Qfloor_le y) as Hyl. pose proof (Qlt_floor y) as Hyh.
  rewrite inject_Z_plus in Hxh, Hyh. change (inject_Z 1) with 1 in Hxh, Hyh.
  unfold rint.
  destruct (Z.eq_dec (Qfloor x) (Qfloor y)) as [Heq|Hne].
  - rewrite <- Heq in *.
    destruct (x - inject_Z (Qfloor x) ?= 1 # 2) eqn:Hcx;
      destruct (y - inject_Z (Qfloor x) ?= 1 # 2) eqn:Hcy;
      try (destruct (Z.even (Qfloor x)); lia); try lia; exfalso.
    + apply <- Qeq_alt in Hcx. change (y - inject_Z (Qfloor x) < 1 # 2) in Hcy. lra.
    + apply <- Qgt_alt in Hcx. apply <- Qeq_alt in Hcy. lra.
    + apply <- Qgt_alt in Hcx. change (y - inject_Z (Qfloor x) < 1 # 2) in Hcy. lra.
  - assert (Qfloor x + 1 ≤ Qfloor y)%Z by lia.
    destruct (x - inject_Z (Qfloor x) ?= 1 # 2), (y - inject_Z (Qfloor y) ?= 1 # 2);
      repeat match goal with |- context [Z.even ?z] => destruct (Z.even z) end; lia.
Qed.

Lemma round2_mono x y : x <= y → round2 x <= round2 y.
Proof.
  intros Hxy. unfold round2, Qdiv. apply Qmult_le_compat_r; [|done].
  rewrite <- Zle_Qle. apply rint_mono. lra.
Qed.

Lemma np_sum_ge (m : Q) xs :
  (∀ x, x ∈ xs → m <= x) → m * inject_Z (Z.of_nat (length xs)) <= np_sum xs.
Proof.
  induction xs as [|x xs IH]; intros Hm.
  - cbn [length np_sum foldr]. change (inject_Z (Z.of_nat 0)) with 0. lra.
  - cbn [length np_sum foldr]. rewrite Nat2Z.inj_succ, <- Z.add_1_r, inject_Z_plus.
    change (inject_Z 1) with 1.
    assert (m <= x) by (apply Hm; left).
    assert (m * inject_Z (Z.of_nat (length xs)) <= np_sum xs)
      by (apply IH; intros; apply Hm; by right).
    unfold np_sum in *. lra.
Qed.

Lemma np_sum_le (m : Q) xs :
  (∀ x, x ∈ xs → x <= m) → np_sum xs <= m * inject_Z (Z.of_nat (length xs)).
Proof.
  induction xs as [|x xs IH]; intros Hm.
  - cbn [length np_sum foldr]. change (inject_Z (Z.of_nat 0)) with 0. lra.
  - cbn [length np_sum foldr]. rewrite Nat2Z.inj_succ, <- Z.add_1_r, inject_Z_plus.
    change (inject_Z 1) with 1.
    assert (x <= m) by (apply Hm; left).
    assert (np_sum xs <= m * inject_Z (Z.of_nat (length xs)))
      by (apply IH; intros; apply Hm; by right).
    unfold np_sum in *. lra.
Qed.

Lemma length_pos_Q {A} (xs : list A) : xs ≠ [] → 0 < inject_Z (Z.of_nat (length xs)).
Proof.
  intros Hne. change 0 with (inject_Z 0). rewrite <- Zlt_Qlt.
  destruct xs; [done|]. cbn [length]. lia.
Qed.

Lemma np_mean_ge (m : Q) xs mu :
  np_mean xs = Some mu → (∀ x, x ∈ xs → m <= x) → m <= mu.
Proof.
  intros Hmu Hm. pose proof (np_mean_times_length _ _ Hmu) as Ht.
  pose proof (np_sum_ge m xs Hm) as Hs.
  assert (Hpos : 0 < inject_Z (Z.of_nat (length xs))).
  { apply length_pos_Q. intros ->. done. }
  rewrite <- Ht in Hs. revert Hs Hpos.
  generalize (inject_Z (Z.of_nat (length xs))). intros n Hs Hpos.
  apply (Qmult_le_r _ _ n Hpos). exact Hs.
Qed.

Lemma np_mean_le (m : Q) xs mu :
  np_mean xs = Some mu → (∀ x, x ∈ xs → x <= m) → mu <= m.
Proof.
  intros Hmu Hm. pose proof (np_mean_times_length _ _ Hmu) as Ht.
  pose proof (np_sum_le m xs Hm) as Hs.
  assert (Hpos : 0 < inject_Z (Z.of_nat (length xs))).
  { apply length_pos_Q. intros ->. done. }
  rewrite <- Ht in Hs. revert Hs Hpos.
  generalize (inject_Z (Z.of_nat (length xs))). intros n Hs Hpos.
  apply (Qmult_le_r _ _ n Hpos). exact Hs.
Qed.

Lemma analyze_Some_hamming g answer a :
  analyze g answer = Some a →
  hamming_distances a = Hamming.get_hamming_distances (record_sample answer) ∧
  hamming_mean a
  = round2 <$> np_mean ((λ d, inject_Z (Z.of_nat d))
                        <$> Hamming.get_hamming_distances (record_sample answer)).
Proof.
  unfold analyze. intros Ha.
  destruct (first answer) as [best|]; [|done]. cbn in Ha.
  destruct (np_mean (record_energy answer)) as [mu|]; [|done]. cbn in Ha.
  by simplify_eq.
Qed.

(** X12: [analyze] raises exactly on an empty answer; otherwise it returns
    one distance fewer than records, its [hamming_mean] is [nan] exactly
    for a single record, and else lies between 0 and the row width. *)
Theorem analyze_edge_cases (g : Q) (answer : SampleSet) :
  (analyze g answer = None ↔ record answer = []) ∧
  ∀ a, analyze g answer = Some a →
    length (hamming_distances a) = (len answer - 1)%nat ∧
    (hamming_mean a = None ↔ len answer = 1%nat) ∧
    ∀ w m, Hamming.rows_of_width w (record_sample answer) →
           hamming_mean a = Some m → 0 <= m ∧ m <= inject_Z (Z.of_nat w).
Proof.
  split.
  - split.
    + intros Hn. destruct (record answer) eqn:Hr; [done|].
      destruct (analyze_is_Some g answer) as [? ?]; [by rewrite Hr|congruence].
    + intros Hr. unfold analyze, first. by rewrite Hr.
  - intros a Ha.
    assert (Hne : record answer ≠ []).
    { intros Hr. unfold analyze, first in Ha. by rewrite Hr in Ha. }
    destruct (analyze_Some_hamming _ _ _ Ha) as [Hd Hm].
    assert (Hlen : length (Hamming.get_hamming_distances (record_sample answer))
                   = (len answer - 1)%nat).
    { rewrite HammingFacts.length_get_hamming_distances.
      unfold record_sample, len. by rewrite length_fmap. }
    split; [by rewrite Hd|]. split.
    + rewrite Hm. rewrite fmap_None.
      set (ds := Hamming.get_hamming_distances (record_sample answer)) in *.
      assert (Hlen1 : (1 ≤ len answer)%nat).
      { unfold len. destruct (record answer); [done|]. cbn. lia. }
      split.
      * intros Hnone. destruct ds; [cbn in Hlen; lia|done].
      * intros H1. destruct ds; [done|]. cbn in Hlen. lia.
    + intros w m Hw Hsome. rewrite Hm in Hsome.
      destruct (np_mean _) as [mu|] eqn:Hmu; [|done]. cbn in Hsome. simplify_eq.
      pose proof (HammingFacts.get_hamming_distances_bounded _ _ Hw) as Hb.
      rewrite Forall_forall in Hb.
      assert (H0 : 0 <= mu).
      { apply (np_mean_ge _ _ _ Hmu). intros x Hx.
        apply list_elem_of_fmap in Hx as (d & -> & _).
        change 0 with (inject_Z 0). rewrite <- Zle_Qle. lia. }
      assert (H1 : mu <= inject_Z (Z.of_nat w)).
      { apply (np_mean_le _ _ _ Hmu). intros x Hx.
        apply list_elem_of_fmap in Hx as (d & -> & Hd').
        rewrite <- Zle_Qle. specialize (Hb d Hd'). lia. }
      split.
      * apply (Qle_trans _ (round2 0)); [done|by apply round2_mono].
      * apply (Qle_trans _ (round2 (inject_Z (Z.of_nat w)))); [by apply round2_mono|].
        rewrite (round2_two_decimals _ (100 * Z.of_nat w)); [apply Qle_refl|].
        rewrite inject_Z_mult. field.
Qed.

Lemma analyze_ratio_bounds_witness :
  analyze 0 raw_answer = Some raw_analysis ∧
  0 <= ratio raw_analysis ∧
  ratio raw_analysis <= inject_Z (Z.of_nat (len raw_answer)) / 1000 ∧
  ((len raw_answer ≤ 1000)%nat → ratio raw_analysis <= 1).
Proof.
  split; [reflexivity|].
  exact (analyze_ratio_bounds 0 raw_answer raw_analysis eq_refl).
Defined.

Lemma analyze_ratio_of_reads_witness :
  analyze (-1) histogram_answer = Some histogram_analysis ∧
  reads_at_ground (-1) (record histogram_answer) = 3%nat ∧
  (ratio histogram_analysis == 1 # 1000) ∧
  (Forall (λ r, num_occurrences r = 1%nat) (record histogram_answer) →
   ratio histogram_analysis
   == inject_Z (Z.of_nat (reads_at_ground (-1) (record histogram_answer))) / 1000) ∧
  (Forall (λ r, (1 ≤ num_occurrences r)%nat) (record histogram_answer) →
   ratio histogram_analysis
   <= inject_Z (Z.of_nat (reads_at_ground (-1) (record histogram_answer))) / 1000).
Proof.
  split; [reflexivity|]. split; [reflexivity|]. split; [reflexivity|].
  exact (analyze_ratio_of_reads (-1) histogram_answer histogram_analysis eq_refl).
Defined.

End StatsFacts.

(** ** Anneal schedules *)

Module ScheduleFacts.
Import Schedule.

Local Open Scope Q_scope.

Lemma py_div_Some a b : ¬ b == 0 → py_div a b = Some (a / b).
Proof.
  intros Hb. unfold py_div.
  destruct (Qeq_bool b 0) eqn:E; [|done].
  apply Qeq_bool_iff in E. contradiction.
Qed.

Lemma Qdiv_nonneg a b : 0 <= a → 0 < b → 0 <= a / b.
Proof.
  intros Ha Hb. apply Qle_shift_div_l; [done|]. lra.
Qed.

Lemma Qdiv_pos a b : 0 < a → 0 < b → 0 < a / b.
Proof.
  intros Ha Hb. apply Qlt_shift_div_l; [done|]. lra.
Qed.

Lemma Qnot_le_bool a b : negb (Qle_bool a b) = true → b < a.
Proof.
  intros Hn. apply Qnot_le_lt. intros Hle. apply Qle_bool_iff in Hle.
  rewrite Hle in Hn. discriminate.
Qed.

Lemma admissible_spec rb s hold ru :
  admissible rb s hold ru = true ↔
  0 <= s ∧ s <= 1 ∧ 0 <= hold ∧ 0 < rb ∧ 0 < ru.
Proof.
  unfold admissible. rewrite !andb_true_iff, !Qle_bool_iff. split.
  - intros ((((? & ?) & ?) & Hb) & Hu).
    split_and!; auto using Qnot_le_bool.
  - intros (? & ? & ? & Hb & Hu). split_and!; try done.
    + destruct (Qle_bool rb 0) eqn:E; [|done]. apply Qle_bool_iff in E. lra.
    + destruct (Qle_bool ru 0) eqn:E; [|done]. apply Qle_bool_iff in E. lra.
Qed.

Lemma max_slope_positive tmin :
  0 < tmin → ∃ ms, max_slope tmin = Some ms ∧ ms == 1 / tmin ∧ 0 < ms.
Proof.
  intros Ht. exists (1 / tmin). unfold max_slope.
  rewrite py_div_Some by lra. split_and!; [done|reflexivity|].
  apply Qdiv_pos; lra.
Qed.

(** C5: for admissible inputs the schedule builder returns exactly four
    breakpoints; index 3 is its last breakpoint, [time_total] reads its
    time, which is the sum of the three segment durations and the largest
    time of the schedule. *)
Theorem reverse_schedule_four_points (rb s_target hold_time ramp_up_slope : Q) :
  admissible rb s_target hold_time ramp_up_slope = true →
  ∃ sch final,
    make_reverse_anneal_schedule rb s_target hold_time ramp_up_slope = Some sch ∧
    length sch = 4%nat ∧ sch !! 3%nat = Some final ∧ last sch = Some final ∧
    time_total sch = Some final.1 ∧
    final.1 == (1 - s_target) / rb + hold_time + (1 - s_target) / ramp_up_slope ∧
    ∀ p, p ∈ sch → p.1 <= final.1.
Proof.
  intros Hadm. unfold make_reverse_anneal_schedule. rewrite Hadm.
  apply admissible_spec in Hadm as (Hs0 & Hs1 & Hh & Hb & Hu).
  eexists _, _. split; [reflexivity|].
  split; [reflexivity|]. split; [reflexivity|]. split; [reflexivity|].
  split; [reflexivity|]. split; [reflexivity|].
  assert (0 <= (1 - s_target) / rb) as Hd by (apply Qdiv_nonneg; lra).
  assert (0 <= (1 - s_target) / ramp_up_slope) as Hup by (apply Qdiv_nonneg; lra).
  intros p Hp. cbn [fst].
  repeat (apply elem_of_cons in Hp as [->|Hp]); cbn [fst]; try lra.
  by apply elem_of_nil in Hp.
Qed.

Lemma reverse_schedule_four_points_witness :
  admissible (1 # 5) 0.45 80 2 = true ∧
  ∃ sch final,
    make_reverse_anneal_schedule (1 # 5) 0.45 80 2 = Some sch ∧
    length sch = 4%nat ∧ sch !! 3%nat = Some final ∧ last sch = Some final ∧
    time_total sch = Some final.1 ∧
    final.1 == (1 - 0.45) / (1 # 5) + 80 + (1 - 0.45) / 2 ∧
    ∀ p, p ∈ sch → p.1 <= final.1.
Proof.
  split; [reflexivity|].
  exact (reverse_schedule_four_points (1 # 5) 0.45 80 2 eq_refl).
Defined.

Lemma Qinv_pos a : 0 < a → 0 < / a.
Proof. apply Qinv_lt_0_compat. Qed.

Lemma reverse_schedule_increasing rb s_target hold_time ms :
  0 < rb → 0 < ms → 0 <= s_target → s_target < 1 → 0 < hold_time →
  ∃ sch, make_reverse_anneal_schedule rb s_target hold_time ms = Some sch ∧
         times_increasing sch.
Proof.
  intros Hb Hm Hs0 Hs1 Hh. unfold make_reverse_anneal_schedule.
  assert (Hadm : admissible rb s_target hold_time ms = true)
    by (apply admissible_spec; split_and!; lra).
  rewrite Hadm. eexists. split; [reflexivity|].
  assert (0 < (1 - s_target) / rb) as Hd by (apply Qdiv_pos; lra).
  assert (0 < (1 - s_target) / ms) as Hup by (apply Qdiv_pos; lra).
  intros i p q Hp Hq.
  destruct i as [|[|[|i]]]; cbn in Hp, Hq; simplify_eq; cbn [fst]; lra.
Qed.

Lemma pause_schedule_increasing tt ms :
  0 < ms → 50 < tt - 0.5 / ms →
  ∃ sch, pause_schedule tt ms = Some sch ∧ times_increasing sch.
Proof.
  intros Hm Hgap. unfold pause_schedule.
  rewrite py_div_Some by lra. cbn. eexists. split; [reflexivity|].
  assert (0 < 0.5 / ms) as Hd by (apply Qdiv_pos; lra).
  intros i p q Hp Hq.
  destruct i as [|[|[|i]]]; cbn in Hp, Hq; simplify_eq; cbn [fst]; lra.
Qed.

Lemma notebook_values_in_range :
  Forall (λ s, 0 <= s ∧ s < 1) s_target_vals ∧
  Forall (λ t, 0 < t) hold_time_vals.
Proof. split; repeat constructor; cbn; lra. Qed.

(** C6: with a positive least annealing time, every reverse schedule built
    for a target in [0, 1) and a positive hold (which all values the
    notebook passes are) has strictly increasing breakpoint times, and so
    has the pause schedule built from the notebook's [time_total] and
    [max_slope]. *)
Theorem notebook_schedules_increasing (rb tmin : Q) :
  0 < rb → 0 < tmin →
  ∃ ms, max_slope tmin = Some ms ∧
    (∀ s_target hold_time,
       0 <= s_target → s_target < 1 → 0 < hold_time →
       ∃ sch, make_reverse_anneal_schedule rb s_target hold_time ms = Some sch ∧
              times_increasing sch) ∧
    Forall (λ s, 0 <= s ∧ s < 1) s_target_vals ∧
    Forall (λ t, 0 < t) hold_time_vals ∧
    (∃ sch, notebook_pause_schedule rb tmin = Some sch ∧ times_increasing sch).
Proof.
  intros Hb Ht.
  destruct (max_slope_positive tmin Ht) as (ms & Hms & _ & Hpos).
  exists ms. split; [done|]. split.
  { intros s hold ???. by apply reverse_schedule_increasing. }
  destruct notebook_values_in_range as [Hsv Hhv].
  split; [done|]. split; [done|].
  unfold notebook_pause_schedule. rewrite Hms. cbn.
  unfold make_reverse_anneal_schedule.
  assert (Hadm : admissible rb 0.45 80 ms = true)
    by (apply admissible_spec; split_and!; lra).
  rewrite Hadm. cbn.
  apply pause_schedule_increasing; [done|].
  assert (0 <= (1 - 0.45) / rb) as Hd by (apply Qdiv_nonneg; lra).
  pose proof (Qinv_pos ms Hpos) as Hinv.
  unfold Qdiv in *. set (inv := / ms) in *. lra.
Qed.

Lemma notebook_schedules_increasing_witness :
  0 < 1 # 5 ∧ 0 < 1 # 2 ∧
  ∃ ms, max_slope (1 # 2) = Some ms ∧
    (∀ s_target hold_time,
       0 <= s_target → s_target < 1 → 0 < hold_time →
       ∃ sch, make_reverse_anneal_schedule (1 # 5) s_target hold_time ms = Some sch ∧
              times_increasing sch) ∧
    Forall (λ s, 0 <= s ∧ s < 1) s_target_vals ∧
    Forall (λ t, 0 < t) hold_time_vals ∧
    (∃ sch, notebook_pause_schedule (1 # 5) (1 # 2) = Some sch ∧ times_increasing sch).
Proof.
  assert (Hb : 0 < 1 # 5) by reflexivity.
  assert (Ht : 0 < 1 # 2) by reflexivity.
  split; [exact Hb|]. split; [exact Ht|].
  exact (notebook_schedules_increasing (1 # 5) (1 # 2) Hb Ht).
Defined.

(** C10, as amended: in exact arithmetic, for every positive [max_slope]
    and every [time_total] the last segment of the pause schedule runs from
    [(time_total - 0.5/max_slope, 0.5)] to [(time_total, 1.0)] and its slope
    equals [max_slope]. *)
Theorem pause_final_ramp_slope (tt ms : Q) :
  0 < ms →
  ∃ sch p2 p3 slope,
    pause_schedule tt ms = Some sch ∧
    sch !! 2%nat = Some p2 ∧ sch !! 3%nat = Some p3 ∧ length sch = 4%nat ∧
    p2.1 == tt - 0.5 / ms ∧ p2.2 == 0.5 ∧ p3.1 == tt ∧ p3.2 == 1 ∧
    segment_slope p2 p3 = Some slope ∧ slope == ms ∧ slope <= ms.
Proof.
  intros Hm. unfold pause_schedule. rewrite py_div_Some by lra. cbn.
  assert (0 < 0.5 / ms) as Hd by (apply Qdiv_pos; lra).
  eexists _, _, _, ((1.0 - 0.5) / (tt - (tt - 0.5 / ms))).
  split; [reflexivity|]. split; [reflexivity|]. split; [reflexivity|].
  split; [reflexivity|]. cbn [fst snd].
  split; [reflexivity|]. split; [reflexivity|]. split; [reflexivity|].
  split; [reflexivity|].
  assert (Hne : ¬ tt - (tt - 0.5 / ms) == 0) by lra.
  split; [unfold segment_slope; cbn [fst snd]; by apply py_div_Some|].
  assert (Heq : (1.0 - 0.5) / (tt - (tt - 0.5 / ms)) == ms).
  { field. lra. }
  split; [exact Heq|]. rewrite Heq. apply Qle_refl.
Qed.

Lemma pause_final_ramp_slope_witness :
  0 < 2 ∧
  ∃ sch p2 p3 slope,
    pause_schedule (8303 # 100) 2 = Some sch ∧
    sch !! 2%nat = Some p2 ∧ sch !! 3%nat = Some p3 ∧ length sch = 4%nat ∧
    p2.1 == (8303 # 100) - 0.5 / 2 ∧ p2.2 == 0.5 ∧ p3.1 == 8303 # 100 ∧ p3.2 == 1 ∧
    segment_slope p2 p3 = Some slope ∧ slope == 2 ∧ slope <= 2.
Proof.
  assert (Hm : 0 < 2) by reflexivity.
  split; [exact Hm|].
  exact (pause_final_ramp_slope (8303 # 100) 2 Hm).
Defined.

(** C10 as stated fails in binary64: with [max_slope = 200.0] and
    [time_total = 83.3] the rounded breakpoint makes the last segment
    steeper than [max_slope]. *)
Lemma pause_final_ramp_counterexample :
  ∃ ms sch slope,
    float_to_Q 200 = Some ms ∧ (ms == 200)%Q ∧
    pause_schedule_binary64 time_83_3 200 ≫= schedule_of_binary64 = Some sch ∧
    final_ramp_slope sch = Some slope ∧
    (ms < slope)%Q ∧ ¬ (slope == ms)%Q.
Proof.
  eexists _, _, _. split; [vm_compute; reflexivity|].
  split; [reflexivity|].
  split; [vm_compute; reflexivity|].
  split; [vm_compute; reflexivity|].
  split; [reflexivity|]. discriminate.
Qed.


(** *** When the pause schedule is a valid schedule *)

Lemma py_div_None a b : py_div a b = None ↔ b == 0.
Proof.
  unfold py_div. destruct (Qeq_bool b 0) eqn:E.
  - apply Qeq_bool_iff in E. done.
  - split; [done|]. intros Hb. apply Qeq_bool_iff in Hb. congruence.
Qed.

(** X16: the pause schedule fails to build exactly when [max_slope] is 0;
    for a positive [max_slope] its times increase exactly when
    [50 < time_total - 0.5/max_slope], and then no segment is steeper than
    [max_slope] exactly when [max_slope >= 0.01]. *)
Theorem pause_schedule_validity (tt ms : Q) :
  (pause_schedule tt ms = None ↔ ms == 0) ∧
  (0 < ms →
   ∃ sch, pause_schedule tt ms = Some sch ∧
     (times_increasing sch ↔ 50 < tt - 0.5 / ms) ∧
     (50 < tt - 0.5 / ms → (slopes_within ms sch ↔ 0.01 <= ms))).
Proof.
  split.
  - unfold pause_schedule. split.
    + intros Hn. destruct (py_div 0.5 ms) eqn:E; [done|].
      by apply py_div_None in E.
    + intros Hz. apply (py_div_None 0.5) in Hz. by rewrite Hz.
  - intros Hm. unfold pause_schedule. rewrite py_div_Some by lra. cbn.
    eexists. split; [reflexivity|].
    assert (Hd : ms * (0.5 / ms) == 0.5) by (field; lra).
    assert (Hdpos : 0 < 0.5 / ms) by (apply Qdiv_pos; lra).
    split; [split|].
    + intros Hinc.
      assert (H1 := Hinc 1%nat (50.0, 0.5) (tt - 0.5 / ms, 0.5) eq_refl eq_refl).
      cbn [fst] in H1. lra.
    + intros Hgap i p q Hp Hq.
      destruct i as [|[|[|i]]]; cbn in Hp, Hq; simplify_eq; cbn [fst]; lra.
    + intros Hgap. split.
      * intros Hs. specialize (Hs 0%nat (0.0, 0.0) (50.0, 0.5) eq_refl eq_refl).
        cbn [fst snd] in Hs. lra.
      * intros Hms i p q Hp Hq.
        destruct i as [|[|[|i]]]; cbn in Hp, Hq; simplify_eq; cbn [fst snd].
        -- lra.
        -- assert (0 <= ms * (tt - 0.5 / ms - 50.0)); [|lra].
           apply Qmult_le_0_compat; lra.
        -- assert (He : ms * (tt - (tt - 0.5 / ms)) == ms * (0.5 / ms)) by ring.
           rewrite He, Hd. lra.
Qed.

End ScheduleFacts.

(** ** The initial state taken from the forward anneal *)

Module InitialFacts.
Import Stats Initial.

Lemma i5_value answer : i5 answer = (5 * Z.of_nat (len answer) / 95)%Z.
Proof.
  unfold i5, py_int. cbn [Qmult Qdiv Qinv Qnum Qden inject_Z].
  rewrite Z.quot_div_nonneg by lia.
  f_equal; lia.
Qed.

Lemma py_index_in_range {A} (l : list A) (i : Z) :
  (0 <= i < Z.of_nat (length l))%Z → is_Some (py_index l i).
Proof.
  intros Hi. unfold py_index.
  destruct (0 <=? i)%Z eqn:E; [|lia].
  apply lookup_lt_is_Some. lia.
Qed.

(** C9: for a non-empty forward-anneal result set of length [n] the index
    [i5] satisfies [0 <= i5 < n]; the record lookup succeeds and the
    initial state is built. *)
Theorem i5_in_bounds (forward_answer : SampleSet) :
  record forward_answer ≠ [] →
  (0 <= i5 forward_answer < Z.of_nat (len forward_answer))%Z ∧
  is_Some (py_index (record forward_answer) (i5 forward_answer)) ∧
  is_Some (initial forward_answer).
Proof.
  intros Hne.
  assert (Hlen : (1 <= Z.of_nat (len forward_answer))%Z).
  { unfold len. destruct (record forward_answer); [done|]. cbn [length]. lia. }
  assert (Hb : (0 <= i5 forward_answer < Z.of_nat (len forward_answer))%Z).
  { rewrite i5_value. split.
    - apply Z.div_pos; lia.
    - apply Z.div_lt_upper_bound; lia. }
  split; [exact Hb|].
  destruct (py_index_in_range (record forward_answer) _ Hb) as [r Hr].
  split; [by eexists|].
  unfold initial. rewrite Hr. by eexists.
Qed.

Lemma i5_in_bounds_witness :
  record forward_answer_20 ≠ [] ∧
  i5 forward_answer_20 = 1%Z ∧
  ((0 <= i5 forward_answer_20 < Z.of_nat (len forward_answer_20))%Z ∧
   is_Some (py_index (record forward_answer_20) (i5 forward_answer_20)) ∧
   is_Some (initial forward_answer_20)).
Proof.
  assert (Hne : record forward_answer_20 ≠ []) by discriminate.
  split; [exact Hne|]. split; [reflexivity|].
  exact (i5_in_bounds forward_answer_20 Hne).
Defined.

(** Evaluated in binary64, the index is the same number for every length
    a request of 1000 reads can return. *)
Lemma i5_binary64_agrees (forward_answer : SampleSet) :
  1 ≤ len forward_answer ≤ 1000 →
  i5_binary64 (len forward_answer) = Some (i5 forward_answer).
Proof.
  intros Hn.
  assert (Hall : Forall (λ n, i5_binary64 n = Some (5 * Z.of_nat n / 95)%Z) (seq 1 1000)).
  { apply (bool_decide_unpack _). vm_compute. exact I. }
  rewrite Forall_forall in Hall.
  rewrite i5_value. apply Hall. apply elem_of_seq. lia.
Qed.


(** *** Which record becomes the initial state *)

Lemma py_index_nonneg {A} (l : list A) (i : Z) :
  (0 <= i)%Z → py_index l i = l !! Z.to_nat i.
Proof. intros Hi. unfold py_index. by rewrite (proj2 (Z.leb_le 0 i) Hi). Qed.

Lemma i5_div19 forward_answer :
  i5 forward_answer = (Z.of_nat (len forward_answer) / 19)%Z.
Proof.
  rewrite i5_value.
  replace (5 * Z.of_nat (len forward_answer))%Z
    with (Z.of_nat (len forward_answer) * 5)%Z by lia.
  replace 95%Z with (19 * 5)%Z by lia. rewrite Z.div_mul_cancel_r; lia.
Qed.

(** X13: [i5] is the length divided by 19, rounded down; it is 0 exactly
    for fewer than 19 records, where the initial state is built from
    record 0; and the initial state fails to build exactly on an empty
    answer. *)
Theorem i5_is_a_nineteenth (forward_answer : SampleSet) :
  (19 * i5 forward_answer <= Z.of_nat (len forward_answer)
   < 19 * (i5 forward_answer + 1))%Z ∧
  (i5 forward_answer = 0%Z ↔ len forward_answer < 19) ∧
  (len forward_answer < 19 →
   initial forward_answer
   = (λ r, py_dict (zip (variables forward_answer) (sample r)))
     <$> record forward_answer !! 0) ∧
  (initial forward_answer = None ↔ record forward_answer = []).
Proof.
  assert (Hdm := Z.div_mod (Z.of_nat (len forward_answer)) 19 ltac:(lia)).
  assert (Hmod := Z.mod_pos_bound (Z.of_nat (len forward_answer)) 19 ltac:(lia)).
  assert (Hzero : i5 forward_answer = 0%Z ↔ len forward_answer < 19).
  { rewrite i5_div19. split; [intros H0; rewrite H0 in Hdm; lia|].
    intros Hlt. apply Z.div_small. lia. }
  split; [rewrite i5_div19; lia|].
  split; [exact Hzero|]. split.
  - intros Hlt. unfold initial. rewrite (proj2 Hzero Hlt).
    rewrite py_index_nonneg by lia. cbn.
    by destruct (record forward_answer).
  - split.
    + intros Hnone. destruct (record forward_answer) eqn:Hr; [done|].
      destruct (i5_in_bounds forward_answer) as (_ & _ & [d Hd]);
        [by rewrite Hr|congruence].
    + intros Hr. unfold initial, py_index. rewrite Hr. cbn.
      rewrite !lookup_nil. by repeat case_match.
Qed.

Lemma py_dict_lookup (pairs : list (Z * Z)) k v :
  NoDup pairs.*1 → py_dict pairs !! k = Some v ↔ (k, v) ∈ pairs.
Proof.
  intros Hnd. unfold py_dict.
  rewrite <- elem_of_list_to_map.
  - by rewrite elem_of_reverse.
  - by rewrite fmap_reverse, reverse_Permutation.
Qed.

(** X14: the initial state is built from record [i5]; with distinct
    variable labels, as many as the record has spins, its keys are the
    labels and label [j] maps to spin [j] of the record. *)
Theorem initial_assigns_record (forward_answer : SampleSet) (d : gmap Z Z) :
  initial forward_answer = Some d →
  ∃ r, py_index (record forward_answer) (i5 forward_answer) = Some r ∧
    (NoDup (variables forward_answer) →
     length (variables forward_answer) = length (sample r) →
     dom d = list_to_set (variables forward_answer) ∧
     ∀ j v, variables forward_answer !! j = Some v → d !! v = sample r !! j).
Proof.
  unfold initial. intros Hi.
  destruct (py_index (record forward_answer) (i5 forward_answer)) as [r|]; [|done].
  cbn in Hi. simplify_eq. exists r. split; [done|].
  intros Hnd Hlen.
  set (vars := variables forward_answer) in *. set (s := sample r) in *.
  assert (Hfst : (zip vars s).*1 = vars).
  { apply fst_zip. lia. }
  assert (Hnd' : NoDup (zip vars s).*1) by by rewrite Hfst.
  split.
  - apply set_eq. intros k. rewrite elem_of_dom, elem_of_list_to_set.
    unfold is_Some. setoid_rewrite (py_dict_lookup _ k _ Hnd'). split.
    + intros [v Hv]. rewrite <- Hfst. apply list_elem_of_fmap. by exists (k, v).
    + intros Hk. rewrite <- Hfst in Hk.
      apply list_elem_of_fmap in Hk as ([k' v] & -> & Hkv). by exists v.
  - intros j v Hj.
    destruct (s !! j) as [x|] eqn:Hx.
    + apply (py_dict_lookup _ _ _ Hnd'). apply list_elem_of_lookup. exists j.
      apply lookup_zip_with_Some. by exists v, x.
    + apply lookup_ge_None in Hx. apply lookup_lt_Some in Hj. lia.
Qed.

(** X15: on a non-empty answer in ascending order of energy, the energy
    printed for the initial state is that of record [i5] and is not below
    the lowest energy found. *)
Theorem initial_energy_not_below_lowest (forward_answer : SampleSet) :
  record forward_answer ≠ [] → sorted_by_energy (record forward_answer) →
  ∃ e0 e5 r,
    lowest_energy_found forward_answer = Some e0 ∧
    initial_energy forward_answer = Some e5 ∧
    py_index (record forward_answer) (i5 forward_answer) = Some r ∧
    energy r = e5 ∧ (e0 <= e5)%Q.
Proof.
  intros Hne Hs.
  destruct (i5_in_bounds forward_answer Hne) as (Hb & [r Hr] & _).
  rewrite py_index_nonneg in Hr by lia.
  unfold initial_energy, lowest_energy_found, record_energy.
  rewrite !py_index_nonneg by lia.
  rewrite !list_lookup_fmap, Hr.
  destruct (record forward_answer !! 0%nat) as [r0|] eqn:Hr0.
  - exists (energy r0), (energy r), r. split_and!; try done.
    apply (Hs 0%nat (Z.to_nat (i5 forward_answer)) r0 r); [lia|done|done].
  - destruct (record forward_answer); done.
Qed.

Local Open Scope Q_scope.

Lemma initial_assigns_record_witness :
  Initial.initial forward_answer_20 = Some initial_20 ∧
  ∃ r, py_index (record forward_answer_20) (i5 forward_answer_20) = Some r ∧
    (NoDup (variables forward_answer_20) →
     length (variables forward_answer_20) = length (sample r) →
     dom initial_20 = list_to_set (variables forward_answer_20) ∧
     ∀ j v, variables forward_answer_20 !! j = Some v →
            initial_20 !! v = sample r !! j).
Proof.
  split; [reflexivity|].
  exact (initial_assigns_record forward_answer_20 initial_20 eq_refl).
Defined.

Lemma forward_answer_20_sorted : sorted_by_energy (record forward_answer_20).
Proof.
  intros i j ri rj Hij Hi Hj.
  assert (Hen : ∀ n r, record forward_answer_20 !! n = Some r →
                       (n < 19)%nat ∧ energy r = -2 ∨ n = 19%nat ∧ energy r = 0).
  { intros n r Hn. unfold forward_answer_20 in Hn. cbn [record] in Hn.
    destruct (decide (n < 19)%nat) as [Hlt|Hge].
    - left. split; [done|]. rewrite lookup_app_l in Hn by (rewrite length_replicate; lia).
      apply lookup_replicate in Hn as [-> _]. done.
    - right. rewrite lookup_app_r in Hn by (rewrite length_replicate; lia).
      rewrite length_replicate in Hn.
      destruct (n - 19)%nat as [|m] eqn:Hm; [|done]. cbn in Hn. simplify_eq.
      split; [lia|done]. }
  destruct (Hen i ri Hi) as [[? ->]|[? ->]], (Hen j rj Hj) as [[? ->]|[? ->]];
    try done; lia.
Qed.

Lemma initial_energy_not_below_lowest_witness :
  record forward_answer_20 ≠ [] ∧ sorted_by_energy (record forward_answer_20) ∧
  ∃ e0 e5 r,
    lowest_energy_found forward_answer_20 = Some e0 ∧
    initial_energy forward_answer_20 = Some e5 ∧
    py_index (record forward_answer_20) (i5 forward_answer_20) = Some r ∧
    energy r = e5 ∧ e0 <= e5.
Proof.
  assert (Hne : record forward_answer_20 ≠ []) by discriminate.
  split; [exact Hne|]. split; [exact forward_answer_20_sorted|].
  exact (initial_energy_not_below_lowest forward_answer_20 Hne forward_answer_20_sorted).
Defined.

End InitialFacts.

(** ** Flipping bits *)

Module FlipFacts.
Import Flip.

Lemma negated_entries_lookup d bits acc other :
  negated_entries d bits acc = Some other →
  ∀ k, other !! k = if decide (k ∈ bits) then Z.opp <$> d !! k else acc !! k.
Proof.
  revert acc. induction bits as [|bit rest IH]; intros acc Hn k.
  - cbn in Hn. simplify_eq. rewrite decide_False; [done|]. apply not_elem_of_nil.
  - cbn in Hn. destruct (d !! bit) as [v|] eqn:Hbit; [|done]. cbn in Hn.
    rewrite (IH _ Hn k).
    destruct (decide (k ∈ rest)) as [Hin|Hnin].
    + rewrite decide_True; [done|]. by right.
    + destruct (decide (k = bit)) as [->|Hne].
      * rewrite decide_True by left. by rewrite lookup_insert_eq, Hbit.
      * rewrite decide_False; [by rewrite lookup_insert_ne|].
        rewrite elem_of_cons. intros [?|?]; done.
Qed.

Lemma negated_entries_is_Some d bits acc :
  (∀ b, b ∈ bits → is_Some (d !! b)) → is_Some (negated_entries d bits acc).
Proof.
  revert acc. induction bits as [|bit rest IH]; intros acc Hall; [by eexists|].
  cbn. destruct (Hall bit) as [v ->]; [left|]. cbn.
  apply IH. intros b Hb. apply Hall. by right.
Qed.

Lemma negated_entries_KeyError d bits acc b :
  b ∈ bits → d !! b = None → negated_entries d bits acc = None.
Proof.
  revert acc. induction bits as [|bit rest IH]; intros acc Hb Hnone.
  - by apply elem_of_nil in Hb.
  - cbn. destruct (d !! bit) as [v|] eqn:Hbit; [|done]. cbn.
    apply elem_of_cons in Hb as [->|Hb]; [congruence|]. by apply IH.
Qed.

(** The dict after the update: the named entries negated, the rest kept. *)
Lemma dict_update_lookup d bits other :
  negated_entries d bits ∅ = Some other →
  ∀ k, dict_update d other !! k
       = if decide (k ∈ bits) then Z.opp <$> d !! k else d !! k.
Proof.
  intros Hn k. unfold dict_update. rewrite lookup_union.
  rewrite (negated_entries_lookup _ _ _ _ Hn k).
  destruct (decide (k ∈ bits)) as [Hin|Hnin].
  - destruct (d !! k); done.
  - rewrite lookup_empty. by destruct (d !! k).
Qed.

Lemma flip_bits_KeyError σ l d bits b :
  σ !! l = Some d → b ∈ bits → d !! b = None → flip_bits l bits σ = None.
Proof.
  intros Hl Hb Hnone. unfold flip_bits. rewrite Hl. cbn.
  by rewrite (negated_entries_KeyError _ _ _ _ Hb Hnone).
Qed.

Lemma flip_bits_Some σ l d bits :
  σ !! l = Some d → (∀ b, b ∈ bits → is_Some (d !! b)) →
  ∃ d', flip_bits l bits σ = Some (l, <[l := d']> σ) ∧
        ∀ k, d' !! k = if decide (k ∈ bits) then Z.opp <$> d !! k else d !! k.
Proof.
  intros Hl Hall. unfold flip_bits. rewrite Hl. cbn.
  destruct (negated_entries_is_Some d bits ∅ Hall) as [other Ho].
  rewrite Ho. cbn. exists (dict_update d other). split; [done|].
  by apply dict_update_lookup.
Qed.

Lemma dict_hamming_flipped (d d' : gmap Z Z) (bits : gset Z) :
  bits ⊆ dom d →
  (∀ k, d' !! k = if decide (k ∈ bits) then Z.opp <$> d !! k else d !! k) →
  (∀ k v, k ∈ bits → d !! k = Some v → v ≠ 0%Z) →
  dict_hamming d d' = size bits.
Proof.
  intros Hsub Hd' Hnz. unfold dict_hamming. f_equal.
  apply set_eq. intros k. rewrite elem_of_filter, elem_of_union, !elem_of_dom.
  rewrite (Hd' k). split.
  - intros [Hne _]. destruct (decide (k ∈ bits)); done.
  - intros Hk. rewrite decide_True by done.
    assert (is_Some (d !! k)) as [v Hv] by (apply elem_of_dom; set_solver).
    split; [|left; by eexists].
    rewrite Hv. cbn. intros [= Heq]. apply (Hnz k v Hk Hv). lia.
Qed.

(** C8, as amended: for a sample in the store and a set of bits that are
    all keys of the sample, [flip_bits] returns the reference it was given
    and changes only the dict behind it; the entries named in the set are
    negated and every other entry is kept; a second call with the same set
    restores the store; and when the flipped entries are non-zero, as
    spins are, the sample before and the sample after differ in exactly as
    many variables as there are bits in the set. *)
Theorem flip_bits_in_place (σ : store) (l : ref) (d : gmap Z Z) (bits : gset Z) :
  σ !! l = Some d → bits ⊆ dom d →
  ∃ d', flip_bits l (elements bits) σ = Some (l, <[l := d']> σ) ∧
    (∀ k, d' !! k = if decide (k ∈ bits) then Z.opp <$> d !! k else d !! k) ∧
    flip_bits l (elements bits) (<[l := d']> σ) = Some (l, σ) ∧
    ((∀ k v, k ∈ bits → d !! k = Some v → v ≠ 0%Z) →
     dict_hamming d d' = size bits).
Proof.
  intros Hl Hsub.
  assert (Hall : ∀ b, b ∈ elements bits → is_Some (d !! b)).
  { intros b Hb. apply elem_of_dom. set_solver. }
  destruct (flip_bits_Some σ l d (elements bits) Hl Hall) as (d' & Hf & Hd').
  assert (Hd'' : ∀ k, d' !! k = if decide (k ∈ bits) then Z.opp <$> d !! k else d !! k).
  { intros k. rewrite (Hd' k).
    destruct (decide (k ∈ elements bits)), (decide (k ∈ bits)); set_solver. }
  exists d'. split; [done|]. split; [done|]. split.
  - assert (Hall' : ∀ b, b ∈ elements bits → is_Some (d' !! b)).
    { intros b Hb. rewrite (Hd' b), decide_True by done.
      destruct (Hall b Hb) as [v ->]. by eexists. }
    destruct (flip_bits_Some (<[l := d']> σ) l d' (elements bits)) as (e & He & Hlook);
      [by rewrite lookup_insert_eq|done|].
    rewrite He. f_equal. f_equal. rewrite insert_insert_eq.
    assert (e = d) as ->; [|by apply insert_id].
    apply map_eq. intros k. rewrite (Hlook k), (Hd' k).
    destruct (decide (k ∈ elements bits)); [|done].
    destruct (d !! k) as [v|]; [|done]. cbn. f_equal. lia.
  - intros Hnz. by apply dict_hamming_flipped.
Qed.

(** X7: [flip_bits(dict(ground_state), bits)] works on a copy: the result
    is a new object and the object behind [ground_state] keeps its
    entries. *)
Lemma initial_copies_first σ gs d (bits : gset Z) :
  σ !! gs = Some d → bits ⊆ dom d →
  ∃ l d' σ', initial gs (elements bits) σ = Some (l, σ') ∧ l ≠ gs ∧
    σ' !! gs = Some d ∧ σ' !! l = Some d' ∧
    ∀ k, d' !! k = if decide (k ∈ bits) then Z.opp <$> d !! k else d !! k.
Proof.
  intros Hgs Hsub. unfold initial, dict_copy. rewrite Hgs. cbn.
  set (l := fresh (dom σ)).
  assert (Hl : l ∉ dom σ) by apply is_fresh.
  assert (Hne : l ≠ gs).
  { intros ->. apply Hl. apply elem_of_dom. by eexists. }
  destruct (flip_bits_in_place (<[l := d]> σ) l d bits) as (d' & Hf & Hd' & _);
    [by rewrite lookup_insert_eq|done|].
  rewrite Hf. exists l, d', (<[l := d']> (<[l := d]> σ)).
  split; [done|]. split; [done|]. split.
  - by rewrite !lookup_insert_ne.
  - split; [by rewrite lookup_insert_eq|done].
Qed.

Lemma flip_bits_in_place_witness :
  ground_store !! 1%positive = Some ground_state ∧ six_bits ⊆ dom ground_state ∧
  ∃ d', flip_bits 1%positive (elements six_bits) ground_store
        = Some (1%positive, <[1%positive := d']> ground_store) ∧
    (∀ k, d' !! k = if decide (k ∈ six_bits) then Z.opp <$> ground_state !! k
                    else ground_state !! k) ∧
    flip_bits 1%positive (elements six_bits) (<[1%positive := d']> ground_store)
    = Some (1%positive, ground_store) ∧
    ((∀ k v, k ∈ six_bits → ground_state !! k = Some v → v ≠ 0%Z) →
     dict_hamming ground_state d' = size six_bits).
Proof.
  assert (Hl : ground_store !! 1%positive = Some ground_state) by reflexivity.
  assert (Hsub : six_bits ⊆ dom ground_state).
  { apply (bool_decide_unpack _). vm_compute. exact I. }
  split; [exact Hl|]. split; [exact Hsub|].
  exact (flip_bits_in_place ground_store 1%positive ground_state six_bits Hl Hsub).
Defined.

(** C8 as stated fails on a bit the sample lacks, where [flip_bits] raises
    [KeyError] instead of returning, and on an entry holding 0, which
    negation leaves in place: one bit flipped, Hamming distance 0. *)
Lemma flip_bits_counterexample :
  flip_bits 1%positive (elements ({[ 5%Z ]} : gset Z)) one_spin_store = None ∧
  flip_bits 1%positive (elements ({[ 0%Z ]} : gset Z)) zero_entry_store
  = Some (1%positive, zero_entry_store) ∧
  dict_hamming {[ 0%Z := 0%Z ]} {[ 0%Z := 0%Z ]} ≠ size ({[ 0%Z ]} : gset Z).
Proof. split_and!; [vm_compute; reflexivity..|vm_compute; discriminate]. Qed.


(** *** Errors, framing and composition of [flip_bits] *)

(** The dict [flip_bits] leaves behind a reference is fixed by its lookups. *)
Lemma flip_bits_inv σ l d bits r :
  σ !! l = Some d → flip_bits l bits σ = Some r →
  (∀ b, b ∈ bits → is_Some (d !! b)) ∧
  ∃ d', r = (l, <[l := d']> σ) ∧
        ∀ k, d' !! k = if decide (k ∈ bits) then Z.opp <$> d !! k else d !! k.
Proof.
  intros Hl Hf.
  assert (Hall : ∀ b, b ∈ bits → is_Some (d !! b)).
  { intros b Hb. destruct (d !! b) as [v|] eqn:Hv; [by eexists|].
    rewrite (flip_bits_KeyError σ l d bits b Hl Hb Hv) in Hf. done. }
  split; [done|].
  destruct (flip_bits_Some σ l d bits Hl Hall) as (d' & Hf' & Hd').
  exists d'. split; [congruence|done].
Qed.

(** X3: [flip_bits] raises [KeyError] exactly when one of the bits is not
    a key of the sample. *)
Theorem flip_bits_KeyError_iff (σ : store) (l : ref) (d : gmap Z Z) (bits : list Z) :
  σ !! l = Some d →
  flip_bits l bits σ = None ↔ ∃ b, b ∈ bits ∧ d !! b = None.
Proof.
  intros Hl. split.
  - intros Hnone.
    destruct (decide (Forall (λ b, is_Some (d !! b)) bits)) as [Hall|Hex].
    + rewrite Forall_forall in Hall.
      destruct (flip_bits_Some σ l d bits Hl Hall) as (d' & Hf & _). congruence.
    + apply not_Forall_Exists in Hex; [|apply _].
      apply Exists_exists in Hex as (b & Hb & Hn).
      exists b. split; [done|]. by apply eq_None_not_Some.
  - intros (b & Hb & Hn). by eapply flip_bits_KeyError.
Qed.

(** X4: when [flip_bits] returns, it returns its argument, the sample has
    the same keys as before, every other object of the store is as it
    was, and a sample of spins [-1]/[+1] is still one. *)
Theorem flip_bits_frame (σ σ' : store) (l l' : ref) (d : gmap Z Z) (bits : list Z) :
  σ !! l = Some d → flip_bits l bits σ = Some (l', σ') →
  l' = l ∧
  ∃ d', σ' !! l = Some d' ∧ dom d' = dom d ∧
        (∀ l2, l2 ≠ l → σ' !! l2 = σ !! l2) ∧
        ((∀ k v, d !! k = Some v → v = 1 ∨ v = -1)%Z →
         (∀ k v, d' !! k = Some v → v = 1 ∨ v = -1)%Z).
Proof.
  intros Hl Hf.
  destruct (flip_bits_inv _ _ _ _ _ Hl Hf) as (Hall & d' & Hr & Hd').
  simplify_eq. split; [done|]. exists d'.
  split; [by rewrite lookup_insert_eq|]. split.
  - apply set_eq. intros k. rewrite !elem_of_dom, (Hd' k).
    destruct (decide (k ∈ bits)); [|done].
    by rewrite fmap_is_Some.
  - split; [intros l2 Hne; by rewrite lookup_insert_ne|].
    intros Hspin k v. rewrite (Hd' k).
    destruct (decide (k ∈ bits)); [|apply Hspin].
    destruct (d !! k) as [u|] eqn:Hu; [|done]. cbn. intros [= <-].
    destruct (Hspin k u Hu); lia.
Qed.

(** X5: a bit listed more than once is flipped once: a list of bits acts
    as the set of its elements. *)
Theorem flip_bits_duplicates (σ : store) (l : ref) (bits : list Z) :
  flip_bits l bits σ = flip_bits l (elements (list_to_set bits : gset Z)) σ.
Proof.
  destruct (σ !! l) as [d|] eqn:Hl; [|unfold flip_bits; by rewrite Hl].
  assert (Hmem : ∀ k, k ∈ elements (list_to_set bits : gset Z) ↔ k ∈ bits)
    by (intros k; rewrite elem_of_elements; apply elem_of_list_to_set).
  destruct (flip_bits l bits σ) as [r|] eqn:Hf.
  - destruct (flip_bits_inv _ _ _ _ _ Hl Hf) as (Hall & d1 & -> & Hd1).
    destruct (flip_bits_Some σ l d (elements (list_to_set bits : gset Z)) Hl)
      as (d2 & Hf2 & Hd2).
    { intros b Hb. apply Hall. by apply Hmem. }
    rewrite Hf2. do 3 f_equal. apply map_eq. intros k. rewrite Hd1, Hd2.
    destruct (decide (k ∈ bits)) as [Hb|Hb],
      (decide (k ∈ elements (list_to_set bits : gset Z))) as [He|He];
      try done; exfalso; [apply He|apply Hb]; by apply Hmem.
  - symmetry. apply (flip_bits_KeyError_iff σ l d _ Hl).
    apply (flip_bits_KeyError_iff σ l d _ Hl) in Hf as (b & Hb & Hn).
    exists b. split; [by apply Hmem|done].
Qed.

Lemma elem_of_symmetric_difference (A B : gset Z) k :
  k ∈ (A ∖ B) ∪ (B ∖ A) ↔ (k ∈ A ∧ k ∉ B) ∨ (k ∈ B ∧ k ∉ A).
Proof. set_solver. Qed.

Lemma flip_bits_set (τ : store) (l : ref) (e : gmap Z Z) (S : gset Z) :
  τ !! l = Some e → S ⊆ dom e →
  ∃ e', flip_bits l (elements S) τ = Some (l, <[l := e']> τ) ∧ dom e' = dom e ∧
        ∀ k, e' !! k = if decide (k ∈ S) then Z.opp <$> e !! k else e !! k.
Proof.
  intros Hτ HS.
  destruct (flip_bits_Some τ l e (elements S) Hτ) as (e' & Hf & He').
  { intros b Hb. apply elem_of_dom, HS. by apply elem_of_elements. }
  exists e'. split; [done|].
  destruct (flip_bits_frame τ _ l l e (elements S) Hτ Hf) as (_ & e'' & He'' & Hd'' & _).
  rewrite lookup_insert_eq in He''. injection He'' as <-.
  split; [done|]. intros k. rewrite He'.
  destruct (decide (k ∈ elements S)) as [Hin|Hnin], (decide (k ∈ S)) as [Hs|Hns];
    try done; exfalso.
  - apply Hns. by apply elem_of_elements.
  - apply Hnin. by apply elem_of_elements.
Qed.

(** X6: flipping a set [A] and then a set [B] of keys is flipping their
    symmetric difference, in either order. *)
Theorem flip_bits_compose (σ : store) (l : ref) (d : gmap Z Z) (A B : gset Z) :
  σ !! l = Some d → A ⊆ dom d → B ⊆ dom d →
  ∃ σ1 σ2,
    flip_bits l (elements A) σ = Some (l, σ1) ∧
    flip_bits l (elements B) σ1 = Some (l, σ2) ∧
    flip_bits l (elements ((A ∖ B) ∪ (B ∖ A))) σ = Some (l, σ2) ∧
    (∃ σ1', flip_bits l (elements B) σ = Some (l, σ1') ∧
            flip_bits l (elements A) σ1' = Some (l, σ2)).
Proof.
  intros Hl HA HB.
  destruct (flip_bits_set σ l d A Hl HA) as (dA & HfA & HdomA & HdA).
  destruct (flip_bits_set (<[l := dA]> σ) l dA B) as (dAB & HfAB & _ & HdAB);
    [by rewrite lookup_insert_eq|by rewrite HdomA|].
  destruct (flip_bits_set σ l d ((A ∖ B) ∪ (B ∖ A)) Hl) as (dS & HfS & _ & HdS).
  { intros k Hk. apply elem_of_symmetric_difference in Hk as [[Hk _]|[Hk _]];
      [by apply HA|by apply HB]. }
  destruct (flip_bits_set σ l d B Hl HB) as (dB & HfB & HdomB & HdB).
  destruct (flip_bits_set (<[l := dB]> σ) l dB A) as (dBA & HfBA & _ & HdBA);
    [by rewrite lookup_insert_eq|by rewrite HdomB|].
  rewrite insert_insert_eq in HfAB, HfBA.
  assert (HeqS : dS = dAB).
  { apply map_eq. intros k. rewrite HdS, HdAB, HdA.
    pose proof (elem_of_symmetric_difference A B k) as Hsd.
    destruct (decide (k ∈ A)) as [a|a], (decide (k ∈ B)) as [b|b],
      (decide (k ∈ (A ∖ B) ∪ (B ∖ A))) as [c|c]; try done; try (exfalso; tauto).
    destruct (d !! k); [cbn; f_equal; lia|done]. }
  assert (HeqBA : dBA = dAB).
  { apply map_eq. intros k. rewrite HdBA, HdAB, HdA, HdB.
    destruct (decide (k ∈ A)), (decide (k ∈ B)); done. }
  subst. eexists _, _. split; [exact HfA|]. split; [exact HfAB|].
  split; [exact HfS|]. eexists. split; [exact HfB|exact HfBA].
Qed.

Lemma flip_bits_KeyError_iff_witness :
  one_spin_store !! 1%positive = Some ({[ 0%Z := (-1)%Z ]} : gmap Z Z) ∧
  (flip_bits 1%positive [0; 5]%Z one_spin_store = None ↔
   ∃ b, b ∈ [0; 5]%Z ∧ ({[ 0%Z := (-1)%Z ]} : gmap Z Z) !! b = None).
Proof.
  split; [reflexivity|].
  exact (flip_bits_KeyError_iff one_spin_store 1%positive _ [0; 5]%Z eq_refl).
Defined.

Lemma flip_bits_frame_witness :
  two_dicts_store !! 1%positive = Some ground_state ∧
  ∃ σ',
    flip_bits 1%positive [0; 7; 15]%Z two_dicts_store = Some (1%positive, σ') ∧
    ∃ d', σ' !! 1%positive = Some d' ∧ dom d' = dom ground_state ∧
          (∀ l2, l2 ≠ 1%positive → σ' !! l2 = two_dicts_store !! l2) ∧
          ((∀ k v, ground_state !! k = Some v → v = 1 ∨ v = -1)%Z →
           (∀ k v, d' !! k = Some v → v = 1 ∨ v = -1)%Z).
Proof.
  split; [reflexivity|].
  destruct (flip_bits 1%positive [0; 7; 15]%Z two_dicts_store) as [[l' σ']|] eqn:Hf.
  - pose proof (flip_bits_frame two_dicts_store σ' 1%positive l' ground_state
                  [0; 7; 15]%Z eq_refl Hf) as [-> Hfr].
    exists σ'. split; [reflexivity|]. exact Hfr.
  - exfalso. vm_compute in Hf. discriminate Hf.
Defined.

Lemma flip_bits_compose_witness :
  ground_store !! 1%positive = Some ground_state ∧
  six_bits ⊆ dom ground_state ∧ ({[ 0; 7; 15 ]}%Z : gset Z) ⊆ dom ground_state ∧
  ∃ σ1 σ2,
    flip_bits 1%positive (elements six_bits) ground_store = Some (1%positive, σ1) ∧
    flip_bits 1%positive (elements ({[ 0; 7; 15 ]}%Z : gset Z)) σ1 = Some (1%positive, σ2) ∧
    flip_bits 1%positive
      (elements ((six_bits ∖ {[ 0; 7; 15 ]}%Z) ∪ ({[ 0; 7; 15 ]}%Z ∖ six_bits)))
      ground_store = Some (1%positive, σ2) ∧
    (∃ σ1', flip_bits 1%positive (elements ({[ 0; 7; 15 ]}%Z : gset Z)) ground_store
            = Some (1%positive, σ1') ∧
            flip_bits 1%positive (elements six_bits) σ1' = Some (1%positive, σ2)).
Proof.
  assert (HA : six_bits ⊆ dom ground_state).
  { apply (bool_decide_unpack _). vm_compute. exact I. }
  assert (HB : ({[ 0; 7; 15 ]}%Z : gset Z) ⊆ dom ground_state).
  { apply (bool_decide_unpack _). vm_compute. exact I. }
  split; [reflexivity|]. split; [exact HA|]. split; [exact HB|].
  exact (flip_bits_compose ground_store 1%positive ground_state six_bits
           {[ 0; 7; 15 ]}%Z eq_refl HA HB).
Defined.

Lemma initial_copies_first_witness :
  ground_store !! 1%positive = Some ground_state ∧ six_bits ⊆ dom ground_state ∧
  ∃ l d' σ', Flip.initial 1%positive (elements six_bits) ground_store = Some (l, σ') ∧
    l ≠ 1%positive ∧ σ' !! 1%positive = Some ground_state ∧ σ' !! l = Some d' ∧
    ∀ k, d' !! k = if decide (k ∈ six_bits) then Z.opp <$> ground_state !! k
                   else ground_state !! k.
Proof.
  assert (HA : six_bits ⊆ dom ground_state).
  { apply (bool_decide_unpack _). vm_compute. exact I. }
  split; [reflexivity|]. split; [exact HA|].
  exact (initial_copies_first ground_store 1%positive ground_state six_bits eq_refl HA).
Defined.

End FlipFacts.

(** ** Exceptions in the cells *)

Module NotebookFacts.
Import Stats Schedule Notebook.
Import StatsFacts.

Section CellFacts.
Context `{SDK}.

Lemma bind_raise {A B} (e : exn) (f : A → NB B) : bind (raise e) f = raise e.
Proof. reflexivity. Qed.

Lemma bind_propagates {A B} (c : NB A) (f : A → NB B) k e k' :
  c k = (Raise e, k') → bind c f k = (Raise e, k').
Proof. intros Hc. unfold bind. by rewrite Hc. Qed.

Lemma bind_continues {A B} (c : NB A) (f : A → NB B) k a k' :
  c k = (Ok a, k') → bind c f k = f a k'.
Proof. intros Hc. unfold bind. by rewrite Hc. Qed.

End CellFacts.

Section MoreCellFacts.
Context `{SDK}.

(** X17: the tiling cell ends with [NameError] when [sampler] is not
    bound; with a tile and a composite built from its first embedding it
    binds [sampler_embedded] and prints nothing; and a tiling that reports
    tiles but lists no embedding ends it with [IndexError]. *)
Theorem tiling_cell_outcomes (k : kernel) :
  (sampler k = None →
   cell_tiling k = (Raise (NameError "sampler"), k)) ∧
  (∀ s t emb c,
     sampler k = Some s → TilingComposite s 1 2 4 = Ok t → num_tiles t ≠ 0 →
     embeddings t !! 0 = Some emb → FixedEmbeddingComposite s emb = Ok c →
     ∃ k', cell_tiling k = (Ok tt, k') ∧
           sampler_embedded k' = Some c ∧ tiled_sampler k' = Some t ∧
           sampler k' = sampler k ∧ out k' = out k) ∧
  (∀ s t,
     sampler k = Some s → TilingComposite s 1 2 4 = Ok t → num_tiles t ≠ 0 →
     embeddings t = [] →
     ∃ k', cell_tiling k = (Raise IndexError, k') ∧
           sampler_embedded k' = sampler_embedded k ∧ out k' = out k).
Proof.
  destruct k as [o s0 t0 se0 a0 d0]. unfold cell_tiling. split_and!.
  - intros Hs. cbn in Hs. subst s0. reflexivity.
  - intros s t emb c Hs Ht Hn Hemb Hc. cbn in Hs. subst s0.
    unfold bind, call, lookup_name, set_tiled_sampler, index. cbn.
    rewrite Ht. cbn. rewrite decide_True by done.
    rewrite Hemb. cbn. rewrite Hc. eexists. done.
  - intros s t Hs Ht Hn Hemb. cbn in Hs. subst s0.
    unfold bind, call, lookup_name, set_tiled_sampler, index. cbn.
    rewrite Ht. cbn. rewrite decide_True by done.
    rewrite Hemb. cbn. eexists. done.
Qed.

(** X18: when the three requests are answered with non-empty answers the
    sampling cell ends normally with exactly three rows in [data], the
    analyses of the forward, pause and reverse answers in that order,
    whatever [data] held before, and three lines printed; an empty first
    answer ends it with [ValueError] and an empty [data]. *)
Theorem sampling_cell_fills_data (k : kernel) (g : globals) (se : Composite)
    (a1 a2 a3 : SampleSet) :
  sampler_embedded k = Some se →
  sample_ising se (h g) (J g) (forward_kwargs g) = Ok a1 →
  sample_ising se (h g) (J g) (pause_kwargs g) = Ok a2 →
  sample_ising se (h g) (J g) (reverse_kwargs g) = Ok a3 →
  (record a1 ≠ [] → record a2 ≠ [] → record a3 ≠ [] →
   ∃ k' r1 r2 r3,
     cell_sampling g k = (Ok tt, k') ∧
     data k' = Some [r1; r2; r3] ∧
     analyze (ground_energy g) a1 = Some r1 ∧
     analyze (ground_energy g) a2 = Some r2 ∧
     analyze (ground_energy g) a3 = Some r3 ∧
     answer k' = Some a3 ∧ sampler_embedded k' = Some se ∧
     out k' = out k ++
       ["Obtained " +:+ pretty (len a1) +:+ " samples from standard forward annealing";
        "Obtained " +:+ pretty (len a2) +:+ " samples from forward annealing with a pause";
        "Obtained " +:+ pretty (len a3) +:+ " samples from reverse annealing"]) ∧
  (record a1 = [] →
   ∃ k' msg, cell_sampling g k = (Raise (ValueError msg), k') ∧
             data k' = Some [] ∧ answer k' = Some a1).
Proof.
  intros Hse Ha1 Ha2 Ha3.
  destruct k as [o s0 t0 se0 a0 d0]. cbn in Hse. subst se0.
  unfold cell_sampling, append_analysis. split.
  - intros Hn1 Hn2 Hn3.
    destruct (analyze_is_Some (ground_energy g) a1 Hn1) as [r1 Hr1].
    destruct (analyze_is_Some (ground_energy g) a2 Hn2) as [r2 Hr2].
    destruct (analyze_is_Some (ground_energy g) a3 Hn3) as [r3 Hr3].
    unfold bind, set_data, lookup_name, call, set_answer, print. cbn.
    rewrite Ha1. cbn. rewrite Hr1. cbn. rewrite Ha2. cbn. rewrite Hr2. cbn.
    rewrite Ha3. cbn. rewrite Hr3. cbn.
    eexists _, r1, r2, r3. split; [reflexivity|]. cbn.
    split_and!; try done. by rewrite <- !app_assoc.
  - intros He.
    assert (Hnone : analyze (ground_energy g) a1 = None).
    { unfold analyze, first. by rewrite He. }
    unfold bind, set_data, lookup_name, call, set_answer, print. cbn.
    rewrite Ha1. cbn. rewrite Hnone. cbn. eexists _, _. done.
Qed.

End MoreCellFacts.

Lemma sampling_cell_fills_data_witness :
  sampler_embedded embedded_kernel = Some tt ∧
  (record raw_answer ≠ [] → record raw_answer ≠ [] → record raw_answer ≠ [] →
   ∃ k' r1 r2 r3,
     cell_sampling (H := answering_sdk) empty_globals embedded_kernel = (Ok tt, k') ∧
     data k' = Some [r1; r2; r3] ∧
     analyze (ground_energy empty_globals) raw_answer = Some r1 ∧
     analyze (ground_energy empty_globals) raw_answer = Some r2 ∧
     analyze (ground_energy empty_globals) raw_answer = Some r3 ∧
     answer k' = Some raw_answer ∧ sampler_embedded k' = Some tt ∧
     out k' = out embedded_kernel ++
       ["Obtained " +:+ pretty (len raw_answer) +:+ " samples from standard forward annealing";
        "Obtained " +:+ pretty (len raw_answer) +:+ " samples from forward annealing with a pause";
        "Obtained " +:+ pretty (len raw_answer) +:+ " samples from reverse annealing"]) ∧
  (record raw_answer = [] →
   ∃ k' msg, cell_sampling (H := answering_sdk) empty_globals embedded_kernel
             = (Raise (ValueError msg), k') ∧
             data k' = Some [] ∧ answer k' = Some raw_answer).
Proof.
  split; [reflexivity|].
  exact (sampling_cell_fills_data (H := answering_sdk) embedded_kernel empty_globals tt
           raw_answer raw_answer raw_answer eq_refl eq_refl eq_refl eq_refl).
Defined.

End NotebookFacts.

(** ** The parameter sweep *)

Module SweepFacts.
Import Stats Schedule Notebook Sweep.

Lemma itertools_product_length {A B} (xs : list A) (ys : list B) :
  length (itertools_product xs ys) = length xs * length ys.
Proof.
  unfold itertools_product. induction xs as [|x xs IH]; [done|].
  cbn. rewrite length_app, length_fmap. cbn in IH. rewrite IH. done.
Qed.

Lemma itertools_product_lookup {A B} (xs : list A) (ys : list B) i j x y :
  xs !! i = Some x → ys !! j = Some y →
  itertools_product xs ys !! (i * length ys + j) = Some (x, y).
Proof.
  unfold itertools_product. revert i. induction xs as [|x0 xs IH]; intros i Hx Hy; [done|].
  cbn. destruct i as [|i].
  - cbn in Hx. simplify_eq. rewrite Nat.mul_0_l, Nat.add_0_l, lookup_app_l.
    + by rewrite list_lookup_fmap, Hy.
    + rewrite length_fmap. by apply lookup_lt_Some in Hy.
  - cbn in Hx. rewrite lookup_app_r; rewrite length_fmap; [|lia].
    replace (S i * length ys + j - length ys) with (i * length ys + j) by lia.
    by apply IH.
Qed.

Section SweepCellFacts.
Context `{SDK} `{Helpers}.

Lemma for_each_app {A S} (xs ys : list A) (body : A → S → NB S) st k :
  for_each (xs ++ ys) body st k
  = match for_each xs body st k with
    | (Ok st', k') => for_each ys body st' k'
    | (Raise e, k') => (Raise e, k')
    end.
Proof.
  revert st k. induction xs as [|x xs IH]; intros st k; [done|].
  cbn. unfold bind. destruct (body x st k) as [[st'|e] k']; [apply IH|done].
Qed.

Definition answers_to (g : globals) (max_slope : Q) (se : Composite)
    (ans : Q * Q → SampleSet) (p : Q * Q) : Prop :=
  ∃ sch, build_schedule p.1 p.2 max_slope = Ok sch ∧
         sample_ising se (h g) (J g) (sweep_kwargs sch (initial g)) = Ok (ans p).

Lemma for_each_sweep g ms se ans ps st k :
  sampler_embedded k = Some se →
  Forall (answers_to g ms se ans) ps →
  ∃ k', for_each ps (sweep_body g ms) st k
        = (Ok (st.1 ++ ((λ p, row_of p (ans p)) <$> ps),
               foldl (λ t p, (t + qpu_access_time (ans p))%Q) st.2 ps), k') ∧
        sampler_embedded k' = Some se ∧
        out k' = out k ++
          ((λ p, "Running reverse anneals with s_target=" +:+ str p.1
                 +:+ " and hold_time=" +:+ str p.2 +:+ " us") <$> ps).
Proof.
  intros Hse Hall. revert st k Hse.
  induction Hall as [|p ps (sch & Hsch & Hans) _ IH]; intros st k Hse.
  - exists k. cbn. rewrite !app_nil_r. by destruct st.
  - destruct k as [o s0 t0 se0 a0 d0]. cbn in Hse. subst se0.
    cbn [for_each]. unfold bind at 1. unfold sweep_body.
    unfold bind, print, call, lookup_name, ret. cbn.
    rewrite Hsch. cbn. rewrite Hans. cbn.
    edestruct IH as (k' & -> & Hse' & Hout); [reflexivity|].
    exists k'. cbn. rewrite <- app_assoc. cbn.
    split; [done|]. split; [done|]. rewrite Hout. cbn. by rewrite <- app_assoc.
Qed.

(** X19: when every schedule is built and every request answered, the
    sweep cell ends normally with one row per pair of values, the row of
    the [i]-th target and [j]-th hold time at index [i * len(hold) + j];
    [QPU_time] is the sum of the answers' access times; and one line is
    printed per pair, then the closing line. *)
Theorem sweep_cell_rows (k : kernel) (g : globals) (ms : Q) (se : Composite)
    (s_target_vals hold_time_vals : list Q) (ans : Q * Q → SampleSet) :
  sampler_embedded k = Some se →
  Forall (answers_to g ms se ans) (itertools_product s_target_vals hold_time_vals) →
  ∃ k' data_rows QPU_time,
    cell_sweep g ms s_target_vals hold_time_vals k = (Ok (data_rows, QPU_time), k') ∧
    length data_rows = length s_target_vals * length hold_time_vals ∧
    (∀ i j s t, s_target_vals !! i = Some s → hold_time_vals !! j = Some t →
       data_rows !! (i * length hold_time_vals + j) = Some (row_of (s, t) (ans (s, t)))) ∧
    QPU_time = foldl (λ t p, (t + qpu_access_time (ans p))%Q) 0%Q
                 (itertools_product s_target_vals hold_time_vals) ∧
    length (out k') = length (out k) + length s_target_vals * length hold_time_vals + 1.
Proof.
  intros Hse Hall.
  destruct (for_each_sweep g ms se ans _ ([], 0%Q) k Hse Hall) as (k1 & Hrun & Hse1 & Hout).
  unfold cell_sweep, bind at 1. rewrite Hrun. cbn [fst snd app].
  unfold bind, print, ret. cbn.
  eexists _, _, _. split; [reflexivity|]. cbn.
  split; [by rewrite length_fmap, itertools_product_length|].
  split.
  - intros i j s t Hs Ht. rewrite list_lookup_fmap.
    by rewrite (itertools_product_lookup _ _ _ _ _ _ Hs Ht).
  - split; [done|]. rewrite Hout, !length_app, length_fmap, itertools_product_length.
    cbn. lia.
Qed.

(** X20: the sweep cell ends with the exception of the first pair whose
    schedule or request is refused, after printing one line for each pair
    answered before and one for the failing pair. *)
Theorem sweep_cell_stops_at_first_failure (k : kernel) (g : globals) (ms : Q)
    (se : Composite) (ans : Q * Q → SampleSet)
    (s_target_vals hold_time_vals : list Q) (done_ left_ : list (Q * Q)) (p : Q * Q) (e : exn) :
  sampler_embedded k = Some se →
  itertools_product s_target_vals hold_time_vals = done_ ++ p :: left_ →
  Forall (answers_to g ms se ans) done_ →
  (build_schedule p.1 p.2 ms = Raise e ∨
   ∃ sch, build_schedule p.1 p.2 ms = Ok sch ∧
          sample_ising se (h g) (J g) (sweep_kwargs sch (initial g)) = Raise e) →
  ∃ k', cell_sweep g ms s_target_vals hold_time_vals k = (Raise e, k') ∧
        length (out k') = length (out k) + length done_ + 1.
Proof.
  intros Hse Hsplit Hall Hfail.
  destruct (for_each_sweep g ms se ans _ ([], 0%Q) k Hse Hall) as (k1 & Hrun & Hse1 & Hout).
  unfold cell_sweep, bind at 1. rewrite Hsplit, for_each_app, Hrun.
  cbn [for_each]. unfold bind at 1.
  destruct k1 as [o s0 t0 se0 a0 d0]. cbn in Hse1, Hout. subst se0.
  unfold sweep_body, bind, print, call, lookup_name, ret. cbn.
  destruct Hfail as [Hb|(sch & Hb & Hs)].
  - rewrite Hb. cbn. eexists. split; [reflexivity|]. cbn.
    rewrite Hout, !length_app, length_fmap. cbn. lia.
  - rewrite Hb. cbn. rewrite Hs. cbn. eexists. split; [reflexivity|]. cbn.
    rewrite Hout, !length_app, length_fmap. cbn. lia.
Qed.

End SweepCellFacts.
Lemma every_pair_answered (ps : list (Q * Q)) :
  Forall (answers_to (H := answering_sdk) (H0 := plain_helpers)
            empty_globals 2 tt (λ _, raw_answer)) ps.
Proof. apply Forall_forall. intros p _. eexists. split; reflexivity. Qed.

Lemma sweep_cell_rows_witness :
  sampler_embedded embedded_kernel = Some tt ∧
  ∃ k' data_rows QPU_time,
    cell_sweep (H := answering_sdk) (H0 := plain_helpers) empty_globals 2
      [0.3; 0.45; 0.6; 0.75; 0.9]%Q [10; 100]%Q embedded_kernel
    = (Ok (data_rows, QPU_time), k') ∧
    length data_rows = length [0.3; 0.45; 0.6; 0.75; 0.9]%Q * length [10; 100]%Q ∧
    (∀ i j s t, [0.3; 0.45; 0.6; 0.75; 0.9]%Q !! i = Some s → [10; 100]%Q !! j = Some t →
       data_rows !! (i * length [10; 100]%Q + j) = Some (row_of (s, t) raw_answer)) ∧
    QPU_time = foldl (λ t p, (t + qpu_access_time (Helpers := plain_helpers) raw_answer)%Q) 0%Q
                 (itertools_product [0.3; 0.45; 0.6; 0.75; 0.9]%Q [10; 100]%Q) ∧
    length (out k') = length (out embedded_kernel)
                      + length [0.3; 0.45; 0.6; 0.75; 0.9]%Q * length [10; 100]%Q + 1.
Proof.
  split; [reflexivity|].
  exact (sweep_cell_rows (H := answering_sdk) (H0 := plain_helpers)
           embedded_kernel empty_globals 2 tt _ _ (λ _, raw_answer) eq_refl
           (every_pair_answered _)).
Defined.

Lemma sweep_cell_stops_at_first_failure_witness :
  sampler_embedded stale_kernel = Some tt ∧
  itertools_product [0.3; 0.45]%Q [10; 100]%Q
  = [] ++ (0.3, 10)%Q :: [(0.3, 100); (0.45, 10); (0.45, 100)]%Q ∧
  ∃ k', cell_sweep (H := unreachable_sdk) (H0 := plain_helpers) empty_globals 2
          [0.3; 0.45]%Q [10; 100]%Q stale_kernel
        = (Raise (SolverFailureError "connection refused"), k') ∧
        length (out k') = length (out stale_kernel) + length ([] : list (Q * Q)) + 1.
Proof.
  split; [reflexivity|]. split; [reflexivity|].
  refine (sweep_cell_stops_at_first_failure (H := unreachable_sdk) (H0 := plain_helpers)
            stale_kernel empty_globals 2 tt (λ _, raw_answer)
            [0.3; 0.45]%Q [10; 100]%Q [] _ (0.3, 10)%Q _ eq_refl eq_refl
            (Forall_nil_2 _) _).
  right. eexists. split; reflexivity.
Defined.

End SweepFacts.

(** ** Rounding to binary64 *)

Module Binary64Facts.
Import Stats Schedule Binary64.
Import StatsFacts.

Local Open Scope Q_scope.

Lemma pow2_pos (k : Z) : 0 < 2 ^ k.
Proof. apply Qpower_0_lt. reflexivity. Qed.

Lemma pow2_ne0 (k : Z) : ¬ 2 ^ k == 0.
Proof. pose proof (pow2_pos k). lra. Qed.


Lemma pow2_le (j k : Z) : (j ≤ k)%Z → 2 ^ j <= 2 ^ k.
Proof. intros. apply Qpower_le_compat_l; [done|]. discriminate. Qed.

Lemma pow2_lt (j k : Z) : (j < k)%Z → 2 ^ j < 2 ^ k.
Proof. intros. apply Qpower_lt_compat_l; [done|]. reflexivity. Qed.

Lemma pow2_inject (k : Z) : (0 ≤ k)%Z → inject_Z (2 ^ k) == 2 ^ k.
Proof. intros. by rewrite Zpower_Qpower. Qed.

(** Two binades do not overlap. *)
Lemma binade_unique (x : Q) (j k : Z) :
  2 ^ j <= x → x < 2 ^ (j + 1) → 2 ^ k <= x → x < 2 ^ (k + 1) → j = k.
Proof.
  intros Hj1 Hj2 Hk1 Hk2.
  destruct (Z.lt_trichotomy j k) as [Hlt|[Heq|Hgt]]; [|done|].
  - exfalso. assert (2 ^ (j + 1) <= 2 ^ k) by (apply pow2_le; lia). lra.
  - exfalso. assert (2 ^ (k + 1) <= 2 ^ j) by (apply pow2_le; lia). lra.
Qed.

Lemma Qabs_frac (x : Q) : Qabs x == inject_Z (Z.abs (Qnum x)) / inject_Z (Z.pos (Qden x)).
Proof.
  destruct x as [n d]. unfold Qabs. cbn [Qnum Qden].
  rewrite (Qmake_Qdiv (Z.abs n) d). reflexivity.
Qed.

Lemma ilog2_spec (x : Q) :
  ¬ x == 0 → 2 ^ ilog2 x <= Qabs x ∧ Qabs x < 2 ^ (ilog2 x + 1).
Proof.
  intros Hx. unfold ilog2.
  set (n := Z.abs (Qnum x)). set (d := Z.pos (Qden x)).
  assert (Hn : (0 < n)%Z).
  { subst n. destruct x as [xn xd]. cbn. unfold Qeq in Hx. cbn in Hx. lia. }
  assert (Hd : (0 < d)%Z) by (subst d; lia).
  pose proof (Z.log2_spec n Hn) as [Hn1 Hn2].
  pose proof (Z.log2_spec d Hd) as [Hd1 Hd2].
  pose proof (Z.log2_nonneg n) as Ha. pose proof (Z.log2_nonneg d) as Hb.
  set (a := Z.log2 n) in *. set (b := Z.log2 d) in *.
  assert (Hx' : Qabs x == inject_Z n / inject_Z d) by apply Qabs_frac.
  assert (HdQ : 0 < inject_Z d) by (change 0 with (inject_Z 0); by rewrite <- Zlt_Qlt).
  assert (Hlo : 2 ^ (a - b - 1) < Qabs x).
  { rewrite Hx'. replace (a - b - 1)%Z with (a - (b + 1))%Z by lia.
    rewrite Qpower_minus by discriminate.
    rewrite <- !pow2_inject by lia.
    assert (0 < inject_Z (2 ^ (b + 1))).
    { change 0 with (inject_Z 0). rewrite <- Zlt_Qlt. lia. }
    apply Qlt_shift_div_l; [done|].
    unfold Qdiv. rewrite <- Qmult_assoc, (Qmult_comm (/ _)), Qmult_assoc.
    apply Qlt_shift_div_r; [done|].
    rewrite <- !inject_Z_mult, <- Zlt_Qlt. nia. }
  assert (Hhi : Qabs x < 2 ^ (a - b + 1)).
  { rewrite Hx'. replace (a - b + 1)%Z with (a + 1 - b)%Z by lia.
    rewrite Qpower_minus by discriminate.
    rewrite <- !pow2_inject by lia.
    assert (0 < inject_Z (2 ^ b)).
    { change 0 with (inject_Z 0). rewrite <- Zlt_Qlt. lia. }
    apply Qlt_shift_div_r; [done|].
    unfold Qdiv. rewrite <- Qmult_assoc, (Qmult_comm (/ _)), Qmult_assoc.
    apply Qlt_shift_div_l; [done|].
    rewrite <- !inject_Z_mult, <- Zlt_Qlt. nia. }
  destruct (Qle_bool (2 ^ (a - b)) (Qabs x)) eqn:Hc.
  - apply Qle_bool_iff in Hc. done.
  - assert (Qabs x < 2 ^ (a - b)).
    { apply Qnot_le_lt. intros Hle. apply Qle_bool_iff in Hle. congruence. }
    replace (a - b - 1 + 1)%Z with (a - b)%Z by lia. split; [lra|done].
Qed.

Lemma ilog2_unique (x : Q) (k : Z) :
  2 ^ k <= Qabs x → Qabs x < 2 ^ (k + 1) → ilog2 x = k.
Proof.
  intros H1 H2.
  assert (Hx : ¬ x == 0).
  { intros Hx. assert (Qabs x == 0) as H0 by (rewrite Hx; reflexivity).
    pose proof (pow2_pos k). lra. }
  destruct (ilog2_spec x Hx) as [H3 H4].
  by apply (binade_unique (Qabs x)).
Qed.

Lemma ilog2_comp (x y : Q) : x == y → ¬ x == 0 → ilog2 x = ilog2 y.
Proof.
  intros Hxy Hx. destruct (ilog2_spec x Hx) as [H1 H2].
  symmetry. apply ilog2_unique; by rewrite <- Hxy.
Qed.

Lemma binary64_zero (x : Q) : x == 0 → binary64 x = 0.
Proof.
  intros Hx. unfold binary64. generalize (exponent x). intros e.
  assert (Hr : rint (x / 2 ^ e) = 0%Z).
  { rewrite <- (rint_inject_Z 0). apply rint_comp. rewrite Hx.
    unfold Qdiv. change (inject_Z 0) with 0. ring. }
  rewrite Hr. transitivity (Qred 0); [|reflexivity]. apply Qred_complete.
  change (inject_Z 0) with 0. ring.
Qed.

Lemma binary64_comp (x y : Q) : x == y → binary64 x = binary64 y.
Proof.
  intros Hxy. destruct (Qeq_dec x 0) as [Hx|Hx].
  - rewrite (binary64_zero x Hx). symmetry. apply binary64_zero. by rewrite <- Hxy.
  - unfold binary64, exponent. rewrite (ilog2_comp x y Hxy Hx).
    apply Qred_complete.
    rewrite (rint_comp (x / _) (y / 2 ^ Z.max (ilog2 y - 52) (-1074))); [reflexivity|].
    by rewrite Hxy.
Qed.

Lemma binary64_eq (x : Q) :
  binary64 x == inject_Z (rint (x / 2 ^ exponent x)) * 2 ^ exponent x.
Proof. unfold binary64. apply Qred_correct. Qed.

(** A value that is a whole number of quanta is left as it is. *)
Lemma binary64_exact (x : Q) (m : Z) :
  x == inject_Z m * 2 ^ exponent x → binary64 x == x.
Proof.
  intros Hm. rewrite binary64_eq.
  assert (Hr : rint (x / 2 ^ exponent x) = m).
  { rewrite <- (rint_inject_Z m). apply rint_comp.
    rewrite Hm at 1. field. apply pow2_ne0. }
  rewrite Hr. by rewrite <- Hm.
Qed.

Lemma Qabs_inject_Z (z : Z) : Qabs (inject_Z z) = inject_Z (Z.abs z).
Proof. reflexivity. Qed.

Lemma exponent_small (x : Q) : Qabs x < 2 ^ 53 → (exponent x ≤ 0)%Z.
Proof.
  intros Hx. unfold exponent.
  destruct (Qeq_dec x 0) as [H0|H0].
  - assert (ilog2 x ≤ 0)%Z; [|lia].
    unfold ilog2. destruct x as [n d]. unfold Qeq in H0. cbn in H0.
    assert (n = 0%Z) by lia. subst n. cbn [Qnum Qden Z.abs].
    pose proof (Z.log2_nonneg (Z.pos d)). change (Z.log2 (Z.abs 0)) with 0%Z.
    destruct (Qle_bool _ _); lia.
  - destruct (ilog2_spec x H0) as [H1 H2].
    apply Z.max_lub; [|lia].
    destruct (Z.le_gt_cases (ilog2 x - 52) 0); [lia|]. exfalso.
    assert (2 ^ 53 <= 2 ^ (ilog2 x)) by (apply pow2_le; lia). lra.
Qed.

Lemma Qred_inject_Z (z : Z) : Qred (inject_Z z) = inject_Z z.
Proof.
  unfold Qred, inject_Z.
  pose proof (Z.ggcd_gcd z 1) as Hg.
  pose proof (Z.ggcd_correct_divisors z 1) as Hd.
  destruct (Z.ggcd z 1) as [g [aa bb]]. cbn [fst] in Hg.
  rewrite Z.gcd_1_r in Hg. subst g. destruct Hd as [Ha Hb].
  replace aa with z by lia. replace bb with 1%Z by lia. reflexivity.
Qed.

Lemma binary64_inject_Z (z : Z) :
  (Z.abs z < 2 ^ 53)%Z → binary64 (inject_Z z) = inject_Z z.
Proof.
  intros Hz.
  assert (He : (exponent (inject_Z z) ≤ 0)%Z).
  { apply exponent_small. rewrite Qabs_inject_Z.
    rewrite <- pow2_inject by lia. rewrite <- Zlt_Qlt. exact Hz. }
  assert (He' : (-1074 ≤ exponent (inject_Z z))%Z) by (unfold exponent; lia).
  set (e := exponent (inject_Z z)) in *.
  assert (Hq : binary64 (inject_Z z) == inject_Z z).
  { apply (binary64_exact _ (z * 2 ^ (- e))).
    fold e. rewrite inject_Z_mult, pow2_inject by lia.
    rewrite <- Qmult_assoc, <- Qpower_plus by discriminate.
    replace (- e + e)%Z with 0%Z by lia. rewrite Qpower_0_r. ring. }
  rewrite <- (Qred_inject_Z z) at 2. unfold binary64. apply Qred_complete.
  transitivity (binary64 (inject_Z z)); [symmetry; apply binary64_eq|exact Hq].
Qed.

Lemma Qfloor_eq (x : Q) (z : Z) :
  inject_Z z <= x → x < inject_Z z + 1 → Qfloor x = z.
Proof.
  intros H1 H2. pose proof (Qfloor_le x) as H3. pose proof (Qlt_floor x) as H4.
  rewrite inject_Z_plus in H4. change (inject_Z 1) with 1 in H4.
  assert (inject_Z z < inject_Z (Qfloor x) + 1) as H5 by lra.
  assert (inject_Z (Qfloor x) < inject_Z z + 1) as H6 by lra.
  change 1 with (inject_Z 1) in H5, H6. rewrite <- inject_Z_plus in H5, H6.
  rewrite <- Zlt_Qlt in H5, H6. lia.
Qed.

(** [rint] at a known floor and fractional part. *)
Lemma rint_below (x : Q) (f : Z) :
  inject_Z f <= x → x < inject_Z f + (1 # 2) → rint x = f.
Proof.
  intros H1 H2. unfold rint. rewrite (Qfloor_eq x f) by lra.
  assert (Hc : (x - inject_Z f ?= 1 # 2) = Lt) by (change (x - inject_Z f < 1 # 2); lra).
  by rewrite Hc.
Qed.

Lemma rint_above (x : Q) (f : Z) :
  inject_Z f + (1 # 2) < x → x < inject_Z f + 1 → rint x = (f + 1)%Z.
Proof.
  intros H1 H2. unfold rint. rewrite (Qfloor_eq x f) by lra.
  assert (Hc : (x - inject_Z f ?= 1 # 2) = Gt) by (apply Qgt_alt; lra).
  by rewrite Hc.
Qed.

Lemma rint_tie (x : Q) (f : Z) :
  x == inject_Z f + (1 # 2) → rint x = if Z.even f then f else (f + 1)%Z.
Proof.
  intros H1. unfold rint. rewrite (Qfloor_eq x f) by lra.
  assert (Hc : (x - inject_Z f ?= 1 # 2) = Eq) by (apply Qeq_alt; lra).
  by rewrite Hc.
Qed.

Lemma inject_Z_pred_opp (f : Z) : inject_Z (- f - 1) == - inject_Z f - 1.
Proof.
  unfold Z.sub. rewrite inject_Z_plus, !inject_Z_opp.
  change (inject_Z 1) with 1. ring.
Qed.

Lemma rint_opp (x : Q) : rint (- x) = (- rint x)%Z.
Proof.
  pose proof (Qfloor_le x) as Hlo. pose proof (Qlt_floor x) as Hhi.
  rewrite inject_Z_plus in Hhi. change (inject_Z 1) with 1 in Hhi.
  set (f := Qfloor x) in *.
  destruct (Qcompare_spec x (inject_Z f + (1 # 2))) as [Heq|Hlt|Hgt].
  - (* a tie *)
    rewrite (rint_tie x f Heq).
    rewrite (rint_tie (- x) (- f - 1)).
    + rewrite Z.even_sub, Z.even_opp. change (Z.even 1) with false.
      destruct (Z.even f); cbn; lia.
    + rewrite inject_Z_pred_opp. lra.
  - rewrite (rint_below x f) by lra.
    destruct (Qeq_dec x (inject_Z f)) as [He|Hne].
    + rewrite (rint_below (- x) (- f)); [done| |]; rewrite inject_Z_opp; lra.
    + rewrite (rint_above (- x) (- f - 1)); [lia| |];
        rewrite inject_Z_pred_opp; lra.
  - rewrite (rint_above x f) by lra.
    rewrite (rint_below (- x) (- f - 1)); [lia| |];
      rewrite inject_Z_pred_opp; lra.
Qed.

Lemma ilog2_opp (x : Q) : ilog2 (- x) = ilog2 x.
Proof.
  unfold ilog2. destruct x as [n d]. cbn [Qopp Qnum Qden Qabs].
  by rewrite Z.abs_opp.
Qed.

Lemma binary64_opp (x : Q) : binary64 (- x) = - binary64 x.
Proof.
  unfold binary64, exponent. rewrite ilog2_opp.
  set (e := Z.max (ilog2 x - 52) (-1074)).
  rewrite <- Qred_opp. apply Qred_complete.
  assert (Hr : rint (- x / 2 ^ e) = (- rint (x / 2 ^ e))%Z).
  { rewrite <- rint_opp. apply rint_comp. unfold Qdiv. ring. }
  rewrite Hr, inject_Z_opp. ring.
Qed.

Lemma binary64_nonneg (x : Q) : 0 <= x → 0 <= binary64 x.
Proof.
  intros Hx. rewrite binary64_eq.
  apply Qmult_le_0_compat; [|apply Qlt_le_weak, pow2_pos].
  change 0 with (inject_Z 0). rewrite <- Zle_Qle.
  rewrite <- (rint_inject_Z 0) at 1. apply rint_mono.
  change (inject_Z 0) with 0. apply Qle_shift_div_l; [apply pow2_pos|]. lra.
Qed.

Lemma ilog2_mono (x y : Q) : 0 < x → x <= y → (ilog2 x ≤ ilog2 y)%Z.
Proof.
  intros Hx Hxy.
  destruct (ilog2_spec x) as [H1 _]; [lra|].
  destruct (ilog2_spec y) as [_ H2]; [lra|].
  rewrite Qabs_pos in H1, H2 by lra.
  assert (Hlt : 2 ^ ilog2 x < 2 ^ (ilog2 y + 1)) by lra.
  apply Qpower_lt_compat_l_inv in Hlt; [lia|reflexivity].
Qed.

(** The significand of a positive value is below [2 ^ 53], and at least
    [2 ^ 52] unless the value is subnormal. *)
Lemma significand_lt (x : Q) : 0 < x → x / 2 ^ exponent x < 2 ^ 53.
Proof.
  intros Hx. destruct (ilog2_spec x) as [_ H2]; [lra|].
  rewrite Qabs_pos in H2 by lra.
  apply Qlt_shift_div_r; [apply pow2_pos|].
  rewrite <- Qpower_plus by discriminate.
  eapply Qlt_le_trans; [exact H2|]. apply pow2_le. unfold exponent. lia.
Qed.

Lemma significand_ge (x : Q) :
  0 < x → (-1074 < exponent x)%Z → 2 ^ 52 <= x / 2 ^ exponent x.
Proof.
  intros Hx He. destruct (ilog2_spec x) as [H1 _]; [lra|].
  rewrite Qabs_pos in H1 by lra.
  apply Qle_shift_div_l; [apply pow2_pos|].
  rewrite <- Qpower_plus by discriminate.
  eapply Qle_trans; [|exact H1]. apply pow2_le. unfold exponent in *. lia.
Qed.

Lemma binary64_mono_pos (x y : Q) : 0 < x → x <= y → binary64 x <= binary64 y.
Proof.
  intros Hx Hxy.
  pose proof (ilog2_mono x y Hx Hxy) as Hi.
  assert (He : (exponent x ≤ exponent y)%Z) by (unfold exponent; lia).
  rewrite !binary64_eq.
  destruct (Z.eq_dec (exponent x) (exponent y)) as [Heq|Hne].
  - rewrite Heq. apply Qmult_le_compat_r; [|apply Qlt_le_weak, pow2_pos].
    rewrite <- Zle_Qle. apply rint_mono.
    unfold Qdiv. apply Qmult_le_compat_r; [done|].
    apply Qlt_le_weak, Qinv_lt_0_compat, pow2_pos.
  - assert (Hlt : (exponent x + 1 ≤ exponent y)%Z) by lia.
    assert (Hy : (-1074 < exponent y)%Z) by (unfold exponent in *; lia).
    apply (Qle_trans _ (2 ^ 53 * 2 ^ exponent x)).
    + apply Qmult_le_compat_r; [|apply Qlt_le_weak, pow2_pos].
      rewrite <- (pow2_inject 53) by lia. rewrite <- Zle_Qle.
      rewrite <- (rint_inject_Z (2 ^ 53)). apply rint_mono.
      rewrite (pow2_inject 53) by lia. apply Qlt_le_weak, significand_lt. done.
    + apply (Qle_trans _ (2 ^ 52 * 2 ^ exponent y)).
      * rewrite <- !Qpower_plus by discriminate. apply pow2_le. lia.
      * apply Qmult_le_compat_r; [|apply Qlt_le_weak, pow2_pos].
        rewrite <- (pow2_inject 52) by lia. rewrite <- Zle_Qle.
        rewrite <- (rint_inject_Z (2 ^ 52)) at 1. apply rint_mono.
        rewrite (pow2_inject 52) by lia. apply significand_ge; [lra|done].
Qed.

(** Rounding to binary64 keeps the order. *)
Lemma binary64_mono (x y : Q) : x <= y → binary64 x <= binary64 y.
Proof.
  intros Hxy.
  destruct (Qlt_le_dec 0 x) as [Hx|Hx]; [by apply binary64_mono_pos|].
  destruct (Qlt_le_dec y 0) as [Hy|Hy].
  - assert (H : binary64 (- y) <= binary64 (- x)) by (apply binary64_mono_pos; lra).
    rewrite !binary64_opp in H. lra.
  - assert (H1 : 0 <= binary64 y) by by apply binary64_nonneg.
    assert (H2 : 0 <= binary64 (- x)) by (apply binary64_nonneg; lra).
    rewrite binary64_opp in H2. lra.
Qed.



Lemma fadd_inject_Z (a b : Q) (u v : Z) :
  a == inject_Z u → b == inject_Z v → (Z.abs (u + v) < 2 ^ 53)%Z →
  binary64 (a + b) = inject_Z (u + v).
Proof.
  intros Ha Hb Huv. rewrite <- (binary64_inject_Z (u + v)) by done.
  apply binary64_comp. rewrite Ha, Hb, inject_Z_plus. reflexivity.
Qed.

(** On the operands listed the rounding agrees with the kernel's floats,
    for the four operations and the square root. *)
Lemma binary64_agrees_with_kernel :
  forallb (λ p, agrees_with_kernel p.1 p.2) kernel_operands = true.
Proof. by vm_compute. Qed.

Local Close Scope Q_scope.

(** The blocked summation relates related arrays, for any relation the
    addition keeps. *)
Section PairwiseRel.
Context {A B : Type} (addA : A → A → A) (zeroA : A) (addB : B → B → B) (zeroB : B).
Context (R : A → B → Prop).
Hypothesis R_add : ∀ a a' b b', R a b → R a' b' → R (addA a a') (addB b b').
Hypothesis R_zero : R zeroA zeroB.

Lemma seq_sum_rel xs ys a b :
  R a b → Forall2 R xs ys → R (seq_sum addA a xs) (seq_sum addB b ys).
Proof.
  intros Hab Hxy. revert a b Hab. unfold seq_sum.
  induction Hxy as [|x y xs ys Hxy _ IH]; intros a b Hab; [done|].
  cbn. apply IH. by apply R_add.
Qed.

Lemma zip_with_rel (r xs : list A) (s ys : list B) :
  Forall2 R r s → Forall2 R xs ys →
  Forall2 R (zip_with addA r xs) (zip_with addB s ys).
Proof.
  intros Hrs. revert xs ys.
  induction Hrs as [|a b r s Hab _ IH]; intros xs ys Hxy; [constructor|].
  destruct Hxy as [|x y xs ys Hxy Hrest]; [constructor|].
  cbn. constructor; [by apply R_add|by apply IH].
Qed.

Lemma add_blocks_rel (n : nat) (r xs : list A) (s ys : list B) :
  length xs ≤ n → Forall2 R r s → Forall2 R xs ys →
  Forall2 R (add_blocks addA r xs).1 (add_blocks addB s ys).1 ∧
  Forall2 R (add_blocks addA r xs).2 (add_blocks addB s ys).2.
Proof.
  revert r xs s ys. induction n as [|n IH]; intros r xs s ys Hn Hrs Hxy.
  { destruct Hxy; [done|cbn in Hn; lia]. }
  do 8 (destruct Hxy as [|? ? ? ? ? Hxy]; [by repeat constructor|]).
  cbn [add_blocks]. apply IH.
  - cbn in Hn. lia.
  - apply zip_with_rel; [done|]. by repeat constructor.
  - done.
Qed.

Lemma unrolled_sum_rel xs ys :
  Forall2 R xs ys → R (unrolled_sum addA zeroA xs) (unrolled_sum addB zeroB ys).
Proof.
  intros Hxy. unfold unrolled_sum.
  destruct (add_blocks_rel (length (drop 8 xs)) (take 8 xs) (drop 8 xs)
              (take 8 ys) (drop 8 ys)) as [H1 H2];
    [done|by apply Forall2_take|by apply Forall2_drop|].
  destruct (add_blocks addA (take 8 xs) (drop 8 xs)) as [r rest].
  destruct (add_blocks addB (take 8 ys) (drop 8 ys)) as [s rest'].
  cbn [fst snd] in H1, H2.
  do 8 (destruct H1 as [|? ? ? ? ? H1]; [done|]).
  destruct H1; [|done].
  apply seq_sum_rel; [|done]. repeat apply R_add; done.
Qed.

Lemma pairwise_sum_rel fuel xs ys :
  Forall2 R xs ys →
  R (pairwise_sum addA zeroA fuel xs) (pairwise_sum addB zeroB fuel ys).
Proof.
  revert xs ys. induction fuel as [|fuel IH]; intros xs ys Hxy;
    cbn [pairwise_sum]; rewrite <- (Forall2_length _ _ _ Hxy);
    repeat case_decide; try by apply seq_sum_rel.
  all: try by apply unrolled_sum_rel.
  - done.
  - apply R_add; apply IH; [by apply Forall2_take|by apply Forall2_drop].
Qed.

End PairwiseRel.

(** Over a commutative monoid the blocked summation is the plain sum. *)
Section PairwiseMonoid.
Context {B : Type} (add : B → B → B) (zero : B).
Hypothesis add_assoc : ∀ a b c, add a (add b c) = add (add a b) c.
Hypothesis add_comm : ∀ a b, add a b = add b a.
Hypothesis add_zero : ∀ a, add zero a = a.

Local Abbreviation total := (foldr add zero).

Lemma total_app xs ys : total (xs ++ ys) = add (total xs) (total ys).
Proof.
  induction xs as [|x xs IH]; cbn; [by rewrite add_zero|].
  by rewrite IH, add_assoc.
Qed.

Lemma seq_sum_total a xs : seq_sum add a xs = add a (total xs).
Proof.
  unfold seq_sum. revert a. induction xs as [|x xs IH]; intros a; cbn.
  - by rewrite add_comm, add_zero.
  - by rewrite IH, add_assoc.
Qed.

Lemma total_zip_with r xs :
  length r = length xs → total (zip_with add r xs) = add (total r) (total xs).
Proof.
  revert xs. induction r as [|a r IH]; intros [|x xs] Hl; try done.
  cbn. rewrite IH by (cbn in Hl; lia).
  rewrite <- !add_assoc. f_equal. rewrite !add_assoc. f_equal. apply add_comm.
Qed.

Lemma add_blocks_total (n : nat) r xs :
  length xs ≤ n → length r = 8 →
  length (add_blocks add r xs).1 = 8 ∧
  add (total (add_blocks add r xs).1) (total (add_blocks add r xs).2)
  = add (total r) (total xs).
Proof.
  revert r xs. induction n as [|n IH]; intros r xs Hn Hr.
  { destruct xs; [done|cbn in Hn; lia]. }
  do 8 (destruct xs as [|? xs]; [done|]).
  cbn [add_blocks].
  destruct (IH (zip_with add r [b; b0; b1; b2; b3; b4; b5; b6]) xs) as [Hl Ht].
  - cbn in Hn. lia.
  - rewrite length_zip_with. cbn. lia.
  - split; [done|]. rewrite Ht. rewrite total_zip_with by (cbn; lia).
    change (b :: b0 :: b1 :: b2 :: b3 :: b4 :: b5 :: b6 :: xs)
      with ([b; b0; b1; b2; b3; b4; b5; b6] ++ xs).
    rewrite total_app. by rewrite add_assoc.
Qed.

Lemma unrolled_sum_total xs : 8 ≤ length xs → unrolled_sum add zero xs = total xs.
Proof.
  intros Hl. unfold unrolled_sum.
  destruct (add_blocks_total (length (drop 8 xs)) (take 8 xs) (drop 8 xs))
    as [H8 Ht]; [done|rewrite length_take; lia|].
  destruct (add_blocks add (take 8 xs) (drop 8 xs)) as [r rest].
  cbn [fst snd] in H8, Ht.
  do 8 (destruct r as [|? r]; [done|]). destruct r; [|done].
  rewrite seq_sum_total.
  rewrite <- (total_app (take 8 xs) (drop 8 xs)), take_drop in Ht.
  rewrite <- Ht. f_equal.
  cbn. rewrite (add_comm _ zero), add_zero. rewrite !add_assoc. reflexivity.
Qed.

Lemma pairwise_sum_total fuel xs :
  length xs ≤ fuel → pairwise_sum add zero fuel xs = total xs.
Proof.
  revert xs. induction fuel as [|fuel IH]; intros xs Hl; cbn [pairwise_sum];
    repeat case_decide; try lia.
  - by rewrite seq_sum_total, add_zero.
  - by rewrite seq_sum_total, add_zero.
  - apply unrolled_sum_total. lia.
  - set (n2 := length xs / 2 - (length xs / 2) `mod` 8).
    assert (Hn2 : 0 < n2 < length xs).
    { subst n2. pose proof (Nat.Div0.mod_le (length xs / 2) 8).
      pose proof (Nat.mod_upper_bound (length xs / 2) 8).
      assert (64 ≤ length xs / 2) by (apply Nat.div_le_lower_bound; lia).
      assert (length xs / 2 < length xs) by (apply Nat.div_lt; lia). lia. }
    rewrite !IH.
    + by rewrite <- total_app, take_drop.
    + rewrite length_drop. lia.
    + rewrite length_take. lia.
Qed.

End PairwiseMonoid.

End Binary64Facts.

(** ** The statistics in binary64 *)

Module FloatStatsFacts.
Import Stats Schedule Binary64 FloatStats.
Import StatsFacts Binary64Facts.

Local Open Scope Q_scope.

(** A running sum with the room it has used: every partial sum of the
    routine is a whole number, exact as long as the absolute values it has taken in
    sum to less than [2 ^ 53]. *)
Lemma np_add_reduce_Z (xs : list Q) (zs : list Z) :
  Forall2 (λ x z, x == inject_Z z) xs zs →
  (foldr Z.add 0 (Z.abs <$> zs) < 2 ^ 53)%Z →
  np_add_reduce xs == inject_Z (foldr Z.add 0%Z zs).
Proof.
  intros Hxz Hb.
  set (R := λ (q : Q) (p : Z * Z),
         (0 ≤ p.2)%Z ∧ ((p.2 < 2 ^ 53)%Z → q == inject_Z p.1 ∧ (Z.abs p.1 ≤ p.2)%Z)).
  set (addB := λ p q : Z * Z, ((p.1 + q.1)%Z, (p.2 + q.2)%Z)).
  set (ys := (λ z, (z, Z.abs z)) <$> zs).
  assert (Hrel : R (np_add_reduce xs) (pairwise_sum addB (0%Z, 0%Z) (length xs) ys)).
  { unfold np_add_reduce.
    apply (pairwise_sum_rel _ _ addB (0%Z, 0%Z) R).
    - intros a a' [u m] [v n] [Hm Ha] [Hn Ha']. subst R addB. cbn in *.
      split; [lia|]. intros Hmn.
      destruct Ha as [Ha Hu]; [lia|]. destruct Ha' as [Ha' Hv]; [lia|].
      split; [|lia]. rewrite (fadd_inject_Z a a' u v) by (done || lia). reflexivity.
    - subst R. cbn. split; [lia|]. intros _. split; [reflexivity|lia].
    - subst ys. apply Forall2_fmap_r.
      eapply Forall2_impl; [exact Hxz|]. intros x z Hx. subst R. cbn.
      split; [lia|]. intros _. split; [done|lia]. }
  rewrite (pairwise_sum_total addB (0%Z, 0%Z)) in Hrel.
  - assert (Ht : foldr addB (0%Z, 0%Z) ys
                 = (foldr Z.add 0%Z zs, foldr Z.add 0%Z (Z.abs <$> zs))).
    { subst ys addB. clear. induction zs as [|z zs IH]; [done|].
      cbn. rewrite IH. reflexivity. }
    rewrite Ht in Hrel. destruct Hrel as [_ Hrel]. cbn in Hrel.
    by destruct (Hrel Hb).
  - intros [] [] []. subst addB. cbn. f_equal; lia.
  - intros [] []. subst addB. cbn. f_equal; lia.
  - intros []. subst addB. cbn. f_equal; lia.
  - subst ys. rewrite length_fmap. by rewrite (Forall2_length _ _ _ Hxz).
Qed.

Lemma integral_list (xs : list Q) :
  Forall integral xs →
  ∃ zs, Forall2 (λ x z, x == inject_Z z) xs zs.
Proof.
  induction 1 as [|x xs [z Hz] _ [zs IH]]; [by exists []|].
  exists (z :: zs). by constructor.
Qed.

Lemma np_sum_inject_Z (xs : list Q) (zs : list Z) :
  Forall2 (λ x z, x == inject_Z z) xs zs →
  np_sum xs == inject_Z (foldr Z.add 0%Z zs) ∧
  np_sum (Qabs <$> xs) == inject_Z (foldr Z.add 0%Z (Z.abs <$> zs)).
Proof.
  unfold np_sum.
  induction 1 as [|x z xs zs Hx _ [IH1 IH2]]; [done|].
  cbn [foldr fmap list_fmap]. rewrite !inject_Z_plus. split.
  - rewrite IH1, Hx. reflexivity.
  - rewrite IH2, Hx. reflexivity.
Qed.

(** On whole numbers whose absolute values sum to less than [2 ^ 53] the
    binary64 sum is the exact sum, whatever the blocking. *)
Lemma np_add_reduce_exact (xs : list Q) :
  Forall integral xs → np_sum (Qabs <$> xs) < 2 ^ 53 →
  np_add_reduce xs == np_sum xs.
Proof.
  intros Hint Hb. destruct (integral_list xs Hint) as [zs Hzs].
  destruct (np_sum_inject_Z xs zs Hzs) as [H1 H2].
  rewrite H1. apply np_add_reduce_Z; [done|].
  rewrite H2 in Hb. rewrite <- (pow2_inject 53) in Hb by lia.
  by rewrite <- Zlt_Qlt in Hb.
Qed.

(** The mean of such an array is its exact mean rounded once. *)
Lemma np_mean_binary64_exact (xs : list Q) (mu : Q) :
  Forall integral xs → np_sum (Qabs <$> xs) < 2 ^ 53 →
  np_mean xs = Some mu → np_mean_binary64 xs = Some (binary64 mu).
Proof.
  intros Hint Hb Hmu. destruct xs as [|x xs]; [done|].
  unfold np_mean_binary64. f_equal. apply binary64_comp.
  injection Hmu as <-.
  rewrite (np_add_reduce_exact _ Hint Hb). reflexivity.
Qed.



Lemma round2_binary64_mono (x y : Q) : x <= y → round2_binary64 x <= round2_binary64 y.
Proof.
  intros Hxy. unfold round2_binary64. apply binary64_mono.
  unfold Qdiv. apply Qmult_le_compat_r; [|done].
  rewrite <- Zle_Qle. apply rint_mono. apply binary64_mono. lra.
Qed.



Lemma analyze_binary64_Some g answer a :
  analyze_binary64 g answer = Some a →
  ∃ best mu, first answer = Some best ∧
    np_mean_binary64 (record_energy answer) = Some mu ∧
    energy_best a = round2_binary64 (energy best) ∧
    energy_mean a = round2_binary64 mu.
Proof.
  unfold analyze_binary64. intros Ha.
  destruct (first answer) as [best|]; [|done]. cbn in Ha.
  destruct (np_mean_binary64 (record_energy answer)) as [mu|]; [|done]. cbn in Ha.
  simplify_eq. exists best, mu. done.
Qed.




(** On the energies listed the two readings of [round(x, 2)] agree. *)
Lemma round2_agrees_with_kernel : forallb round2_agrees round2_operands = true.
Proof. by vm_compute. Qed.

(** Where the rounding shows: the mean -93/40 = -2.325 is reported as
    -2.33, and the mean distance 23/40 = 0.575 as 0.57; in exact arithmetic
    they would be -2.32 and 0.58. *)
Example energy_mean_of_forty_reads :
  energy_mean <$> analyze_binary64 0 forty_reads = Some (binary64 (-233 # 100)) ∧
  energy_mean <$> analyze 0 forty_reads = Some (-232 # 100).
Proof. split; by vm_compute. Qed.

Example hamming_mean_of_forty_one_reads :
  np_sum ((λ d, inject_Z (Z.of_nat d))
            <$> Hamming.get_hamming_distances (record_sample forty_one_reads)) = 23 ∧
  hamming_mean <$> analyze_binary64 0 forty_one_reads
  = Some (Some (binary64 (57 # 100))) ∧
  hamming_mean <$> analyze 0 forty_one_reads = Some (Some (58 # 100)).
Proof. split_and!; by vm_compute. Qed.








Lemma Qabs_le_np_sum (x : Q) (xs : list Q) :
  x ∈ xs → Qabs x <= np_sum (Qabs <$> xs).
Proof.
  assert (Hnn : ∀ ys, 0 <= np_sum (Qabs <$> ys)).
  { induction ys as [|y ys IH]; [done|].
    cbn. pose proof (Qabs_nonneg y). unfold np_sum in *. lra. }
  induction xs as [|y xs IH]; intros Hx; [by apply elem_of_nil in Hx|].
  cbn [fmap list_fmap np_sum foldr]. specialize (Hnn xs). unfold np_sum in *.
  apply elem_of_cons in Hx as [->|Hx].
  - lra.
  - specialize (IH Hx). pose proof (Qabs_nonneg y). lra.
Qed.

Lemma first_by_energy_elem rs r : first_by_energy rs = Some r → r ∈ rs.
Proof.
  revert r. induction rs as [|r0 rs IH]; intros r Hf; [done|].
  cbn in Hf. destruct (first_by_energy rs) as [r'|].
  - destruct (Qle_bool _ _); simplify_eq; [left|right; by apply IH].
  - simplify_eq. left.
Qed.

(** X11: when the energies are whole numbers whose absolute values sum to
    less than [2 ^ 53], as with the problems of the notebook, the lowest
    energy [analyze] reports is not above the average it reports. *)
Theorem analyze_best_below_mean (g : Q) (answer : SampleSet) (a : analysis) :
  Forall integral (record_energy answer) →
  np_sum (Qabs <$> record_energy answer) < 2 ^ 53 →
  analyze_binary64 g answer = Some a → energy_best a <= energy_mean a.
Proof.
  intros Hint Hb Ha.
  destruct (analyze_binary64_Some _ _ _ Ha) as (best & mu & Hf & Hmu & -> & ->).
  pose proof (first_by_energy_min _ _ Hf) as [_ Hmin].
  pose proof (first_by_energy_elem _ _ Hf) as Hbest.
  assert (HbE : energy best ∈ record_energy answer).
  { unfold record_energy. apply list_elem_of_fmap. by exists best. }
  assert (HneE : record_energy answer ≠ []).
  { intros He. rewrite He in HbE. by apply elem_of_nil in HbE. }
  destruct (np_mean_is_Some _ HneE) as [mean Hex].
  rewrite (np_mean_binary64_exact _ mean Hint Hb Hex) in Hmu.
  injection Hmu as <-.
  apply round2_binary64_mono.
  assert (Hle : energy best <= mean).
  { apply (np_mean_ge _ _ _ Hex). intros x Hx. unfold record_energy in Hx.
    apply list_elem_of_fmap in Hx as (r & -> & Hr). by apply Hmin. }
  rewrite Forall_forall in Hint. destruct (Hint _ HbE) as [z Hz].
  assert (Hzb : (Z.abs z < 2 ^ 53)%Z).
  { pose proof (Qabs_le_np_sum _ _ HbE) as Hab.
    rewrite Hz, Qabs_inject_Z in Hab.
    assert (Hlt : inject_Z (Z.abs z) < 2 ^ 53) by lra.
    rewrite <- (pow2_inject 53) in Hlt by lia. by rewrite <- Zlt_Qlt in Hlt. }
  apply (Qle_trans _ (binary64 (energy best))); [|by apply binary64_mono].
  rewrite (binary64_comp _ _ Hz), binary64_inject_Z by done. lra.
Qed.

Lemma analyze_best_below_mean_witness :
  Forall integral (record_energy raw_answer) ∧
  np_sum (Qabs <$> record_energy raw_answer) < 2 ^ 53 ∧
  ∃ a, analyze_binary64 0 raw_answer = Some a ∧ energy_best a <= energy_mean a.
Proof.
  assert (Hint : Forall integral (record_energy raw_answer)).
  { repeat constructor; [by exists 0%Z|by exists 4%Z|by exists 0%Z]. }
  assert (Hb : np_sum (Qabs <$> record_energy raw_answer) < 2 ^ 53) by reflexivity.
  split; [exact Hint|]. split; [exact Hb|].
  eexists. split; [reflexivity|].
  exact (analyze_best_below_mean 0 raw_answer _ Hint Hb eq_refl).
Defined.

End FloatStatsFacts.

(** ** Exceptions in the cells *)

Module RequestsFacts.
Import Stats Schedule Notebook Sweep FloatStats Requests.
Import StatsFacts NotebookFacts SweepFacts.

Section ExceptionFacts.
Context {sdk : SDK} {direct : Direct} {helpers : Helpers} {formats : Formats}.

Lemma cell_connect_raises k e :
  DWaveSampler = Raise e → cell_connect k = (Raise e, k).
Proof. intros He. unfold cell_connect, bind, call. by rewrite He. Qed.

Lemma cell_properties_raises k s e :
  sampler k = Some s →
  (max_anneal_schedule_points s = Raise e ∨
   ∃ points, max_anneal_schedule_points s = Ok points ∧
             annealing_time_range s = Raise e) →
  ∃ k', cell_properties k = (Raise e, k').
Proof.
  intros Hs Hfail. destruct k as [o s0 t0 se0 a0 d0]. cbn in Hs. subst s0.
  unfold cell_properties, bind, lookup_name, call, print. cbn.
  destruct Hfail as [He|(points & Hp & He)].
  - rewrite He. by eexists.
  - rewrite Hp. cbn. rewrite He. by eexists.
Qed.

Lemma cell_problem_raises k choice s e :
  sampler k = Some s →
  (nodelist s = Raise e ∨ ∃ nodes, nodelist s = Ok nodes ∧ edgelist s = Raise e) →
  cell_problem choice k = (Raise e, k).
Proof.
  intros Hs Hfail. unfold cell_problem, bind, lookup_name, call.
  rewrite Hs. destruct Hfail as [He|(nodes & Hn & He)].
  - by rewrite He.
  - rewrite Hn. by rewrite He.
Qed.

Lemma cell_schedule_raises k ms e :
  build_schedule 0.45 80 ms = Raise e → cell_schedule ms k = (Raise e, k).
Proof. intros He. unfold cell_schedule, bind, call. by rewrite He. Qed.

Lemma cell_forward_raises k g s e :
  sampler k = Some s →
  sampler_sample_ising s (h g) (J g) (forward_request g) = Raise e →
  cell_forward g k = (Raise e, k).
Proof.
  intros Hs He. unfold cell_forward, bind, lookup_name, call.
  rewrite Hs. by rewrite He.
Qed.

Lemma cell_reverse_raises k g s e :
  sampler k = Some s →
  sampler_sample_ising s (h g) (J g) (reverse_request g) = Raise e →
  cell_reverse g k = (Raise e, k).
Proof.
  intros Hs He. unfold cell_reverse, bind, lookup_name, call.
  rewrite Hs. by rewrite He.
Qed.

Lemma cell_tiling_raises k s e :
  sampler k = Some s → TilingComposite s 1 2 4 = Raise e →
  cell_tiling k = (Raise e, k).
Proof.
  intros Hs He. unfold cell_tiling, bind, lookup_name, call.
  rewrite Hs. by rewrite He.
Qed.

Lemma cell_tiling_embedding_raises k s t emb e :
  sampler k = Some s → TilingComposite s 1 2 4 = Ok t → num_tiles t ≠ 0 →
  embeddings t !! 0 = Some emb → FixedEmbeddingComposite s emb = Raise e →
  ∃ k', cell_tiling k = (Raise e, k') ∧
        sampler_embedded k' = sampler_embedded k ∧ out k' = out k.
Proof.
  intros Hs Ht Hn Hemb He. destruct k as [o s0 t0 se0 a0 d0]. cbn in Hs. subst s0.
  unfold cell_tiling, bind, call, lookup_name, set_tiled_sampler, index. cbn.
  rewrite Ht. cbn. rewrite decide_True by done.
  rewrite Hemb. cbn. rewrite He. eexists. done.
Qed.

Lemma cell_tiling_no_tiles k s t :
  sampler k = Some s → TilingComposite s 1 2 4 = Ok t → num_tiles t = 0 →
  ∃ k', cell_tiling k = (Ok tt, k') ∧
        sampler_embedded k' = sampler_embedded k ∧
        out k' = out k ++
          ["Unable to find two complete unit cells in QPU " +:+ solver_name s].
Proof.
  intros Hs Ht Hn. destruct k as [o s0 t0 se0 a0 d0]. cbn in Hs. subst s0.
  unfold cell_tiling, bind, call, lookup_name, set_tiled_sampler, print. cbn.
  rewrite Ht. cbn. rewrite decide_False by lia. cbn. eexists. done.
Qed.

Lemma cell_ground_state_raises k g rs e :
  ising_energy Flip.ground_state (h g) (J g) = Raise e →
  cell_ground_state g rs k = (Raise e, k).
Proof. intros He. unfold cell_ground_state, bind, call. by rewrite He. Qed.

Lemma cell_ground_state_raises_second k g rs ge e :
  ising_energy Flip.ground_state (h g) (J g) = Ok ge →
  ising_energy rs (h g) (J g) = Raise e →
  ∃ k', cell_ground_state g rs k = (Raise e, k') ∧
        out k' = out k ++ ["Energy of the global minimum: " +:+ str ge].
Proof.
  intros Hge He. unfold cell_ground_state, bind, call, print.
  rewrite Hge. cbn. rewrite He. eexists. done.
Qed.

Lemma cell_initial_raises k g d e :
  flipped_ground_state Flip.six_bits = Some d →
  ising_energy d (h g) (J g) = Raise e →
  cell_initial g k = (Raise e, k).
Proof.
  intros Hd He. unfold cell_initial, bind, call, or_raise.
  rewrite Hd. cbn. by rewrite He.
Qed.

Lemma cell_sampling_unbound k g :
  sampler_embedded k = None →
  ∃ k', cell_sampling g k = (Raise (NameError "sampler_embedded"), k') ∧
        out k' = out k.
Proof.
  intros Hnone. destruct k as [o s0 t0 se0 a0 d0]. cbn in Hnone. subst se0.
  unfold cell_sampling, bind, set_data, lookup_name. cbn. eexists. done.
Qed.

Lemma cell_sampling_raises_first k g se e :
  sampler_embedded k = Some se →
  sample_ising se (h g) (J g) (forward_kwargs g) = Raise e →
  ∃ k', cell_sampling g k = (Raise e, k') ∧ out k' = out k ∧ data k' = Some [].
Proof.
  intros Hse He. destruct k as [o s0 t0 se0 a0 d0]. cbn in Hse. subst se0.
  unfold cell_sampling, bind, set_data, lookup_name, call. cbn.
  rewrite He. eexists. done.
Qed.

Lemma cell_sampling_raises_second k g se a e :
  sampler_embedded k = Some se →
  sample_ising se (h g) (J g) (forward_kwargs g) = Ok a → record a ≠ [] →
  sample_ising se (h g) (J g) (pause_kwargs g) = Raise e →
  ∃ k' row, cell_sampling g k = (Raise e, k') ∧ data k' = Some [row].
Proof.
  intros Hse Ha Hne He. destruct k as [o s0 t0 se0 a0 d0]. cbn in Hse. subst se0.
  destruct (analyze_is_Some (ground_energy g) a Hne) as [row Hrow].
  unfold cell_sampling, append_analysis, bind, set_data, lookup_name, call,
    set_answer, print. cbn.
  rewrite Ha. cbn. rewrite Hrow. cbn. rewrite He.
  eexists _, row. done.
Qed.

Lemma cell_sampling_raises_third k g se a1 a2 e :
  sampler_embedded k = Some se →
  sample_ising se (h g) (J g) (forward_kwargs g) = Ok a1 → record a1 ≠ [] →
  sample_ising se (h g) (J g) (pause_kwargs g) = Ok a2 → record a2 ≠ [] →
  sample_ising se (h g) (J g) (reverse_kwargs g) = Raise e →
  ∃ k' row1 row2, cell_sampling g k = (Raise e, k') ∧ data k' = Some [row1; row2].
Proof.
  intros Hse Ha1 Hne1 Ha2 Hne2 He.
  destruct k as [o s0 t0 se0 a0 d0]. cbn in Hse. subst se0.
  destruct (analyze_is_Some (ground_energy g) a1 Hne1) as [row1 Hrow1].
  destruct (analyze_is_Some (ground_energy g) a2 Hne2) as [row2 Hrow2].
  unfold cell_sampling, append_analysis, bind, set_data, lookup_name, call,
    set_answer, print. cbn.
  rewrite Ha1. cbn. rewrite Hrow1. cbn. rewrite Ha2. cbn. rewrite Hrow2. cbn.
  rewrite He. eexists _, row1, row2. done.
Qed.

Lemma cell_sampling_empty_answer k g se a :
  sampler_embedded k = Some se →
  sample_ising se (h g) (J g) (forward_kwargs g) = Ok a → record a = [] →
  ∃ k' msg, cell_sampling g k = (Raise (ValueError msg), k') ∧ data k' = Some [].
Proof.
  intros Hse Ha He. destruct k as [o s0 t0 se0 a0 d0]. cbn in Hse. subst se0.
  assert (Hnone : analyze (ground_energy g) a = None).
  { unfold analyze, first. by rewrite He. }
  unfold cell_sampling, append_analysis, bind, set_data, lookup_name, call,
    set_answer, print. cbn.
  rewrite Ha. cbn. rewrite Hnone. cbn. eexists _, _. done.
Qed.

Lemma cell_sweep_raises k g ms se ans s_target_vals hold_time_vals done_ p left_ e :
  sampler_embedded k = Some se →
  itertools_product s_target_vals hold_time_vals = done_ ++ p :: left_ →
  Forall (answers_to g ms se ans) done_ →
  (build_schedule p.1 p.2 ms = Raise e ∨
   ∃ sch, build_schedule p.1 p.2 ms = Ok sch ∧
          sample_ising se (h g) (J g) (sweep_kwargs sch (initial g)) = Raise e) →
  ∃ k', cell_sweep g ms s_target_vals hold_time_vals k = (Raise e, k').
Proof.
  intros Hse Hsplit Hall Hfail.
  destruct (for_each_sweep g ms se ans _ ([], 0%Q) k Hse Hall) as (k1 & Hrun & Hse1 & Hout).
  unfold cell_sweep, bind at 1. rewrite Hsplit, for_each_app, Hrun.
  cbn [for_each]. unfold bind at 1.
  destruct k1 as [o s0 t0 se0 a0 d0]. cbn in Hse1. subst se0.
  unfold sweep_body, bind, print, call, lookup_name, ret. cbn.
  destruct Hfail as [Hb|(sch & Hb & Hs)].
  - rewrite Hb. cbn. by eexists.
  - rewrite Hb. cbn. rewrite Hs. cbn. by eexists.
Qed.

Lemma cell_exercise_raises_schedule k g ms d e :
  flipped_ground_state nine_bits = Some d →
  build_schedule 0.45 40 ms = Raise e → cell_exercise g ms k = (Raise e, k).
Proof.
  intros Hd He. unfold cell_exercise, bind, call, or_raise, index.
  rewrite Hd. cbn. by rewrite He.
Qed.

Lemma cell_exercise_raises_request k g ms se d sch e :
  sampler_embedded k = Some se →
  flipped_ground_state nine_bits = Some d →
  build_schedule 0.45 40 ms = Ok sch →
  sample_ising se (h g) (J g) (exercise_request sch d) = Raise e →
  ∃ k', cell_exercise g ms k = (Raise e, k') ∧ out k' = out k ++ [str_schedule sch].
Proof.
  intros Hse Hd Hsch He. destruct k as [o s0 t0 se0 a0 d0]. cbn in Hse. subst se0.
  unfold cell_exercise, bind, call, or_raise, index, print, lookup_name.
  rewrite Hd. cbn -[exercise_request]. rewrite Hsch. cbn -[exercise_request].
  rewrite He. eexists. done.
Qed.

Lemma flipped_ground_state_six : is_Some (flipped_ground_state Flip.six_bits).
Proof. eexists. by vm_compute. Qed.

Lemma flipped_ground_state_nine : is_Some (flipped_ground_state nine_bits).
Proof. eexists. by vm_compute. Qed.

(** C7: every cell that uses the SDK, or the schedule helper, ends with
    the exception the call raised, whatever the exception: the connection
    cell; the properties cell and the problem cell at each read of the
    sampler; the schedule cell; the forward and the reverse request sent to
    the sampler; the tiling cell at either constructor; the two energy
    evaluations of the ground-state cell and the one of the initial-state
    cell; the sampling cell at each of its three requests; the sweep cell
    at the schedule or the request of any pair; the exercise cell at its
    schedule and at its request.  The functions the notebook defines pass
    on what is raised in them: [analyze] on an empty answer ends the
    sampling cell with that exception, and [flip_bits] raises on a missing
    key.  When the tiling finds no tile the tiling cell ends normally,
    having printed its message and left [sampler_embedded] as it was; the
    sampling cell then ends with [NameError] if the name was never
    bound. *)
Theorem exceptions_reach_the_output (k : kernel) (g : globals) (max_slope : Q) :
  (* the connection cell *)
  (∀ e, DWaveSampler = Raise e → cell_connect k = (Raise e, k)) ∧
  (* the properties cell and the problem cell *)
  (∀ s e,
     sampler k = Some s →
     (max_anneal_schedule_points s = Raise e ∨
      ∃ points, max_anneal_schedule_points s = Ok points ∧
                annealing_time_range s = Raise e) →
     ∃ k', cell_properties k = (Raise e, k')) ∧
  (∀ choice s e,
     sampler k = Some s →
     (nodelist s = Raise e ∨
      ∃ nodes, nodelist s = Ok nodes ∧ edgelist s = Raise e) →
     cell_problem choice k = (Raise e, k)) ∧
  (* the schedule cell *)
  (∀ e, build_schedule 0.45 80 max_slope = Raise e →
        cell_schedule max_slope k = (Raise e, k)) ∧
  (* the forward and the reverse request *)
  (∀ s e, sampler k = Some s →
          sampler_sample_ising s (h g) (J g) (forward_request g) = Raise e →
          cell_forward g k = (Raise e, k)) ∧
  (∀ s e, sampler k = Some s →
          sampler_sample_ising s (h g) (J g) (reverse_request g) = Raise e →
          cell_reverse g k = (Raise e, k)) ∧
  (* the tiling cell *)
  (∀ s e, sampler k = Some s → TilingComposite s 1 2 4 = Raise e →
          cell_tiling k = (Raise e, k)) ∧
  (∀ s t emb e,
     sampler k = Some s → TilingComposite s 1 2 4 = Ok t → num_tiles t ≠ 0 →
     embeddings t !! 0 = Some emb → FixedEmbeddingComposite s emb = Raise e →
     ∃ k', cell_tiling k = (Raise e, k') ∧
           sampler_embedded k' = sampler_embedded k ∧ out k' = out k) ∧
  (∀ s t,
     sampler k = Some s → TilingComposite s 1 2 4 = Ok t → num_tiles t = 0 →
     ∃ k', cell_tiling k = (Ok tt, k') ∧
           sampler_embedded k' = sampler_embedded k ∧
           out k' = out k ++
             ["Unable to find two complete unit cells in QPU " +:+ solver_name s]) ∧
  (* the ground-state and the initial-state cell *)
  (∀ random_sample e,
     ising_energy Flip.ground_state (h g) (J g) = Raise e →
     cell_ground_state g random_sample k = (Raise e, k)) ∧
  (∀ random_sample ground_energy e,
     ising_energy Flip.ground_state (h g) (J g) = Ok ground_energy →
     ising_energy random_sample (h g) (J g) = Raise e →
     ∃ k', cell_ground_state g random_sample k = (Raise e, k') ∧
           out k' = out k ++ ["Energy of the global minimum: " +:+ str ground_energy]) ∧
  (∀ initial e,
     flipped_ground_state Flip.six_bits = Some initial →
     ising_energy initial (h g) (J g) = Raise e →
     cell_initial g k = (Raise e, k)) ∧
  (* the sampling cell *)
  (sampler_embedded k = None →
   ∃ k', cell_sampling g k = (Raise (NameError "sampler_embedded"), k') ∧
         out k' = out k) ∧
  (∀ se e,
     sampler_embedded k = Some se →
     sample_ising se (h g) (J g) (forward_kwargs g) = Raise e →
     ∃ k', cell_sampling g k = (Raise e, k') ∧ out k' = out k ∧ data k' = Some []) ∧
  (∀ se a e,
     sampler_embedded k = Some se →
     sample_ising se (h g) (J g) (forward_kwargs g) = Ok a → record a ≠ [] →
     sample_ising se (h g) (J g) (pause_kwargs g) = Raise e →
     ∃ k' row, cell_sampling g k = (Raise e, k') ∧ data k' = Some [row]) ∧
  (∀ se a1 a2 e,
     sampler_embedded k = Some se →
     sample_ising se (h g) (J g) (forward_kwargs g) = Ok a1 → record a1 ≠ [] →
     sample_ising se (h g) (J g) (pause_kwargs g) = Ok a2 → record a2 ≠ [] →
     sample_ising se (h g) (J g) (reverse_kwargs g) = Raise e →
     ∃ k' row1 row2, cell_sampling g k = (Raise e, k') ∧
                     data k' = Some [row1; row2]) ∧
  (∀ se a,
     sampler_embedded k = Some se →
     sample_ising se (h g) (J g) (forward_kwargs g) = Ok a → record a = [] →
     analyze (ground_energy g) a = None ∧
     ∃ k' msg, cell_sampling g k = (Raise (ValueError msg), k') ∧
               data k' = Some []) ∧
  (* the sweep cell *)
  (∀ se ans s_target_vals hold_time_vals done_ p left_ e,
     sampler_embedded k = Some se →
     itertools_product s_target_vals hold_time_vals = done_ ++ p :: left_ →
     Forall (answers_to g max_slope se ans) done_ →
     (build_schedule p.1 p.2 max_slope = Raise e ∨
      ∃ sch, build_schedule p.1 p.2 max_slope = Ok sch ∧
             sample_ising se (h g) (J g) (sweep_kwargs sch (initial g)) = Raise e) →
     ∃ k', cell_sweep g max_slope s_target_vals hold_time_vals k = (Raise e, k')) ∧
  (* the exercise cell *)
  (∀ initial e,
     flipped_ground_state nine_bits = Some initial →
     build_schedule 0.45 40 max_slope = Raise e →
     cell_exercise g max_slope k = (Raise e, k)) ∧
  (∀ se initial sch e,
     sampler_embedded k = Some se →
     flipped_ground_state nine_bits = Some initial →
     build_schedule 0.45 40 max_slope = Ok sch →
     sample_ising se (h g) (J g) (exercise_request sch initial) = Raise e →
     ∃ k', cell_exercise g max_slope k = (Raise e, k') ∧
           out k' = out k ++ [str_schedule sch]) ∧
  (* [flip_bits] *)
  (∀ σ l d bits b,
     σ !! l = Some d → b ∈ bits → d !! b = None → Flip.flip_bits l bits σ = None).
Proof.
  split_and!.
  - intros e. apply cell_connect_raises.
  - intros s e. apply cell_properties_raises.
  - intros choice s e. apply cell_problem_raises.
  - intros e. apply cell_schedule_raises.
  - intros s e. apply cell_forward_raises.
  - intros s e. apply cell_reverse_raises.
  - intros s e. apply cell_tiling_raises.
  - intros s t emb e. apply cell_tiling_embedding_raises.
  - intros s t. apply cell_tiling_no_tiles.
  - intros rs e. apply cell_ground_state_raises.
  - intros rs ge e. apply cell_ground_state_raises_second.
  - intros d e. apply cell_initial_raises.
  - apply cell_sampling_unbound.
  - intros se e. apply cell_sampling_raises_first.
  - intros se a e. apply cell_sampling_raises_second.
  - intros se a1 a2 e. apply cell_sampling_raises_third.
  - intros se a Hse Ha He. split.
    + unfold analyze, first. by rewrite He.
    + by apply (cell_sampling_empty_answer k g se a).
  - intros se ans stv htv done_ p left_ e. apply cell_sweep_raises.
  - intros d e. apply cell_exercise_raises_schedule.
  - intros se d sch e. apply cell_exercise_raises_request.
  - intros σ l d bits b. apply FlipFacts.flip_bits_KeyError.
Qed.

End ExceptionFacts.

Lemma exceptions_reach_the_output_witness :
  cell_connect (H := unreachable_sdk) fresh_kernel
  = (Raise (SolverFailureError "connection refused"), fresh_kernel) ∧
  cell_forward (sdk := unreachable_sdk) (direct := unreachable_direct)
    (helpers := plain_helpers) (formats := plain_formats) empty_globals lost_kernel
  = (Raise (SolverFailureError "connection refused"), lost_kernel) ∧
  ∃ k', cell_tiling (H := no_tiles_sdk) connected_kernel = (Ok tt, k') ∧
        sampler_embedded k' = None ∧
        out k' = ["Connected to sampler qpu";
                  "Unable to find two complete unit cells in QPU qpu"] ∧
        ∃ k'', cell_sampling empty_globals k'
               = (Raise (NameError "sampler_embedded"), k'').
Proof.
  pose proof (exceptions_reach_the_output (sdk := unreachable_sdk)
                (direct := unreachable_direct) (helpers := plain_helpers)
                (formats := plain_formats) fresh_kernel empty_globals 2) as Hfresh.
  pose proof (exceptions_reach_the_output (sdk := unreachable_sdk)
                (direct := unreachable_direct) (helpers := plain_helpers)
                (formats := plain_formats) lost_kernel empty_globals 2) as Hlost.
  pose proof (exceptions_reach_the_output (sdk := no_tiles_sdk)
                (direct := no_tiles_direct) (helpers := plain_helpers)
                (formats := plain_formats) connected_kernel empty_globals 2) as Hconn.
  split; [exact (proj1 Hfresh _ eq_refl)|].
  split; [exact (proj1 (proj2 (proj2 (proj2 (proj2 Hlost)))) tt _ eq_refl eq_refl)|].
  destruct (proj1 (proj2 (proj2 (proj2 (proj2 (proj2 (proj2 (proj2 (proj2 Hconn))))))))
              tt tt eq_refl eq_refl eq_refl) as (k' & Hrun & Hse & Hout).
  exists k'. split; [exact Hrun|]. split; [exact Hse|]. split; [exact Hout|].
  destruct (proj1 (proj2 (proj2 (proj2 (proj2 (proj2 (proj2 (proj2 (proj2 (proj2 (proj2
      (proj2 (proj2
      (exceptions_reach_the_output (sdk := no_tiles_sdk)
         (direct := no_tiles_direct) (helpers := plain_helpers)
         (formats := plain_formats) k' empty_globals 2))))))))))))) Hse)
    as (k'' & Hs & _).
  exists k''. exact Hs.
Defined.


End RequestsFacts.
